(** * Package manager (interview-prep/anthropic/06-package-manager)

    A shallow embedding of the staged [PackageManager] classes
    (stage2, stage3 and stage4 [solution.py]) and the properties of the
    dependency resolver, the version matcher, the lock file and the
    uninstall guard that the specification states about them.

    Modelling conventions.
    - Python [str] is [string]; the model covers strings of ASCII
      characters (on those, [int], [str.split], [re.match] and [<] behave as
      written below; [int] refuses a text of more than 4300 digits, the
      default of [sys.get_int_max_str_digits()]).
    - A [dict] that the code only reads by key ([_registry],
      [dependencies], [_resolved_versions], the stage-4 [_packages]) is a
      [gmap string _]; a [dict] whose iteration order reaches a result
      ([requirements], a lock file, the stage-2 [_packages]) is an
      insertion-ordered association list ([odict]). The stage-4
      [_packages] is only read by key or through [sorted], whose result
      does not depend on the order of insertion
      ([lockfile_independent_of_insertion_order]).
    - A call that may raise returns an [outcome]; recursion depth is bounded
      by a budget, a call that exceeds it raises [RecursionError] as the
      interpreter does. *)

From Stdlib Require Import ZArith String Ascii List Lia Permutation Sorted OrderedTypeEx.
From stdpp Require Import gmap strings list fin_maps sorting.

Local Open Scope string_scope.
Local Open Scope list_scope.

(** ** Python values, exceptions and built-ins *)

Module Py.

Inductive py_exception := TypeError | KeyError | RecursionError.

Inductive outcome (A : Type) :=
| Return (a : A)
| Raise (e : py_exception).
Arguments Return {A} a.
Arguments Raise {A} e.

#[export] Instance outcome_ret : MRet outcome := fun A a => Return a.
#[export] Instance outcome_bind : MBind outcome := fun A B f m =>
  match m with
  | Return a => f a
  | Raise e => Raise e
  end.

(** [for x in l: acc = body(acc, x)] where the body may raise. *)
Fixpoint for_each {A S : Type} (body : S -> A -> outcome S) (l : list A) (s : S)
  : outcome S :=
  match l with
  | [] => Return s
  | x :: l' =>
      match body s x with
      | Return s' => for_each body l' s'
      | Raise e => Raise e
      end
  end.

(** *** [int(str)] on ASCII text: surrounding white space is dropped, one
    sign is allowed, digits may be grouped by single underscores, and there
    may be at most 4300 digits. [None] stands for [ValueError]. *)

Definition is_space (c : ascii) : bool :=
  let n := nat_of_ascii c in
  ((9 <=? n)%nat && (n <=? 13)%nat) || (n =? 32)%nat.

Definition is_digit (c : ascii) : bool :=
  let n := nat_of_ascii c in (48 <=? n)%nat && (n <=? 57)%nat.

Definition digit_value (c : ascii) : Z := Z.of_nat (nat_of_ascii c) - 48.

Fixpoint lstrip (l : list ascii) : list ascii :=
  match l with
  | c :: l' => if is_space c then lstrip l' else l
  | [] => []
  end.

Definition strip (l : list ascii) : list ascii := rev (lstrip (rev (lstrip l))).

Fixpoint digits_value (acc : Z) (after_digit : bool) (l : list ascii) : option Z :=
  match l with
  | [] => if after_digit then Some acc else None
  | c :: l' =>
      if is_digit c then digits_value (10 * acc + digit_value c) true l'
      else if Ascii.eqb c "_" then
        if after_digit then digits_value acc false l' else None
      else None
  end.

(** The default limit on the number of digits of a decimal text; beyond it
    [int] raises [ValueError] whatever the text holds. Underscores and the
    sign do not count, leading zeros do. *)
Definition int_max_str_digits : Z := 4300.

Definition count_digits (l : list ascii) : nat := length (List.filter is_digit l).

Definition within_limit (l : list ascii) (value : option Z) : option Z :=
  if (int_max_str_digits <? Z.of_nat (count_digits l))%Z then None else value.

Definition int (s : string) : option Z :=
  match strip (list_ascii_of_string s) with
  | c :: l' =>
      if Ascii.eqb c "+" then within_limit l' (digits_value 0 false l')
      else if Ascii.eqb c "-" then within_limit l' (Z.opp <$> digits_value 0 false l')
      else within_limit (c :: l') (digits_value 0 false (c :: l'))
  | [] => None
  end.

(** *** [s.split(sep)] for a one-character separator: never empty. *)

Fixpoint split (sep : ascii) (s : string) : list string :=
  match s with
  | EmptyString => [EmptyString]
  | String c s' =>
      if Ascii.eqb c sep then EmptyString :: split sep s'
      else match split sep s' with
           | p :: ps => String c p :: ps
           | [] => [String c EmptyString]
           end
  end.

(** *** Tuples of [int] and [str] and their rich comparison. *)

Inductive py_part := PInt (n : Z) | PStr (s : string).

Inductive ord_op := OLt | OLe | OGt | OGe.

Definition part_eqb (a b : py_part) : bool :=
  match a, b with
  | PInt x, PInt y => Z.eqb x y
  | PStr x, PStr y => String.eqb x y
  | _, _ => false
  end.

Definition z_cmp (op : ord_op) (x y : Z) : bool :=
  match op with
  | OLt => Z.ltb x y | OLe => Z.leb x y | OGt => Z.ltb y x | OGe => Z.leb y x
  end.

Definition str_cmp (op : ord_op) (x y : string) : bool :=
  match op with
  | OLt => String.ltb x y | OLe => String.leb x y
  | OGt => String.ltb y x | OGe => String.leb y x
  end.

Definition len_cmp (op : ord_op) (x y : nat) : bool :=
  match op with
  | OLt => Nat.ltb x y | OLe => Nat.leb x y | OGt => Nat.ltb y x | OGe => Nat.leb y x
  end.

(** [int] against [str] under an ordering operator is a [TypeError]. *)
Definition part_cmp (op : ord_op) (a b : py_part) : outcome bool :=
  match a, b with
  | PInt x, PInt y => Return (z_cmp op x y)
  | PStr x, PStr y => Return (str_cmp op x y)
  | _, _ => Raise TypeError
  end.

(** The first pair of items that differ (by [==]) decides; when one tuple
    is a prefix of the other the lengths decide. *)
Fixpoint tuple_cmp (op : ord_op) (v w : list py_part) : outcome bool :=
  match v, w with
  | a :: v', b :: w' => if part_eqb a b then tuple_cmp op v' w' else part_cmp op a b
  | _, _ => Return (len_cmp op (length v) (length w))
  end.

Fixpoint tuple_eqb (v w : list py_part) : bool :=
  match v, w with
  | [], [] => true
  | a :: v', b :: w' => part_eqb a b && tuple_eqb v' w'
  | _, _ => false
  end.

(** *** [sorted(l, key=key)]: stable; an element goes behind every earlier
    element that is not greater. The comparison of two keys may raise. *)

Fixpoint insert_sorted {A K : Type} (lt : K -> K -> outcome bool) (key : A -> K)
    (x : A) (l : list A) : outcome (list A) :=
  match l with
  | [] => Return [x]
  | y :: l' =>
      b ← lt (key x) (key y);
      if b : bool then Return (x :: y :: l')
      else (r ← insert_sorted lt key x l'; Return (y :: r))
  end.

Definition sorted {A K : Type} (lt : K -> K -> outcome bool) (key : A -> K)
    (l : list A) : outcome (list A) :=
  for_each (fun acc x => insert_sorted lt key x acc) l [].

(** The same sort for a comparison that cannot raise ([str] against [str]). *)
Fixpoint insert_total {A : Type} (ltb : A -> A -> bool) (x : A) (l : list A) : list A :=
  match l with
  | [] => [x]
  | y :: l' => if ltb x y then x :: y :: l' else y :: insert_total ltb x l'
  end.

Definition sorted_total {A : Type} (ltb : A -> A -> bool) (l : list A) : list A :=
  fold_left (fun acc x => insert_total ltb x acc) l [].

(** *** Insertion-ordered dictionaries with [str] keys. *)

Abbreviation odict V := (list (string * V)).

Fixpoint od_get {V : Type} (k : string) (d : odict V) : option V :=
  match d with
  | [] => None
  | (k', v) :: d' => if String.eqb k k' then Some v else od_get k d'
  end.

(** [d[k] = v]: a present key keeps its place, a new key goes last. *)
Fixpoint od_set {V : Type} (k : string) (v : V) (d : odict V) : odict V :=
  match d with
  | [] => [(k, v)]
  | (k', v') :: d' =>
      if String.eqb k k' then (k, v) :: d' else (k', v') :: od_set k v d'
  end.

Definition od_mem {V : Type} (k : string) (d : odict V) : bool :=
  match od_get k d with Some _ => true | None => false end.

(** [del d[k]] for a present key. *)
Fixpoint od_del {V : Type} (k : string) (d : odict V) : odict V :=
  match d with
  | [] => []
  | (k', v) :: d' => if String.eqb k k' then d' else (k', v) :: od_del k d'
  end.

Definition od_keys {V : Type} (d : odict V) : list string := map fst d.

End Py.

Export Py.

(** ** Version ordering and constraint matching (stage3 and stage4 carry the
    same text for [_version_tuple] and [_matches_constraint]) *)

Module Versions.

(** [try: parts.append(int(part)) except ValueError: parts.append(part)] *)
Definition append_part (parts : list py_part) (part : string) : list py_part :=
  match int part with
  | Some n => parts ++ [PInt n]
  | None => parts ++ [PStr part]
  end.

Definition _version_tuple (version : string) : list py_part :=
  fold_left append_part (split "." version) [].

Inductive operator := OpEq | OpGe | OpLe | OpGt | OpLt | OpCompat.

(** The regular expression [^(==|>=|<=|>|<|~=)?(.+)$] under [re.match]. *)

Fixpoint strip_prefix (p s : string) : option string :=
  match p with
  | EmptyString => Some s
  | String c p' =>
      match s with
      | String d s' => if Ascii.eqb c d then strip_prefix p' s' else None
      | EmptyString => None
      end
  end.

Definition newline : ascii := ascii_of_nat 10.

(** The longest prefix without a newline, and what follows it. *)
Fixpoint line_prefix (s : string) : string * string :=
  match s with
  | EmptyString => (EmptyString, EmptyString)
  | String c s' =>
      if Ascii.eqb c newline then (EmptyString, s)
      else let '(t, rest) := line_prefix s' in (String c t, rest)
  end.

(** [(.+)$]: a non-empty run without newline that reaches the end of the
    text, or the newline that ends the text. *)
Definition dot_plus_end (r : string) : option string :=
  let '(t, rest) := line_prefix r in
  if String.eqb t EmptyString then None
  else if String.eqb rest EmptyString || String.eqb rest (String newline EmptyString)
       then Some t else None.

Definition alternatives : list (string * operator) :=
  [("==", OpEq); (">=", OpGe); ("<=", OpLe); (">", OpGt); ("<", OpLt); ("~=", OpCompat)].

Fixpoint match_alternatives (alts : list (string * operator)) (s : string)
  : option (option operator * string) :=
  match alts with
  | [] => None
  | (tok, op) :: alts' =>
      match strip_prefix tok s ≫= dot_plus_end with
      | Some target => Some (Some op, target)
      | None => match_alternatives alts' s
      end
  end.

(** Groups 1 and 2 of the match; the operator group is optional and is
    tried before it is skipped. *)
Definition re_match (constraint : string) : option (option operator * string) :=
  match match_alternatives alternatives constraint with
  | Some m => Some m
  | None => (fun target => (None, target)) <$> dot_plus_end constraint
  end.

Definition _matches_constraint (version constraint : string) : outcome bool :=
  match re_match constraint with
  | None => Return false
  | Some (group1, target) =>
      let op := default OpEq group1 in
      let v_tuple := _version_tuple version in
      let t_tuple := _version_tuple target in
      match op with
      | OpEq => Return (tuple_eqb v_tuple t_tuple)
      | OpGe => tuple_cmp OGe v_tuple t_tuple
      | OpLe => tuple_cmp OLe v_tuple t_tuple
      | OpGt => tuple_cmp OGt v_tuple t_tuple
      | OpLt => tuple_cmp OLt v_tuple t_tuple
      | OpCompat =>
          ge ← tuple_cmp OGe v_tuple t_tuple;
          if ge : bool then
            match v_tuple, t_tuple with
            | a :: _, b :: _ => Return (part_eqb a b)
            | _, _ => Return false
            end
          else Return false
      end
  end.

End Versions.

Export Versions.

(** ** The registry and [_find_version] (the same text in stage3 and stage4) *)

Module Registry.

(** A dependency is [(dep_name, constraint)]; the constraint may be [None]. *)
Abbreviation dependency := (string * option string)%type.

(** [{"versions": [...], "dependencies": {version: [(dep_name, constraint), ...]}}] *)
Record package_entry := {
  versions : list string;
  dependencies : gmap string (list dependency)
}.

(** [sorted(versions, key=self._version_tuple)] compares keys with [<]. *)
Definition sort_versions (vs : list string) : outcome (list string) :=
  sorted (tuple_cmp OLt) _version_tuple vs.

(** [self._registry[name] = {"versions": sorted(...), "dependencies": dependencies or {}}] *)
Definition register (registry : gmap string package_entry) (name : string)
    (vs : list string) (deps : option (gmap string (list dependency)))
  : outcome (gmap string package_entry) :=
  sorted_vs ← sort_versions vs;
  Return (<[name := {| versions := sorted_vs; dependencies := default ∅ deps |}]> registry).

(** [[v for v in versions if self._matches_constraint(v, constraint)]] *)
Definition matching_versions (constraint : string) (vs : list string)
  : outcome (list string) :=
  for_each (fun matching v =>
              b ← _matches_constraint v constraint;
              Return (if b : bool then matching ++ [v] else matching)) vs [].

Definition _find_version (registry : gmap string package_entry) (name : string)
    (constraint : option string) : outcome (option string) :=
  match registry !! name with
  | None => Return None
  | Some entry =>
      match versions entry with
      | [] => Return None
      | vs =>
          match constraint with
          | None => Return (last vs)
          | Some c => matching ← matching_versions c vs; Return (last matching)
          end
      end
  end.

(** [for x in l: if not step(x): return False], then the rest of the caller,
    which runs only when every step returned [True]; the state the steps
    mutate is threaded through and survives a [return] or a [raise]. *)
Fixpoint all_succeed {A S : Type} (step : A -> S -> outcome bool * S) (l : list A) (s : S)
  : outcome bool * S :=
  match l with
  | [] => (Return true, s)
  | x :: l' =>
      match step x s with
      | (Return true, s') => all_succeed step l' s'
      | other => other
      end
  end.

(** What the recursive installers mutate: [self._packages], and the
    [installed] list and [visiting] set they share with their callers. *)
Record progress := {
  pkgs : gmap string string;
  installed : list string;
  visiting : gset string
}.

End Registry.

Export Registry.

(** ** Stage 3: version constraints *)

Module Stage3.

Record PackageManager := {
  _packages : gmap string string;
  _registry : gmap string package_entry
}.

Definition new : PackageManager := {| _packages := ∅; _registry := ∅ |}.

Definition register_package (self : PackageManager) (name : string)
    (vs : list string) (deps : option (gmap string (list dependency)))
  : outcome unit * PackageManager :=
  match register (_registry self) name vs deps with
  | Return registry => (Return (), {| _packages := _packages self; _registry := registry |})
  | Raise e => (Raise e, self)
  end.

Fixpoint _install_recursive (depth : nat) (registry : gmap string package_entry)
    (name version : string) (st : progress) : outcome bool * progress :=
  match depth with
  | O => (Raise RecursionError, st)
  | S depth' =>
      if bool_decide (is_Some (pkgs st !! name)) then (Return true, st)
      else if bool_decide (name ∈ visiting st) then (Return false, st)
      else
        let st := {| pkgs := pkgs st; installed := installed st;
                     visiting := {[name]} ∪ visiting st |} in
        match registry !! name with
        | None => (Raise KeyError, st)
        | Some entry =>
            let deps := default [] (dependencies entry !! version) in
            match all_succeed
                    (fun (dep : dependency) st =>
                       let '(dep_name, constraint) := dep in
                       match _find_version registry dep_name constraint with
                       | Raise e => (Raise e, st)
                       | Return None => (Return false, st)
                       | Return (Some dep_version) =>
                           _install_recursive depth' registry dep_name dep_version st
                       end)
                    deps st with
            | (Return true, st) =>
                (Return true,
                 {| pkgs := <[name := version]> (pkgs st);
                    installed := installed st ++ [name +:+ "==" +:+ version];
                    visiting := visiting st |})
            | other => other
            end
        end
  end.

(** [install] returns [(success, installed_list)]. *)
Definition install (depth : nat) (self : PackageManager) (name : string)
    (constraint : option string) : outcome (bool * list string) * PackageManager :=
  match _registry self !! name with
  | None => (Return (false, []), self)
  | Some _ =>
      match _find_version (_registry self) name constraint with
      | Raise e => (Raise e, self)
      | Return None => (Return (false, []), self)
      | Return (Some version) =>
          let '(result, st) :=
            _install_recursive depth (_registry self) name version
              {| pkgs := _packages self; installed := []; visiting := ∅ |} in
          let self' := {| _packages := pkgs st; _registry := _registry self |} in
          match result with
          | Return success => (Return (success, installed st), self')
          | Raise e => (Raise e, self')
          end
      end
  end.

Definition get_version (self : PackageManager) (name : string) : option string :=
  _packages self !! name.

(** [check_constraint]: [False] for a package that is not installed. *)
Definition check_constraint (self : PackageManager) (name constraint : string)
  : outcome bool :=
  match _packages self !! name with
  | None => Return false
  | Some version => _matches_constraint version constraint
  end.

End Stage3.

(** ** Stage 4: conflict detection, ordered installation, lock files *)

Module Stage4.

Record Conflict := {
  package : string;
  required_by : list (string * string)
}.

Record PackageManager := {
  _packages : gmap string string;
  _registry : gmap string package_entry;
  _resolved_versions : gmap string string
}.

Definition new : PackageManager :=
  {| _packages := ∅; _registry := ∅; _resolved_versions := ∅ |}.

Definition register_package (self : PackageManager) (name : string)
    (vs : list string) (deps : option (gmap string (list dependency)))
  : outcome unit * PackageManager :=
  match register (_registry self) name vs deps with
  | Return registry =>
      (Return (), {| _packages := _packages self; _registry := registry;
                     _resolved_versions := _resolved_versions self |})
  | Raise e => (Raise e, self)
  end.

(** [if constraint:] holds for a non-empty string. *)
Definition truthy (constraint : option string) : bool :=
  match constraint with
  | Some c => negb (String.eqb c EmptyString)
  | None => false
  end.

Abbreviation requirement_set := (odict (list (string * string))).

(** [any(c == dep_constraint for _, c in existing)] *)
Definition already_required (existing : list (string * string))
    (dep_constraint : option string) : bool :=
  existsb (fun rc => bool_decide (Some (snd rc) = dep_constraint)) existing.

Fixpoint _collect_requirements (depth : nat) (registry : gmap string package_entry)
    (name : string) (constraint : option string) (requirements : requirement_set)
    (requirer : string) : outcome requirement_set :=
  match depth with
  | O => Raise RecursionError
  | S depth' =>
      let requirements :=
        if od_mem name requirements then requirements else od_set name [] requirements in
      let requirements :=
        match constraint with
        | Some c =>
            if truthy constraint
            then od_set name (default [] (od_get name requirements) ++ [(requirer, c)])
                        requirements
            else requirements
        | None => requirements
        end in
      match registry !! name with
      | None => Return requirements
      | Some entry =>
          version ← _find_version registry name constraint;
          match version with
          | None => Return requirements
          | Some version =>
              let deps := default [] (dependencies entry !! version) in
              for_each
                (fun requirements (dep : dependency) =>
                   let '(dep_name, dep_constraint) := dep in
                   let existing := default [] (od_get dep_name requirements) in
                   if already_required existing dep_constraint then Return requirements
                   else _collect_requirements depth' registry dep_name dep_constraint
                          requirements name)
                deps requirements
          end
      end
  end.

(** [all(self._matches_constraint(version, c) for c in constraints)] *)
Fixpoint all_match (version : string) (constraints : list string) : outcome bool :=
  match constraints with
  | [] => Return true
  | c :: cs =>
      b ← _matches_constraint version c;
      if b : bool then all_match version cs else Return false
  end.

(** [for version in reversed(versions): if all(...): compatible = version; break] *)
Fixpoint first_compatible (candidates : list string) (constraints : list string)
  : outcome (option string) :=
  match candidates with
  | [] => Return None
  | version :: rest =>
      b ← all_match version constraints;
      if b : bool then Return (Some version) else first_compatible rest constraints
  end.

(** One turn of [for pkg, reqs in requirements.items()] in [install]. *)
Definition select_version (registry : gmap string package_entry)
    (acc : list Conflict * gmap string string) (item : string * list (string * string))
  : outcome (list Conflict * gmap string string) :=
  let '(conflicts, resolved) := acc in
  let '(pkg, reqs) := item in
  match registry !! pkg with
  | None => Return (conflicts ++ [{| package := pkg; required_by := reqs |}], resolved)
  | Some entry =>
      compatible ← first_compatible (rev (versions entry)) (map snd reqs);
      match compatible with
      | None => Return (conflicts ++ [{| package := pkg; required_by := reqs |}], resolved)
      | Some version => Return (conflicts, <[pkg := version]> resolved)
      end
  end.

Definition select_versions (registry : gmap string package_entry)
    (requirements : requirement_set) : outcome (list Conflict * gmap string string) :=
  for_each (select_version registry) requirements ([], ∅).

Fixpoint _install_ordered (depth : nat) (registry : gmap string package_entry)
    (resolved : gmap string string) (name : string) (st : progress)
  : outcome bool * progress :=
  match depth with
  | O => (Raise RecursionError, st)
  | S depth' =>
      if bool_decide (is_Some (pkgs st !! name)) then (Return true, st)
      else if bool_decide (name ∈ visiting st) then (Return true, st)
      else
        match registry !! name with
        | None => (Return false, st)
        | Some entry =>
            let st := {| pkgs := pkgs st; installed := installed st;
                         visiting := {[name]} ∪ visiting st |} in
            match resolved !! name with
            | None => (Return false, st)
            | Some version =>
                let deps := default [] (dependencies entry !! version) in
                match all_succeed
                        (fun (dep : dependency) st =>
                           _install_ordered depth' registry resolved (fst dep) st)
                        deps st with
                | (Return true, st) =>
                    (Return true,
                     {| pkgs := <[name := version]> (pkgs st);
                        installed := installed st ++ [name +:+ "==" +:+ version];
                        visiting := visiting st |})
                | other => other
                end
            end
        end
  end.

(** [install] returns [(success, installed_list, conflicts)]. *)
Abbreviation install_result := (bool * list string * list Conflict)%type.

Definition install (depth : nat) (self : PackageManager) (name : string)
    (constraint : option string) (resolve_conflicts : bool)
  : outcome install_result * PackageManager :=
  match _registry self !! name with
  | None => (Return (false, [], []), self)
  | Some _ =>
      match _collect_requirements depth (_registry self) name constraint [] "root" with
      | Raise e => (Raise e, self)
      | Return requirements =>
          match select_versions (_registry self) requirements with
          | Raise e => (Raise e, self)
          | Return (conflicts, resolved) =>
              match conflicts with
              | _ :: _ =>
                  if negb resolve_conflicts then (Return (false, [], conflicts), self)
                  else (Return (false, [], conflicts), self)
              | [] =>
                  let '(result, st) :=
                    _install_ordered depth (_registry self) resolved name
                      {| pkgs := _packages self; installed := []; visiting := ∅ |} in
                  let self' := {| _packages := pkgs st;
                                  _registry := _registry self;
                                  _resolved_versions := resolved |} in
                  match result with
                  | Return success => (Return (success, installed st, []), self')
                  | Raise e => (Raise e, self')
                  end
              end
          end
      end
  end.

(** Python compares the [(name, version)] items as tuples of strings. *)
Definition item_ltb (a b : string * string) : bool :=
  if String.eqb (fst a) (fst b) then String.ltb (snd a) (snd b)
  else String.ltb (fst a) (fst b).

(** [dict(sorted(self._packages.items()))]: the lock file, in key order. *)
Definition generate_lockfile (self : PackageManager) : odict string :=
  sorted_total item_ltb (map_to_list (_packages self)).

(** One turn of [for name, version in lockfile.items()]. *)
Definition restore_entry (registry : gmap string package_entry)
    (packages : gmap string string) (item : string * string) : gmap string string :=
  let '(name, version) := item in
  if bool_decide (is_Some (registry !! name))
  then <[name := version]> packages else packages.

Definition install_from_lockfile (self : PackageManager) (lockfile : odict string)
  : bool * PackageManager :=
  (true, {| _packages := fold_left (restore_entry (_registry self)) lockfile
                                   (_packages self);
            _registry := _registry self;
            _resolved_versions := _resolved_versions self |}).

Definition is_installed (self : PackageManager) (name : string) : bool :=
  bool_decide (is_Some (_packages self !! name)).

Definition get_version (self : PackageManager) (name : string) : option string :=
  _packages self !! name.

(** [sorted(self._packages.items())] *)
Definition list_packages (self : PackageManager) : list (string * string) :=
  sorted_total item_ltb (map_to_list (_packages self)).

End Stage4.

(** ** Stage 2: dependencies and the uninstall guard *)

Module Stage2.

Record PackageManager := {
  _packages : odict string;
  _dependencies : gmap string (list string)
}.

Definition new : PackageManager := {| _packages := []; _dependencies := ∅ |}.

(** [version] is not stored by this stage. *)
Definition register_package (self : PackageManager) (name version : string)
    (deps : option (list string)) : PackageManager :=
  {| _packages := _packages self;
     _dependencies := <[name := default [] deps]> (_dependencies self) |}.

(** What [_install_recursive] mutates. *)
Record progress2 := {
  pkgs2 : odict string;
  installed2 : list string;
  visiting2 : gset string
}.

Fixpoint _install_recursive (depth : nat) (deps_of : gmap string (list string))
    (name version : string) (st : progress2) : outcome progress2 :=
  match depth with
  | O => Raise RecursionError
  | S depth' =>
      if od_mem name (pkgs2 st) || bool_decide (name ∈ visiting2 st) then Return st
      else
        let st := {| pkgs2 := pkgs2 st; installed2 := installed2 st;
                     visiting2 := {[name]} ∪ visiting2 st |} in
        st ← for_each
               (fun st dep =>
                  if negb (od_mem dep (pkgs2 st))
                  then _install_recursive depth' deps_of dep "latest" st
                  else Return st)
               (default [] (deps_of !! name)) st;
        Return {| pkgs2 := od_set name version (pkgs2 st);
                  installed2 := installed2 st ++ [name];
                  visiting2 := visiting2 st |}
  end.

Definition install (depth : nat) (self : PackageManager) (name version : string)
  : outcome (list string * PackageManager) :=
  if od_mem name (_packages self) then Return ([], self)
  else
    st ← _install_recursive depth (_dependencies self) name version
           {| pkgs2 := _packages self; installed2 := []; visiting2 := ∅ |};
    Return (installed2 st,
            {| _packages := pkgs2 st; _dependencies := _dependencies self |}).

(** [name in self._dependencies.get(pkg, [])] *)
Definition depends_on (self : PackageManager) (name pkg : string) : bool :=
  bool_decide (name ∈ default [] (_dependencies self !! pkg)).

(** [uninstall] returns [(success, error_message)]. *)
Definition uninstall (self : PackageManager) (name : string)
  : (bool * option string) * PackageManager :=
  if negb (od_mem name (_packages self))
  then ((false, Some "Package not installed"), self)
  else
    match find (depends_on self name) (od_keys (_packages self)) with
    | Some pkg =>
        ((false, Some ("Cannot uninstall: " +:+ pkg +:+ " depends on " +:+ name)), self)
    | None =>
        ((true, None),
         {| _packages := od_del name (_packages self);
            _dependencies := _dependencies self |})
    end.

Definition get_dependents (self : PackageManager) (name : string) : list string :=
  sorted_total String.ltb (filter (fun pkg => depends_on self name pkg = true)
                                  (od_keys (_packages self))).

Definition is_installed (self : PackageManager) (name : string) : bool :=
  od_mem name (_packages self).

Definition get_version (self : PackageManager) (name : string) : option string :=
  od_get name (_packages self).

(** [self._dependencies.get(name, [])] *)
Definition get_dependencies (self : PackageManager) (name : string) : list string :=
  default [] (_dependencies self !! name).

End Stage2.

(** ** Concrete registries (from the tests and the specification) *)

Module Examples.

(** A manager after a series of [register_package] calls. *)
Definition registered
    (packages : list (string * list string * list (string * list dependency)))
  : Stage4.PackageManager :=
  fold_left (fun pm '(name, vs, deps) =>
               snd (Stage4.register_package pm name vs (Some (list_to_map deps))))
            packages Stage4.new.

(** The diamond: [app] needs [pkg1] and [pkg2] (no constraint), which need
    [base >= 1.0.0] and [base <= 1.5.0]. *)
Definition diamond : Stage4.PackageManager :=
  registered
    [("base", ["1.0.0"; "1.5.0"; "2.0.0"], []);
     ("pkg1", ["1.0.0"], [("1.0.0", [("base", Some ">=1.0.0")])]);
     ("pkg2", ["1.0.0"], [("1.0.0", [("base", Some "<=1.5.0")])]);
     ("app", ["1.0.0"], [("1.0.0", [("pkg1", None); ("pkg2", None)])])].

(** Two requirers ask for [base >= 2.0.0]; only [1.0.0] is published. *)
Definition same_text_twice : Stage4.PackageManager :=
  registered
    [("base", ["1.0.0"], []);
     ("pkg1", ["1.0.0"], [("1.0.0", [("base", Some ">=2.0.0")])]);
     ("pkg2", ["1.0.0"], [("1.0.0", [("base", Some ">=2.0.0")])]);
     ("app", ["1.0.0"], [("1.0.0", [("pkg1", Some ">=1.0.0"); ("pkg2", Some ">=1.0.0")])])].

(** [app] needs [good] and, with an empty constraint text, [lib]; [lib]
    needs [extra], which nobody registered. *)
Definition unwalked_dependency : Stage4.PackageManager :=
  registered
    [("good", ["1.0.0"], []);
     ("lib", ["1.0.0"], [("1.0.0", [("extra", Some ">=1.0.0")])]);
     ("app", ["1.0.0"], [("1.0.0", [("good", Some ">=1.0.0"); ("lib", Some "")])])].

(** The same registry with another constraint on [lib]. *)
Definition walked_dependency (constraint : option string) : Stage4.PackageManager :=
  registered
    [("good", ["1.0.0"], []);
     ("lib", ["1.0.0"], [("1.0.0", [("extra", Some ">=1.0.0")])]);
     ("app", ["1.0.0"], [("1.0.0", [("good", Some ">=1.0.0"); ("lib", constraint)])])].

(** [a] needs [b >= 1.0.0] and [b] needs [a >= 1.0.0]. *)
Definition cycle : Stage4.PackageManager :=
  registered
    [("a", ["1.0.0"], [("1.0.0", [("b", Some ">=1.0.0")])]);
     ("b", ["1.0.0"], [("1.0.0", [("a", Some ">=1.0.0")])])].

(** The same cycle without constraints. *)
Definition unconstrained_cycle : Stage4.PackageManager :=
  registered
    [("a", ["1.0.0"], [("1.0.0", [("b", None)])]);
     ("b", ["1.0.0"], [("1.0.0", [("a", None)])])].

(** The cycle of [cycle] in a stage-3 manager. *)
Definition cycle3 : Stage3.PackageManager :=
  {| Stage3._packages := ∅; Stage3._registry := Stage4._registry cycle |}.

Definition requests : Stage4.PackageManager :=
  registered
    [("urllib3", ["1.26.0"], []);
     ("requests", ["2.28.0"], [("2.28.0", [("urllib3", Some ">=1.26.0")])])].

(** [requests] after [install("requests")]. *)
Definition requests_installed : Stage4.PackageManager :=
  snd (Stage4.install 10 requests "requests" None true).

(** A manager that registered and restored [ghost], and its lock file. *)
Definition ghost_installed : Stage4.PackageManager :=
  snd (Stage4.install_from_lockfile (registered [("ghost", ["1.0.0"], [])])
         [("ghost", "1.0.0")]).

(** Stage 2: [pkg2], then [pkg1], are installed; both depend on [base]. *)
Definition two_dependents : Stage2.PackageManager :=
  let pm := Stage2.register_package Stage2.new "base" "1.0.0" (Some []) in
  let pm := Stage2.register_package pm "pkg1" "1.0.0" (Some ["base"]) in
  let pm := Stage2.register_package pm "pkg2" "1.0.0" (Some ["base"]) in
  let pm := match Stage2.install 10 pm "pkg2" "1.0.0" with
            | Return (_, pm') => pm' | Raise _ => pm end in
  match Stage2.install 10 pm "pkg1" "1.0.0" with
  | Return (_, pm') => pm' | Raise _ => pm end.

End Examples.

(** ** Notions the properties are stated with *)

Module Notions.

(** A component made of decimal digits only, and a version whose
    components are all such: [2.28.0]. *)
Definition is_number (part : string) : bool :=
  negb (String.eqb part EmptyString) && forallb is_digit (list_ascii_of_string part).

Definition is_plain_version (version : string) : bool :=
  forallb is_number (split "." version).

(** A version none of whose components is longer than [int] accepts. *)
Definition is_short_version (version : string) : bool :=
  forallb (fun part => (Z.of_nat (String.length part) <=? int_max_str_digits)%Z)
          (split "." version).

(** What [_version_tuple] makes of one component. *)
Definition part_of (part : string) : py_part :=
  match int part with
  | Some n => PInt n
  | None => PStr part
  end.

(** No package is listed twice, and no constraint text is listed twice for
    one package. *)
Definition well_formed (requirements : Stage4.requirement_set) : Prop :=
  NoDup (od_keys requirements)
  /\ forall name rows, od_get name requirements = Some rows -> NoDup (map snd rows).

(** [version] satisfies every collected row [(requirer, constraint)]. *)
Definition satisfies_all (version : string) (rows : list (string * string)) : Prop :=
  Forall (fun row => _matches_constraint version (snd row) = Return true) rows.

(** [a] is not above [b]: [b < a] is false (and does not raise). *)
Definition version_le (a b : string) : Prop :=
  tuple_cmp OLt (_version_tuple b) (_version_tuple a) = Return false.

(** Every version list of the registry is ascending, as
    [register_package] stores it. *)
Definition registry_ascending (registry : gmap string package_entry) : Prop :=
  forall name entry, registry !! name = Some entry ->
                     StronglySorted version_le (versions entry).

(** The version the selection loop of [install] finds for one item of
    [requirements]: the newest that matches every constraint, if any. *)
Definition compatible_version (registry : gmap string package_entry)
    (item : string * list (string * string)) : outcome (option string) :=
  match registry !! fst item with
  | None => Return None
  | Some entry => Stage4.first_compatible (rev (versions entry)) (map snd (snd item))
  end.

Definition unsatisfiable (registry : gmap string package_entry)
    (item : string * list (string * string)) : bool :=
  match compatible_version registry item with
  | Return None => true
  | _ => false
  end.

Definition conflict_of (item : string * list (string * string)) : Stage4.Conflict :=
  {| Stage4.package := fst item; Stage4.required_by := snd item |}.

(** The collected requirement set is satisfiable: each package it names is
    registered and has a published version that satisfies every row
    collected for it. *)
Definition satisfiable_set (registry : gmap string package_entry)
    (requirements : Stage4.requirement_set) : Prop :=
  forall pkg rows,
    od_get pkg requirements = Some rows ->
    exists entry version,
      registry !! pkg = Some entry /\ version ∈ versions entry
      /\ satisfies_all version rows.

(** Every collected constraint gives a result on every published version of
    its package (no comparison raises). *)
Definition defined_rows (registry : gmap string package_entry)
    (requirements : Stage4.requirement_set) : Prop :=
  forall pkg rows entry w row,
    od_get pkg requirements = Some rows -> registry !! pkg = Some entry ->
    w ∈ versions entry -> row ∈ rows ->
    exists b, _matches_constraint w (snd row) = Return b.

(** The text [name==version] that [installed] records, and a run of
    [self._packages[name] = version]. *)
Definition entry_text (item : string * string) : string :=
  fst item +:+ "==" +:+ snd item.

Definition add_all (added : list (string * string)) (packages : gmap string string)
  : gmap string string :=
  fold_left (fun m item => <[fst item := snd item]> m) added packages.

(** What a run of [_install_ordered] does to the state it shares with its
    callers: it appends the entries [added] to [installed], stores them in
    [_packages], each at its resolved version, and only adds to [visiting]. *)
Definition installs (registry : gmap string package_entry)
    (resolved : gmap string string) (st st' : progress) : Prop :=
  exists added : list (string * string),
    installed st' = installed st ++ map entry_text added
    /\ pkgs st' = add_all added (pkgs st)
    /\ Forall (fun item => resolved !! fst item = Some (snd item)
                           /\ is_Some (registry !! fst item)) added
    /\ visiting st ⊆ visiting st'.

(** Every dependency of the registry carries a constraint (none is [None]). *)
Definition constrained (registry : gmap string package_entry) : Prop :=
  forall name entry version deps dep_name,
    registry !! name = Some entry ->
    dependencies entry !! version = Some deps ->
    (dep_name, None) ∉ deps.

(** The [(dep_name, constraint)] pairs of the registry, of all versions. *)
Definition edges (registry : gmap string package_entry) : list (string * string) :=
  item ← map_to_list registry;
  deps ← map_to_list (dependencies (snd item));
  omap (fun dep : dependency => (fun c => (fst dep, c)) <$> snd dep) (snd deps).

(** The requirement set has a row with this constraint for this package. *)
Definition recorded (requirements : Stage4.requirement_set) (edge : string * string)
  : bool :=
  Stage4.already_required (default [] (od_get (fst edge) requirements)) (Some (snd edge)).

(** The requirement set only grows. *)
Definition grows (r r' : Stage4.requirement_set) : Prop :=
  forall edge, recorded r edge = true -> recorded r' edge = true.

(** How many pairs of the registry collection has not recorded yet. *)
Definition pending (registry : gmap string package_entry)
    (requirements : Stage4.requirement_set) : nat :=
  length (filter (fun edge => recorded requirements edge = false) (edges registry)).

(** A recursion budget that [install] cannot exhaust on a constrained
    registry. *)
Definition recursion_bound (registry : gmap string package_entry) : nat :=
  length (edges registry) + size registry + 2.

(** The managers that calls of the public methods lead to. *)
Inductive reachable : Stage4.PackageManager -> Prop :=
| reach_new : reachable Stage4.new
| reach_register self name vs deps :
    reachable self -> reachable (snd (Stage4.register_package self name vs deps))
| reach_install depth self name constraint resolve_conflicts :
    reachable self ->
    reachable (snd (Stage4.install depth self name constraint resolve_conflicts))
| reach_restore self lockfile :
    reachable self -> reachable (snd (Stage4.install_from_lockfile self lockfile)).

(** The ways a call of [install] ends, by the phase that ends it. *)
Inductive install_run (depth : nat) (self : Stage4.PackageManager) (name : string)
    (constraint : option string)
  : outcome Stage4.install_result * Stage4.PackageManager -> Prop :=
| run_unknown :
    Stage4._registry self !! name = None ->
    install_run depth self name constraint (Return (false, [], []), self)
| run_collect_raises (e : py_exception) :
    is_Some (Stage4._registry self !! name) ->
    Stage4._collect_requirements depth (Stage4._registry self) name constraint [] "root"
      = Raise e ->
    install_run depth self name constraint (Raise e, self)
| run_select_raises (requirements : Stage4.requirement_set) (e : py_exception) :
    is_Some (Stage4._registry self !! name) ->
    Stage4._collect_requirements depth (Stage4._registry self) name constraint [] "root"
      = Return requirements ->
    Stage4.select_versions (Stage4._registry self) requirements = Raise e ->
    install_run depth self name constraint (Raise e, self)
| run_conflicts (requirements : Stage4.requirement_set)
    (conflicts : list Stage4.Conflict) (resolved : gmap string string) :
    is_Some (Stage4._registry self !! name) ->
    Stage4._collect_requirements depth (Stage4._registry self) name constraint [] "root"
      = Return requirements ->
    Stage4.select_versions (Stage4._registry self) requirements
      = Return (conflicts, resolved) ->
    conflicts <> [] ->
    install_run depth self name constraint (Return (false, [], conflicts), self)
| run_installs (requirements : Stage4.requirement_set)
    (resolved : gmap string string) (result : outcome bool) (st : progress) :
    is_Some (Stage4._registry self !! name) ->
    Stage4._collect_requirements depth (Stage4._registry self) name constraint [] "root"
      = Return requirements ->
    Stage4.select_versions (Stage4._registry self) requirements = Return ([], resolved) ->
    Stage4._install_ordered depth (Stage4._registry self) resolved name
      {| pkgs := Stage4._packages self; installed := []; visiting := ∅ |} = (result, st) ->
    install_run depth self name constraint
      (match result with
       | Return success => Return (success, installed st, [])
       | Raise e => Raise e
       end,
       {| Stage4._packages := pkgs st;
          Stage4._registry := Stage4._registry self;
          Stage4._resolved_versions := resolved |}).

(** What a run of [_install_ordered] adds is new: each entry is added
    once, for a package that was neither installed nor on the way down when
    the run began. *)
Definition installs_new (st st' : progress) : Prop :=
  exists added : list (string * string),
    installed st' = installed st ++ map entry_text added
    /\ pkgs st' = add_all added (pkgs st)
    /\ NoDup (map fst added)
    /\ Forall (fun item => pkgs st !! fst item = None
                           /\ (fst item ∉ visiting st) /\ fst item ∈ visiting st') added
    /\ visiting st ⊆ visiting st'.

(** After a run that succeeded, every package met on the way is installed
    (or was on the way down before), and so is every dependency of every
    package the run installed. *)
Definition dependencies_met (registry : gmap string package_entry)
    (resolved : gmap string string) (st st' : progress) : Prop :=
  (forall name, is_Some (pkgs st !! name) -> is_Some (pkgs st' !! name))
  /\ (forall name, name ∈ visiting st' -> name ∈ visiting st \/ is_Some (pkgs st' !! name))
  /\ (forall name entry version dep,
        pkgs st !! name = None -> is_Some (pkgs st' !! name) ->
        registry !! name = Some entry -> resolved !! name = Some version ->
        dep ∈ default [] (dependencies entry !! version) ->
        is_Some (pkgs st' !! fst dep) \/ fst dep ∈ visiting st).

(** What a run of the stage-2 [_install_recursive] adds: the packages
    [added], each once and none of them installed or on the way down
    before, at the end of [_packages] and of [installed]; the other
    packages keep their versions. *)
Definition adds (st st' : Stage2.progress2) (added : list string) : Prop :=
  Stage2.installed2 st' = Stage2.installed2 st ++ added
  /\ od_keys (Stage2.pkgs2 st') = od_keys (Stage2.pkgs2 st) ++ added
  /\ NoDup added
  /\ Forall (fun name => od_get name (Stage2.pkgs2 st) = None
                           /\ (name ∉ Stage2.visiting2 st)
                           /\ name ∈ Stage2.visiting2 st') added
  /\ (forall name, name ∉ added ->
                   od_get name (Stage2.pkgs2 st') = od_get name (Stage2.pkgs2 st))
  /\ Stage2.visiting2 st ⊆ Stage2.visiting2 st'.

(** After a run of the stage-2 [_install_recursive], every package met on
    the way is installed (or was on the way down before), and so is every
    dependency of every package the run installed. *)
Definition dependencies_installed (deps_of : gmap string (list string))
    (st st' : Stage2.progress2) : Prop :=
  (forall name, od_mem name (Stage2.pkgs2 st) = true -> od_mem name (Stage2.pkgs2 st') = true)
  /\ (forall name, name ∈ Stage2.visiting2 st' ->
                   name ∈ Stage2.visiting2 st \/ od_mem name (Stage2.pkgs2 st') = true)
  /\ (forall name dep,
        od_mem name (Stage2.pkgs2 st) = false -> od_mem name (Stage2.pkgs2 st') = true ->
        dep ∈ default [] (deps_of !! name) ->
        od_mem dep (Stage2.pkgs2 st') = true \/ dep ∈ Stage2.visiting2 st).

End Notions.

Export Notions.

(** Evaluates the comparisons of two given characters. *)
Ltac compare_characters :=
  repeat match goal with
         | |- context [Ascii.eqb ?a ?b] =>
             tryif is_var b then fail
             else let r := eval vm_compute in (Ascii.eqb a b) in
                  change (Ascii.eqb a b) with r
         end.

(** * Properties *)

(** ** Version tuples *)

Section VersionTuple.

Lemma fold_append_part (l : list string) (parts : list py_part) :
  fold_left append_part l parts = parts ++ map part_of l.
Proof.
  revert parts; induction l as [|part l IH]; intros parts; simpl.
  - by rewrite app_nil_r.
  - rewrite IH. unfold append_part, part_of.
    destruct (int part); by rewrite <- app_assoc.
Qed.

Lemma version_tuple_map (version : string) :
  _version_tuple version = map part_of (split "." version).
Proof. unfold _version_tuple. by rewrite fold_append_part. Qed.

Lemma split_nonempty (sep : ascii) (s : string) : split sep s <> [].
Proof.
  destruct s as [|c s]; simpl; [done|].
  destruct (Ascii.eqb c sep); [done|]. by destruct (split sep s).
Qed.

Lemma version_tuple_nonempty (version : string) : _version_tuple version <> [].
Proof.
  rewrite version_tuple_map. pose proof (split_nonempty "." version).
  by destruct (split "." version).
Qed.

(** C6 (as the code has it): parsing never fails. Every dot-separated
    component yields exactly one item of the tuple, in order: the integer
    when [int] accepts the component, and the component itself, verbatim, as
    a string item when [int] raises [ValueError]. *)
Theorem version_tuple_keeps_every_component (version : string) :
  Forall2 (fun part item =>
             (exists n, int part = Some n /\ item = PInt n)
             \/ (int part = None /\ item = PStr part))
          (split "." version) (_version_tuple version).
Proof.
  rewrite version_tuple_map.
  induction (split "." version) as [|part l IH]; simpl; constructor; [|exact IH].
  unfold part_of. destruct (int part) as [n|] eqn:E; [left; eauto | right; eauto].
Qed.

(** C6, the claim as stated fails: the component [x] is not numeric, yet
    the version parses, [x] is kept, and the version is accepted by the
    matcher. *)
Lemma version_tuple_accepts_non_numeric :
  int "x" = None
  /\ _version_tuple "1.x" = [PInt 1; PStr "x"]
  /\ _matches_constraint "1.x" "==1.x" = Return true.
Proof. by vm_compute. Qed.

End VersionTuple.

(** ** The [==] constraint and equality of versions *)

Section VersionEquality.

Lemma part_eqb_refl (a : py_part) : part_eqb a a = true.
Proof. destruct a; simpl; [apply Z.eqb_refl | apply String.eqb_refl]. Qed.

Lemma tuple_eqb_refl (v : list py_part) : tuple_eqb v v = true.
Proof. induction v as [|a v IH]; simpl; [done|]. by rewrite part_eqb_refl, IH. Qed.

Lemma tuple_cmp_refl (op : ord_op) (v : list py_part) :
  tuple_cmp op v v = Return (len_cmp op (length v) (length v)).
Proof.
  induction v as [|a v IH]; simpl; [done|]. rewrite part_eqb_refl, IH.
  by destruct op.
Qed.

(** A proper extension is unequal and greater, whatever it is extended by. *)
Lemma tuple_eqb_extension (v : list py_part) (a : py_part) (w : list py_part) :
  tuple_eqb v (v ++ a :: w) = false /\ tuple_eqb (v ++ a :: w) v = false.
Proof.
  induction v as [|b v [IH1 IH2]]; simpl; [done|].
  by rewrite part_eqb_refl, IH1, IH2.
Qed.

Lemma tuple_lt_extension (v : list py_part) (a : py_part) (w : list py_part) :
  tuple_cmp OLt v (v ++ a :: w) = Return true.
Proof.
  induction v as [|b v IH]; simpl; [done|]. by rewrite part_eqb_refl.
Qed.

Lemma digit_not_special (c : ascii) :
  is_digit c = true ->
  Ascii.eqb c newline = false /\ Ascii.eqb "=" c = false /\ Ascii.eqb c "." = false.
Proof.
  destruct c as [[] [] [] [] [] [] [] []]; vm_compute; intros H; try discriminate H; done.
Qed.

(** The characters of a version whose components are digit runs are digits
    and dots. *)
Lemma split_digit_runs (s : string) :
  forallb (fun part => forallb is_digit (list_ascii_of_string part)) (split "." s) = true ->
  Forall (fun c => is_digit c = true \/ c = "."%char) (list_ascii_of_string s).
Proof.
  induction s as [|c s IH]; simpl; [constructor|].
  destruct (Ascii.eqb_spec c ".") as [->|Hc]; simpl.
  - intros H. constructor; [by right | by apply IH].
  - pose proof (split_nonempty "." s) as Hne.
    destruct (split "." s) as [|part parts]; [done|]. simpl in *.
    intros [[Hd Hp]%andb_prop Hps]%andb_prop.
    constructor; [by left|]. apply IH. by rewrite Hp, Hps.
Qed.

Lemma is_number_digit_run (part : string) :
  is_number part = true -> forallb is_digit (list_ascii_of_string part) = true.
Proof. unfold is_number. by intros [_ H]%andb_prop. Qed.

Lemma plain_version_chars (version : string) :
  is_plain_version version = true ->
  Forall (fun c => is_digit c = true \/ c = "."%char) (list_ascii_of_string version).
Proof.
  unfold is_plain_version. intros H. apply split_digit_runs.
  induction (split "." version) as [|part l IH]; simpl in *; [done|].
  apply andb_prop in H as [H1 H2]. by rewrite (is_number_digit_run _ H1), IH.
Qed.

Lemma line_prefix_no_newline (s : string) :
  Forall (fun c => Ascii.eqb c newline = false) (list_ascii_of_string s) ->
  line_prefix s = (s, EmptyString).
Proof.
  induction s as [|c s IH]; simpl; [done|].
  intros H. inversion H as [|? ? Hc Hs]; subst. by rewrite Hc, (IH Hs).
Qed.

Lemma plain_version_first (version : string) :
  is_plain_version version = true ->
  exists c rest, version = String c rest /\ is_digit c = true.
Proof.
  intros H. destruct version as [|c rest]; [by vm_compute in H|].
  exists c, rest. split; [done|].
  pose proof (plain_version_chars _ H) as Hall. inversion Hall as [|? ? [Hd| ->] _]; subst; [done|].
  unfold is_plain_version in H. simpl in H. done.
Qed.

Lemma plain_version_line (version : string) :
  is_plain_version version = true -> dot_plus_end version = Some version.
Proof.
  intros H. unfold dot_plus_end. rewrite line_prefix_no_newline.
  - destruct (plain_version_first _ H) as (c & rest & -> & _). done.
  - eapply Forall_impl; [apply (plain_version_chars _ H)|].
    intros c [Hd| ->]; [by apply digit_not_special | done].
Qed.

(** [re.match] on [==v] and on [<v] for a plain version [v]. *)
Lemma re_match_eq_plain (version : string) :
  is_plain_version version = true ->
  re_match ("==" +:+ version) = Some (Some OpEq, version).
Proof.
  intros H. unfold re_match, alternatives. cbn [match_alternatives].
  change (strip_prefix "==" ("==" +:+ version)) with (Some version).
  cbn [mbind option_bind].
  rewrite (plain_version_line _ H). done.
Qed.

Lemma re_match_lt_plain (version : string) :
  is_plain_version version = true ->
  re_match ("<" +:+ version) = Some (Some OpLt, version).
Proof.
  intros H. destruct (plain_version_first _ H) as (c & rest & Hv & Hc).
  destruct (digit_not_special _ Hc) as (_ & Hne & _).
  unfold re_match, alternatives. cbn [match_alternatives].
  change (strip_prefix "==" ("<" +:+ version)) with (@None string).
  change (strip_prefix ">=" ("<" +:+ version)) with (@None string).
  change (strip_prefix ">" ("<" +:+ version)) with (@None string).
  change (strip_prefix "<" ("<" +:+ version)) with (Some version).
  assert (strip_prefix "<=" ("<" +:+ version) = None) as ->.
  { rewrite Hv.
    change (strip_prefix "<=" ("<" +:+ String c rest))
      with (if Ascii.eqb "=" c then Some rest else None).
    by rewrite Hne. }
  cbn [mbind option_bind].
  by rewrite (plain_version_line _ H).
Qed.

(** C5 (as the code has it): no padding is applied. Two plain versions with
    the same component sequence are equal, and each satisfies [==] the
    other; a version that continues another one (so also one that only
    adds zero components, as [1.2.0] does to [1.2]) is a different, greater
    version: [==] fails in both directions and [<] holds. *)
Theorem equal_tuples_match_and_extensions_do_not (v1 v2 : string) :
  is_plain_version v1 = true ->
  is_plain_version v2 = true ->
  (_version_tuple v1 = _version_tuple v2 ->
     tuple_eqb (_version_tuple v1) (_version_tuple v2) = true
     /\ _matches_constraint v1 ("==" +:+ v2) = Return true
     /\ _matches_constraint v2 ("==" +:+ v1) = Return true)
  /\ (forall a w, _version_tuple v2 = _version_tuple v1 ++ a :: w ->
        _matches_constraint v1 ("==" +:+ v2) = Return false
        /\ _matches_constraint v2 ("==" +:+ v1) = Return false
        /\ _matches_constraint v1 ("<" +:+ v2) = Return true).
Proof.
  intros H1 H2. unfold _matches_constraint.
  rewrite (re_match_eq_plain _ H1), (re_match_eq_plain _ H2), (re_match_lt_plain _ H2).
  simpl. split.
  - intros ->. by rewrite tuple_eqb_refl.
  - intros a w ->. destruct (tuple_eqb_extension (_version_tuple v1) a w) as [-> ->].
    by rewrite tuple_lt_extension.
Qed.

Lemma equal_tuples_witness :
  (_version_tuple "01.2" = _version_tuple "1.2" ->
     tuple_eqb (_version_tuple "01.2") (_version_tuple "1.2") = true
     /\ _matches_constraint "01.2" "==1.2" = Return true
     /\ _matches_constraint "1.2" "==01.2" = Return true)
  /\ (forall a w, _version_tuple "1.2" = _version_tuple "01.2" ++ a :: w ->
        _matches_constraint "01.2" "==1.2" = Return false
        /\ _matches_constraint "1.2" "==01.2" = Return false
        /\ _matches_constraint "01.2" "<1.2" = Return true).
Proof.
  apply (equal_tuples_match_and_extensions_do_not "01.2" "1.2"); reflexivity.
Defined.

(** C5, the claim as stated fails: [1.2] and [1.2.0] have the same
    components once [1.2] is padded with a zero, but the code compares
    [(1, 2)] with [(1, 2, 0)]: they are not equal, neither satisfies [==] the
    other, and [1.2] is the smaller. *)
Lemma padded_versions_are_not_equal :
  _version_tuple "1.2" ++ [PInt 0] = _version_tuple "1.2.0"
  /\ tuple_eqb (_version_tuple "1.2") (_version_tuple "1.2.0") = false
  /\ _matches_constraint "1.2" "==1.2.0" = Return false
  /\ _matches_constraint "1.2.0" "==1.2" = Return false
  /\ tuple_cmp OLt (_version_tuple "1.2") (_version_tuple "1.2.0") = Return true.
Proof. by vm_compute. Qed.

End VersionEquality.

(** ** Ordered dictionaries and sorting *)

Section OrderedDict.

Context {V : Type}.
Implicit Types (d : odict V) (k : string) (v : V).

Lemma od_get_elem_of d k v : od_get k d = Some v -> (k, v) ∈ d.
Proof.
  induction d as [|[k' v'] d IH]; simpl; [done|].
  destruct (String.eqb_spec k k') as [->|Hne].
  - intros [= ->]. apply list_elem_of_here.
  - intros H. apply list_elem_of_further. by apply IH.
Qed.

Lemma od_get_None d k : od_get k d = None <-> k ∉ od_keys d.
Proof.
  induction d as [|[k' v'] d IH]; simpl.
  - split; [intros _; apply not_elem_of_nil | done].
  - rewrite not_elem_of_cons. destruct (String.eqb_spec k k') as [->|Hne].
    + split; [done | by intros [? _]].
    + rewrite IH. tauto.
Qed.

Lemma od_get_unique d k v :
  NoDup (od_keys d) -> (k, v) ∈ d -> od_get k d = Some v.
Proof.
  induction d as [|[k' v'] d IH]; simpl.
  - intros _ H. by apply elem_of_nil in H.
  - intros [Hk Hd]%NoDup_cons [[= -> ->]|Hin]%elem_of_cons.
    + by rewrite String.eqb_refl.
    + destruct (String.eqb_spec k k') as [->|Hne]; [|by apply IH].
      exfalso. apply Hk. apply (list_elem_of_fmap_2 fst) in Hin. exact Hin.
Qed.

Lemma od_get_set_eq d k v : od_get k (od_set k v d) = Some v.
Proof.
  induction d as [|[k' v'] d IH]; simpl.
  - by rewrite String.eqb_refl.
  - destruct (String.eqb_spec k k') as [->|Hne]; simpl.
    + by rewrite String.eqb_refl.
    + by destruct (String.eqb_spec k k').
Qed.

Lemma od_get_set_ne d k k' v : k <> k' -> od_get k' (od_set k v d) = od_get k' d.
Proof.
  intros Hne. induction d as [|[k0 v0] d IH]; simpl.
  - by destruct (String.eqb_spec k' k) as [->|].
  - destruct (String.eqb_spec k k0) as [->|Hne0]; simpl.
    + by destruct (String.eqb_spec k' k0) as [->|].
    + by rewrite IH.
Qed.

Lemma od_keys_set d k v :
  od_keys (od_set k v d) = if od_mem k d then od_keys d else od_keys d ++ [k].
Proof.
  unfold od_mem. induction d as [|[k' v'] d IH]; simpl; [done|].
  destruct (String.eqb_spec k k') as [->|Hne]; simpl; [done|].
  rewrite IH. by destruct (od_get k d).
Qed.

Lemma od_set_NoDup d k v : NoDup (od_keys d) -> NoDup (od_keys (od_set k v d)).
Proof.
  intros Hd. rewrite od_keys_set. unfold od_mem.
  destruct (od_get k d) eqn:E; [done|].
  apply NoDup_app. split_and!; [done | | apply NoDup_singleton].
  intros x Hx ->%list_elem_of_singleton. by apply od_get_None in E.
Qed.

End OrderedDict.

Section Sorting.

Context {A : Type} (ltb : A -> A -> bool).

Lemma insert_total_perm (x : A) (l : list A) : insert_total ltb x l ≡ₚ x :: l.
Proof.
  induction l as [|y l IH]; simpl; [done|].
  destruct (ltb x y); [done|]. rewrite IH. apply Permutation_swap.
Qed.

Lemma sorted_total_perm (l : list A) : sorted_total ltb l ≡ₚ l.
Proof.
  unfold sorted_total.
  enough (forall acc, fold_left (fun acc x => insert_total ltb x acc) l acc ≡ₚ l ++ acc) as H.
  { by rewrite H, app_nil_r. }
  induction l as [|x l IH]; intros acc; simpl; [done|].
  rewrite IH, insert_total_perm. by rewrite Permutation_middle.
Qed.

(** The pure sort is [sorted] for a comparison that never raises. *)
Lemma sorted_total_is_sorted (l : list A) :
  sorted (fun a b => Return (ltb a b)) id l = Return (sorted_total ltb l).
Proof.
  unfold sorted, sorted_total.
  assert (forall x acc, insert_sorted (fun a b => Return (ltb a b)) id x acc
                        = Return (insert_total ltb x acc)) as Hins.
  { intros x acc. induction acc as [|y acc IH]; simpl; [done|].
    destruct (ltb x y); simpl; [done|]. by rewrite IH. }
  generalize (@nil A). induction l as [|x l IH]; intros acc; simpl; [done|].
  by rewrite Hins, IH.
Qed.

End Sorting.

(** ** Lock files (stage 4) *)

Section Lockfile.

Import Stage4.

Lemma restore_untouched (registry : gmap string package_entry)
    (lockfile : odict string) (packages : gmap string string) (name : string) :
  name ∉ od_keys lockfile ->
  fold_left (restore_entry registry) lockfile packages !! name = packages !! name.
Proof.
  revert packages. induction lockfile as [|[k v] l IH]; intros packages; simpl; [done|].
  intros [Hne Hl]%not_elem_of_cons. rewrite IH by done.
  case_bool_decide; [by rewrite lookup_insert_ne | done].
Qed.

Lemma restore_lookup (registry : gmap string package_entry)
    (lockfile : odict string) (packages : gmap string string) (name : string) :
  NoDup (od_keys lockfile) ->
  fold_left (restore_entry registry) lockfile packages !! name =
    match od_get name lockfile with
    | Some version =>
        if bool_decide (is_Some (registry !! name)) then Some version
        else packages !! name
    | None => packages !! name
    end.
Proof.
  revert packages. induction lockfile as [|[k v] l IH]; intros packages; simpl; [done|].
  intros [Hk Hl]%NoDup_cons. destruct (String.eqb_spec name k) as [->|Hne].
  - rewrite restore_untouched by done.
    case_bool_decide; [by rewrite lookup_insert_eq | done].
  - rewrite IH by done. destruct (od_get name l); [|].
    + case_bool_decide; [done|]. case_bool_decide; [by rewrite lookup_insert_ne | done].
    + case_bool_decide; [by rewrite lookup_insert_ne | done].
Qed.

(** C10: [install_from_lockfile] always returns [True] and leaves the
    registry alone; an entry whose name is registered is installed at the
    version the lock file gives, an entry whose name is not registered is
    skipped without an error, and no other package changes. *)
Theorem install_from_lockfile_skips_unregistered
    (self : PackageManager) (lockfile : odict string) :
  NoDup (od_keys lockfile) ->
  fst (install_from_lockfile self lockfile) = true
  /\ _registry (snd (install_from_lockfile self lockfile)) = _registry self
  /\ forall name,
       _packages (snd (install_from_lockfile self lockfile)) !! name =
         match od_get name lockfile with
         | Some version =>
             if bool_decide (is_Some (_registry self !! name)) then Some version
             else _packages self !! name
         | None => _packages self !! name
         end.
Proof.
  intros Hnd. split_and!; [done | done |].
  intros name. simpl. by apply restore_lookup.
Qed.

Lemma generate_lockfile_perm (self : PackageManager) :
  generate_lockfile self ≡ₚ map_to_list (_packages self).
Proof. apply sorted_total_perm. Qed.

Lemma generate_lockfile_NoDup (self : PackageManager) :
  NoDup (od_keys (generate_lockfile self)).
Proof.
  unfold od_keys. rewrite (generate_lockfile_perm self). apply NoDup_fst_map_to_list.
Qed.

Lemma generate_lockfile_get (self : PackageManager) (name : string) :
  od_get name (generate_lockfile self) = _packages self !! name.
Proof.
  destruct (_packages self !! name) as [v|] eqn:E.
  - apply od_get_unique; [apply generate_lockfile_NoDup|].
    rewrite (generate_lockfile_perm self). by apply elem_of_map_to_list.
  - destruct (od_get name (generate_lockfile self)) as [v|] eqn:G; [|done].
    apply od_get_elem_of in G. rewrite (generate_lockfile_perm self) in G.
    apply elem_of_map_to_list in G. congruence.
Qed.

(** C7 (as the code has it): a lock file generated from [source] and
    restored by a manager that has nothing installed and whose registry
    knows every locked name brings back exactly the installed map of
    [source], and the restored manager generates the same lock file. *)
Theorem lockfile_round_trip (source restorer : PackageManager) :
  _packages restorer = ∅ ->
  (forall name, is_Some (_packages source !! name) ->
                is_Some (_registry restorer !! name)) ->
  let restored := snd (install_from_lockfile restorer (generate_lockfile source)) in
  _packages restored = _packages source
  /\ generate_lockfile restored = generate_lockfile source.
Proof.
  intros Hempty Hreg restored.
  assert (_packages restored = _packages source) as Heq.
  { apply map_eq. intros name.
    subst restored. simpl.
    rewrite restore_lookup by apply generate_lockfile_NoDup.
    rewrite generate_lockfile_get, Hempty, lookup_empty.
    destruct (_packages source !! name) as [v|] eqn:E; [|done].
    rewrite bool_decide_true; [done|]. apply Hreg. by rewrite E. }
  split; [done|]. unfold generate_lockfile. by rewrite Heq.
Qed.

End Lockfile.

Section LockfileExamples.

Import Stage4 Examples.

Lemma install_from_lockfile_witness :
  fst (install_from_lockfile requests [("requests", "2.27.0"); ("ghost", "0.1")]) = true
  /\ _registry (snd (install_from_lockfile requests
                       [("requests", "2.27.0"); ("ghost", "0.1")])) = _registry requests
  /\ forall name,
       _packages (snd (install_from_lockfile requests
                         [("requests", "2.27.0"); ("ghost", "0.1")])) !! name =
         match od_get name [("requests", "2.27.0"); ("ghost", "0.1")] with
         | Some version =>
             if bool_decide (is_Some (_registry requests !! name)) then Some version
             else _packages requests !! name
         | None => _packages requests !! name
         end.
Proof.
  refine (install_from_lockfile_skips_unregistered requests
            [("requests", "2.27.0"); ("ghost", "0.1")] _).
  apply (bool_decide_unpack _). vm_compute. exact I.
Defined.

Lemma lockfile_round_trip_witness :
  let restored :=
    snd (install_from_lockfile requests (generate_lockfile requests_installed)) in
  _packages restored = _packages requests_installed
  /\ generate_lockfile restored = generate_lockfile requests_installed.
Proof.
  refine (lockfile_round_trip requests_installed requests _ _).
  - vm_compute; reflexivity.
  - assert (dom (_packages requests_installed) ⊆ dom (_registry requests)) as Hsub.
    { apply (bool_decide_unpack _). vm_compute. exact I. }
    intros name H%elem_of_dom. apply elem_of_dom. exact (Hsub name H).
Defined.

(** C7, the claim as stated fails: the lock file of a manager that has
    [ghost] installed, restored by a manager whose registry does not know
    [ghost], loses the entry. *)
Lemma lockfile_restore_drops_unregistered :
  _packages ghost_installed !! "ghost" = Some "1.0.0"
  /\ generate_lockfile ghost_installed = [("ghost", "1.0.0")]
  /\ install_from_lockfile new (generate_lockfile ghost_installed) = (true, new)
  /\ _packages new !! "ghost" = None.
Proof. repeat split; vm_compute; reflexivity. Qed.

End LockfileExamples.

(** ** The uninstall guard (stage 2) *)

Section Uninstall.

Import Stage2.

Lemma find_first {A : Type} (f : A -> bool) (l : list A) (x : A) :
  find f l = Some x ->
  exists before after,
    l = before ++ x :: after /\ Forall (fun y => f y = false) before /\ f x = true.
Proof.
  induction l as [|y l IH]; simpl; [done|].
  destruct (f y) eqn:E.
  - intros [= ->]. exists [], l. by split_and!.
  - intros (before & after & -> & Hb & Hx)%IH.
    exists (y :: before), after. split_and!; [done | by constructor | done].
Qed.

Lemma find_none_filter {A : Type} (f : A -> bool) (l : list A) :
  find f l = None -> filter (fun y => f y = true) l = [].
Proof.
  induction l as [|y l IH]; simpl; [done|].
  destruct (f y) eqn:E; [done|]. intros H.
  rewrite filter_cons_False by (by rewrite E). by apply IH.
Qed.

Lemma get_dependents_elem (self : PackageManager) (name pkg : string) :
  pkg ∈ get_dependents self name <->
  pkg ∈ od_keys (_packages self) /\ depends_on self name pkg = true.
Proof.
  unfold get_dependents. rewrite sorted_total_perm. by rewrite list_elem_of_filter, (comm and).
Qed.

(** C8 (as the code has it): when [p] has installed dependents, [uninstall(p)]
    fails and leaves the manager unchanged. If [p] is installed, the error
    message names one dependent: the first package, in the order of
    installation, that depends on [p]. If [p] is not installed, the
    message is ["Package not installed"]. *)
Theorem uninstall_with_dependents_fails (self : PackageManager) (p : string) :
  get_dependents self p <> [] ->
  snd (uninstall self p) = self
  /\ ((is_installed self p = false
       /\ fst (uninstall self p) = (false, Some "Package not installed"))
      \/ (is_installed self p = true
          /\ exists pkg before after,
               od_keys (_packages self) = before ++ pkg :: after
               /\ Forall (fun q => depends_on self p q = false) before
               /\ pkg ∈ get_dependents self p
               /\ fst (uninstall self p)
                  = (false, Some ("Cannot uninstall: " +:+ pkg +:+ " depends on " +:+ p)))).
Proof.
  intros Hdep. unfold uninstall, is_installed.
  destruct (od_mem p (_packages self)) eqn:Hmem; simpl; [|split; [done | by left]].
  destruct (find (depends_on self p) (od_keys (_packages self))) as [pkg|] eqn:Hfind.
  - simpl. split; [done|]. right. split; [done|].
    destruct (find_first _ _ _ Hfind) as (before & after & Hkeys & Hbefore & Hpkg).
    exists pkg, before, after. split_and!; [done | done | | done].
    apply get_dependents_elem. split; [|done].
    rewrite Hkeys. set_solver.
  - exfalso. apply Hdep. unfold get_dependents.
    rewrite (find_none_filter _ _ Hfind). done.
Qed.

Lemma uninstall_with_dependents_witness :
  snd (uninstall Examples.two_dependents "base") = Examples.two_dependents
  /\ ((is_installed Examples.two_dependents "base" = false
       /\ fst (uninstall Examples.two_dependents "base")
          = (false, Some "Package not installed"))
      \/ (is_installed Examples.two_dependents "base" = true
          /\ exists pkg before after,
               od_keys (_packages Examples.two_dependents) = before ++ pkg :: after
               /\ Forall (fun q => depends_on Examples.two_dependents "base" q = false) before
               /\ pkg ∈ get_dependents Examples.two_dependents "base"
               /\ fst (uninstall Examples.two_dependents "base")
                  = (false,
                     Some ("Cannot uninstall: " +:+ pkg +:+ " depends on " +:+ "base")))).
Proof.
  refine (uninstall_with_dependents_fails Examples.two_dependents "base" _).
  vm_compute. discriminate.
Defined.

(** C8, the claim as stated fails: [pkg1] and [pkg2] both block the removal
    of [base], and the error names [pkg2] only. *)
Lemma uninstall_names_one_dependent :
  get_dependents Examples.two_dependents "base" = ["pkg1"; "pkg2"]
  /\ fst (uninstall Examples.two_dependents "base")
     = (false, Some "Cannot uninstall: pkg2 depends on base").
Proof. split; vm_compute; reflexivity. Qed.

End Uninstall.

(** ** Loops *)

Section Loops.

Context {A S : Type}.

Lemma for_each_invariant (P : S -> Prop) (body : S -> A -> outcome S) (l : list A) :
  (forall s x s', x ∈ l -> P s -> body s x = Return s' -> P s') ->
  forall s s', P s -> for_each body l s = Return s' -> P s'.
Proof.
  induction l as [|x l IH]; intros Hbody s s' Hs; simpl.
  - by intros [= <-].
  - destruct (body s x) as [s1|e] eqn:E; [|done].
    apply IH; [|eapply Hbody; [apply list_elem_of_here | done | done]].
    intros s0 y s0' Hy. apply Hbody. by apply list_elem_of_further.
Qed.

(** A relation between the state before and after that every step keeps,
    is kept by the loop, however it ends. *)
Lemma all_succeed_relation (R : S -> S -> Prop) (step : A -> S -> outcome bool * S)
    (l : list A) :
  (forall s, R s s) ->
  (forall s1 s2 s3, R s1 s2 -> R s2 s3 -> R s1 s3) ->
  (forall x s r s', x ∈ l -> step x s = (r, s') -> R s s') ->
  forall s r s', all_succeed step l s = (r, s') -> R s s'.
Proof.
  intros Hrefl Htrans. induction l as [|x l IH]; intros Hstep s r s'; simpl.
  - by intros [= _ <-].
  - destruct (step x s) as [r1 s1] eqn:E.
    assert (R s s1) as H1 by (eapply Hstep; [apply list_elem_of_here | done]).
    assert (forall s0 r0 s0', all_succeed step l s0 = (r0, s0') -> R s0 s0') as IH'.
    { apply IH. intros y s0 r0 s0' Hy. apply Hstep. by apply list_elem_of_further. }
    destruct r1 as [[|]|e].
    + intros H. eapply Htrans; [exact H1 | by eapply IH'].
    + by intros [= _ <-].
    + by intros [= _ <-].
Qed.

(** A result other than [True] is the result of one of the steps. *)
Lemma all_succeed_result (step : A -> S -> outcome bool * S) (l : list A)
    (s : S) (r : outcome bool) (s' : S) :
  all_succeed step l s = (r, s') ->
  r = Return true \/ exists x s0, x ∈ l /\ step x s0 = (r, s').
Proof.
  revert s. induction l as [|x l IH]; intros s; simpl.
  - intros [= <- _]. by left.
  - destruct (step x s) as [r1 s1] eqn:E. destruct r1 as [[|]|e].
    + intros [?|(y & s0 & Hy & Hs)]%IH; [by left|].
      right. exists y, s0. split; [by apply list_elem_of_further | done].
    + intros [= <- <-]. right. exists x, s. split; [apply list_elem_of_here | done].
    + intros [= <- <-]. right. exists x, s. split; [apply list_elem_of_here | done].
Qed.

End Loops.

(** ** Constraint collection (stage 4) *)

Section Collection.

Import Stage4.

Lemma already_required_false (existing : list (string * string)) (c : string) :
  already_required existing (Some c) = false <-> c ∉ map snd existing.
Proof.
  unfold already_required. induction existing as [|[r c'] l IH]; simpl.
  - split; [intros _; apply not_elem_of_nil | done].
  - rewrite orb_false_iff, IH, not_elem_of_cons, bool_decide_eq_false.
    split; intros [H1 H2]; (split; [|done]); congruence.
Qed.

Lemma already_required_None (existing : list (string * string)) :
  already_required existing None = false.
Proof. unfold already_required. by induction existing as [|[r c'] l IH]. Qed.

Lemma well_formed_empty : well_formed [].
Proof. split; [constructor | done]. Qed.

Lemma well_formed_declare (requirements : requirement_set) (name : string) :
  well_formed requirements ->
  well_formed (if od_mem name requirements then requirements
               else od_set name [] requirements).
Proof.
  intros [Hk Hr]. destruct (od_mem name requirements); [done|].
  split; [by apply od_set_NoDup|].
  intros k rows. destruct (decide (name = k)) as [->|Hne].
  - rewrite od_get_set_eq. intros [= <-]. constructor.
  - rewrite od_get_set_ne by done. apply Hr.
Qed.

Lemma declare_get (requirements : requirement_set) (name : string) :
  default [] (od_get name (if od_mem name requirements then requirements
                           else od_set name [] requirements))
  = default [] (od_get name requirements).
Proof.
  unfold od_mem. destruct (od_get name requirements) eqn:E; [by rewrite E|].
  by rewrite od_get_set_eq.
Qed.

Lemma well_formed_append (requirements : requirement_set)
    (name requirer c : string) :
  well_formed requirements ->
  c ∉ map snd (default [] (od_get name requirements)) ->
  well_formed (od_set name (default [] (od_get name requirements) ++ [(requirer, c)])
                 requirements).
Proof.
  intros [Hk Hr] Hc. split; [by apply od_set_NoDup|].
  intros k rows. destruct (decide (name = k)) as [->|Hne].
  - rewrite od_get_set_eq. intros [= <-]. rewrite map_app. simpl.
    apply NoDup_app. split_and!.
    + destruct (od_get k requirements) as [rows|] eqn:E; [by eapply Hr | constructor].
    + intros x Hx ->%list_elem_of_singleton. by apply Hc.
    + apply NoDup_singleton.
  - rewrite od_get_set_ne by done. apply Hr.
Qed.

(** Collection keeps the requirement set well formed: a row is only
    appended behind the test that its constraint text is new for the
    package. *)
Lemma collect_well_formed (registry : gmap string package_entry) (depth : nat) :
  forall name constraint requirements requirer requirements',
    well_formed requirements ->
    already_required (default [] (od_get name requirements)) constraint = false ->
    _collect_requirements depth registry name constraint requirements requirer
      = Return requirements' ->
    well_formed requirements'.
Proof.
  induction depth as [|depth IH]; intros name constraint reqs requirer reqs' Hwf Hnew;
    simpl; [done|].
  set (reqs1 := if od_mem name reqs then reqs else od_set name [] reqs).
  assert (well_formed reqs1) as Hwf1 by (by apply well_formed_declare).
  assert (default [] (od_get name reqs1) = default [] (od_get name reqs)) as Hget
    by apply declare_get.
  set (reqs2 := match constraint with
                | Some c => if truthy constraint
                            then od_set name (default [] (od_get name reqs1) ++ [(requirer, c)]) reqs1
                            else reqs1
                | None => reqs1
                end).
  assert (well_formed reqs2) as Hwf2.
  { subst reqs2. destruct constraint as [c|]; [|done].
    destruct (truthy (Some c)); [|done].
    apply well_formed_append; [done|]. rewrite Hget. by apply already_required_false. }
  clearbody reqs2. clear Hwf1 Hget reqs1 Hwf Hnew.
  destruct (registry !! name) as [entry|]; [|by intros [= <-]].
  destruct (_find_version registry name constraint) as [[version|]|e]; simpl;
    [|by intros [= <-]|done].
  apply for_each_invariant; [|done].
  intros s [dep_name dep_constraint] s' _ Hs.
  destruct (already_required (default [] (od_get dep_name s)) dep_constraint) eqn:E.
  - by intros [= <-].
  - by apply IH.
Qed.

End Collection.

(** ** Version selection (stage 4) *)

Section Selection.

Import Stage4.

Lemma all_match_true (version : string) (constraints : list string) :
  all_match version constraints = Return true <->
  Forall (fun c => _matches_constraint version c = Return true) constraints.
Proof.
  induction constraints as [|c cs IH]; simpl; [by split; [constructor|]|].
  rewrite Forall_cons. destruct (_matches_constraint version c) as [[|]|e]; simpl.
  - rewrite IH. tauto.
  - split; [done | by intros [? _]].
  - split; [done | by intros [? _]].
Qed.

Lemma all_match_false (version : string) (constraints : list string) :
  all_match version constraints = Return false ->
  Exists (fun c => _matches_constraint version c = Return false) constraints.
Proof.
  induction constraints as [|c cs IH]; simpl; [done|].
  destruct (_matches_constraint version c) as [[|]|e] eqn:E; simpl; [|by left|done].
  intros H. right. by apply IH.
Qed.

Lemma satisfies_all_match (version : string) (rows : list (string * string)) :
  satisfies_all version rows <-> all_match version (map snd rows) = Return true.
Proof. unfold satisfies_all. by rewrite all_match_true, Forall_map. Qed.

(** The candidate found is the first one that matches every constraint. *)
Lemma first_compatible_Some (candidates constraints : list string) (version : string) :
  first_compatible candidates constraints = Return (Some version) ->
  exists newer older,
    candidates = newer ++ version :: older
    /\ all_match version constraints = Return true
    /\ Forall (fun w => all_match w constraints = Return false) newer.
Proof.
  induction candidates as [|w ws IH]; simpl; [done|].
  destruct (all_match w constraints) as [[|]|e] eqn:E; simpl; [| |done].
  - intros [= <-]. exists [], ws. by split_and!.
  - intros (newer & older & -> & Hv & Hn)%IH.
    exists (w :: newer), older. split_and!; [done | done | by constructor].
Qed.

Lemma first_compatible_None (candidates constraints : list string) :
  first_compatible candidates constraints = Return None ->
  Forall (fun w => all_match w constraints = Return false) candidates.
Proof.
  induction candidates as [|w ws IH]; simpl; [by constructor|].
  destruct (all_match w constraints) as [[|]|e] eqn:E; simpl; [done| |done].
  intros H. constructor; [done | by apply IH].
Qed.

Lemma select_version_unfold (registry : gmap string package_entry)
    (conflicts : list Conflict) (resolved : gmap string string)
    (item : string * list (string * string)) :
  select_version registry (conflicts, resolved) item =
    match compatible_version registry item with
    | Return None => Return (conflicts ++ [conflict_of item], resolved)
    | Return (Some version) => Return (conflicts, <[fst item := version]> resolved)
    | Raise e => Raise e
    end.
Proof.
  destruct item as [pkg rows]. unfold select_version, compatible_version. simpl.
  destruct (registry !! pkg) as [entry|]; [|done].
  by destruct (first_compatible _ _) as [[v|]|e].
Qed.

(** The selection loop: the conflicts are the unsatisfiable items, in the
    order of [requirements]; every other item gets its compatible version. *)
Lemma select_loop (registry : gmap string package_entry)
    (requirements : list (string * list (string * string))) :
  forall conflicts resolved conflicts' resolved',
    for_each (select_version registry) requirements (conflicts, resolved)
      = Return (conflicts', resolved') ->
    conflicts' = conflicts ++ map conflict_of
                   (filter (fun item => unsatisfiable registry item = true) requirements)
    /\ Forall (fun item => exists sel, compatible_version registry item = Return sel)
              requirements
    /\ (forall name, name ∉ od_keys requirements -> resolved' !! name = resolved !! name)
    /\ (NoDup (od_keys requirements) ->
        forall name rows, od_get name requirements = Some rows ->
          match compatible_version registry (name, rows) with
          | Return (Some version) => resolved' !! name = Some version
          | _ => resolved' !! name = resolved !! name
          end).
Proof.
  induction requirements as [|[pkg rows] l IH]; intros cs rs cs' rs'; cbn [for_each].
  - intros [= <- <-]. by rewrite app_nil_r.
  - rewrite select_version_unfold.
    destruct (compatible_version registry (pkg, rows)) as [[v|]|e] eqn:E; [| |done].
    + intros (-> & Hret & Hout & Hin)%IH.
      rewrite filter_cons_False by (unfold unsatisfiable; by rewrite E).
      simpl in Hout, Hin. split_and!; [done | constructor; eauto | |].
      * intros name [Hne Hl]%not_elem_of_cons. rewrite Hout by done.
        by rewrite lookup_insert_ne.
      * intros [Hk Hnd]%NoDup_cons name rows'. simpl.
        destruct (String.eqb_spec name pkg) as [->|Hne].
        -- intros [= <-]. rewrite E. rewrite Hout by done. apply lookup_insert_eq.
        -- intros Hget. specialize (Hin Hnd name rows' Hget).
           by rewrite lookup_insert_ne in Hin.
    + intros (-> & Hret & Hout & Hin)%IH.
      rewrite filter_cons_True by (unfold unsatisfiable; by rewrite E).
      simpl. rewrite <- app_assoc. split_and!; [done | constructor; eauto | |].
      * intros name [Hne Hl]%not_elem_of_cons. by apply Hout.
      * intros [Hk Hnd]%NoDup_cons name rows'.
        destruct (String.eqb_spec name pkg) as [->|Hne].
        -- intros [= <-]. rewrite E. by apply Hout.
        -- intros Hget. by apply Hin.
Qed.

End Selection.

(** ** Ordered installation (stage 4) *)

Section OrderedInstallation.

Import Stage4.

Context (registry : gmap string package_entry) (resolved : gmap string string).

Lemma add_all_app (a b : list (string * string)) (m : gmap string string) :
  add_all (a ++ b) m = add_all b (add_all a m).
Proof. unfold add_all. by rewrite fold_left_app. Qed.

Lemma add_all_lookup (added : list (string * string)) (m : gmap string string)
    (name version : string) :
  add_all added m !! name = Some version ->
  m !! name = Some version \/ (name, version) ∈ added.
Proof.
  revert m. induction added as [|[n v] l IH]; intros m; simpl; [by left|].
  intros [H|H]%IH.
  - destruct (decide (n = name)) as [->|Hne].
    + rewrite lookup_insert_eq in H. injection H as ->. right. apply list_elem_of_here.
    + rewrite lookup_insert_ne in H by done. by left.
  - right. by apply list_elem_of_further.
Qed.

Lemma add_all_keeps (added : list (string * string)) (m : gmap string string)
    (name : string) :
  is_Some (m !! name) -> is_Some (add_all added m !! name).
Proof.
  revert m. induction added as [|[n v] l IH]; intros m; simpl; [done|].
  intros H. apply IH. destruct (decide (n = name)) as [->|Hne].
  - by rewrite lookup_insert_eq.
  - by rewrite lookup_insert_ne.
Qed.

Lemma installs_refl (st : progress) : installs registry resolved st st.
Proof. exists []. simpl. by rewrite app_nil_r. Qed.

Lemma installs_trans (st1 st2 st3 : progress) :
  installs registry resolved st1 st2 -> installs registry resolved st2 st3 ->
  installs registry resolved st1 st3.
Proof.
  intros (a & Hi1 & Hp1 & Hf1 & Hv1) (b & Hi2 & Hp2 & Hf2 & Hv2).
  exists (a ++ b). split_and!.
  - by rewrite Hi2, Hi1, map_app, app_assoc.
  - by rewrite Hp2, Hp1, add_all_app.
  - by apply Forall_app.
  - set_solver.
Qed.

Lemma install_ordered_installs (depth : nat) :
  forall name st result st',
    _install_ordered depth registry resolved name st = (result, st') ->
    installs registry resolved st st'.
Proof.
  induction depth as [|depth IH]; intros name st result st'; simpl.
  { intros [= _ <-]. apply installs_refl. }
  case_bool_decide; [intros [= _ <-]; apply installs_refl|].
  case_bool_decide; [intros [= _ <-]; apply installs_refl|].
  destruct (registry !! name) as [entry|] eqn:Hreg; [|intros [= _ <-]; apply installs_refl].
  set (st1 := {| pkgs := pkgs st; installed := installed st;
                 visiting := {[name]} ∪ visiting st |}).
  assert (installs registry resolved st st1) as H1.
  { exists []. simpl. rewrite app_nil_r. split_and!; [done | done | constructor | set_solver]. }
  destruct (resolved !! name) as [version|] eqn:Hres; [|by intros [= _ <-]].
  destruct (all_succeed _ _ st1) as [r st2] eqn:Hloop.
  assert (installs registry resolved st1 st2) as H2.
  { revert Hloop. apply all_succeed_relation;
      [apply installs_refl | apply installs_trans |].
    intros dep s r0 s' _. apply IH. }
  destruct r as [[|]|e]; intros [= _ <-];
    [|by eapply installs_trans|by eapply installs_trans].
  eapply installs_trans; [exact H1|]. eapply installs_trans; [exact H2|].
  exists [(name, version)]. simpl. split_and!; [done | done | | done].
  constructor; [|constructor]. simpl. split; [done | by rewrite Hreg].
Qed.

(** Ordered installation compares nothing: all it can raise is
    [RecursionError]. *)
Lemma install_ordered_raises (depth : nat) :
  forall name st e st',
    _install_ordered depth registry resolved name st = (Raise e, st') ->
    e = RecursionError.
Proof.
  induction depth as [|depth IH]; intros name st e st'; simpl.
  { by intros [= <- _]. }
  case_bool_decide; [done|]. case_bool_decide; [done|].
  destruct (registry !! name) as [entry|]; [|done].
  destruct (resolved !! name) as [version|]; [|done].
  destruct (all_succeed _ _ _) as [r st2] eqn:Hloop.
  destruct r as [[|]|e']; [done | done |]. intros [= -> ->].
  apply all_succeed_result in Hloop as [?|(dep & s0 & _ & Hstep)]; [done|].
  by eapply IH.
Qed.

(** After a successful run the package is installed, unless the run met it
    on the way down. *)
Lemma install_ordered_success (depth : nat) (name : string) (st st' : progress) :
  _install_ordered depth registry resolved name st = (Return true, st') ->
  is_Some (pkgs st' !! name) \/ name ∈ visiting st.
Proof.
  destruct depth as [|depth]; simpl; [done|].
  case_bool_decide as Hin; [intros [= <-]; by left|].
  case_bool_decide; [by right|].
  destruct (registry !! name) as [entry|]; [|done].
  destruct (resolved !! name) as [version|]; [|done].
  destruct (all_succeed _ _ _) as [r st2]. destruct r as [[|]|e]; [|done|done].
  intros [= <-]. left. simpl. by rewrite lookup_insert_eq.
Qed.

End OrderedInstallation.

(** ** [install] (stage 4) *)

Section Install.

Import Stage4.

(** Every call of [install] ends in one of the five ways of [install_run]. *)
Lemma install_runs (depth : nat) (self : PackageManager) (name : string)
    (constraint : option string) (resolve_conflicts : bool) :
  install_run depth self name constraint
    (install depth self name constraint resolve_conflicts).
Proof.
  unfold install.
  destruct (_registry self !! name) as [entry|] eqn:Hreg; [|by constructor].
  assert (is_Some (_registry self !! name)) as Hsome by (by rewrite Hreg).
  destruct (_collect_requirements _ _ _ _ _ _) as [requirements|e] eqn:Hcollect;
    [|by constructor].
  destruct (select_versions _ _) as [[conflicts resolved]|e] eqn:Hselect;
    [|by econstructor].
  destruct conflicts as [|conflict conflicts].
  - destruct (_install_ordered _ _ _ _ _) as [result st] eqn:Hrun.
    pose proof (run_installs depth self name constraint requirements resolved
                  result st Hsome Hcollect Hselect Hrun) as Hfinal.
    by destruct result.
  - assert (forall b : bool, (if b then (Return (false, [], conflict :: conflicts), self)
                              else (Return (false, [], conflict :: conflicts), self))
                             = (Return (false, @nil string, conflict :: conflicts), self))
      as -> by (by intros []).
    by eapply run_conflicts.
Qed.

End Install.

(** ** The conflict list *)

Section Conflicts.

Import Stage4.

Lemma collected_well_formed (depth : nat) (registry : gmap string package_entry)
    (name : string) (constraint : option string) (requirements : requirement_set) :
  _collect_requirements depth registry name constraint [] "root" = Return requirements ->
  well_formed requirements.
Proof.
  apply collect_well_formed; [apply well_formed_empty|].
  destruct constraint; [by apply already_required_false, not_elem_of_nil|].
  apply already_required_None.
Qed.

(** C2 (as the code has it): the conflict list that [install] returns has
    one entry for every package of the collected requirement set that is
    unregistered or has no version matching all its constraints, in the
    order the packages were first met, none left out after the first; an
    entry carries all the rows collected for its package. Collection
    records a constraint text once per package, whoever asks for it again:
    no package has two rows with the same constraint text. *)
Theorem conflicts_list_every_unsatisfiable_package
    (depth : nat) (self : PackageManager) (name : string) (constraint : option string)
    (resolve_conflicts ok : bool) (inst : list string) (conflicts : list Conflict)
    (self' : PackageManager) :
  is_Some (_registry self !! name) ->
  install depth self name constraint resolve_conflicts
    = (Return (ok, inst, conflicts), self') ->
  exists requirements : list (string * list (string * string)),
    _collect_requirements depth (_registry self) name constraint [] "root"
      = Return requirements
    /\ conflicts = map conflict_of
                     (filter (fun item => unsatisfiable (_registry self) item = true)
                             requirements)
    /\ NoDup (od_keys requirements)
    /\ forall pkg rows, od_get pkg requirements = Some rows -> NoDup (map snd rows).
Proof.
  intros Hsome Hinstall.
  pose proof (install_runs depth self name constraint resolve_conflicts) as Hrun.
  rewrite Hinstall in Hrun.
  inversion Hrun as [Hnone| | |reqs cs rs _ Hcollect Hselect _
                     |reqs rs result st _ Hcollect Hselect Hordered Hresult]; subst.
  - rewrite Hnone in Hsome. by destruct Hsome.
  - exists reqs. apply select_loop in Hselect as (-> & _).
    destruct (collected_well_formed _ _ _ _ _ Hcollect). by split_and!.
  - exists reqs. apply select_loop in Hselect as (Hcs & _).
    destruct (collected_well_formed _ _ _ _ _ Hcollect).
    destruct result as [success|e]; [|done]. injection Hresult as <- <- <-.
    by split_and!.
Qed.

Lemma conflicts_list_witness :
  exists requirements : list (string * list (string * string)),
    _collect_requirements 10 (_registry Examples.same_text_twice) "app" None [] "root"
      = Return requirements
    /\ [{| package := "base"; required_by := [("pkg1", ">=2.0.0")] |}]
       = map conflict_of
           (filter (fun item => unsatisfiable (_registry Examples.same_text_twice) item = true)
                   requirements)
    /\ NoDup (od_keys requirements)
    /\ forall pkg rows, od_get pkg requirements = Some rows -> NoDup (map snd rows).
Proof.
  refine (conflicts_list_every_unsatisfiable_package 10 Examples.same_text_twice "app" None
            true false [] _ Examples.same_text_twice _ _).
  - apply (bool_decide_unpack _). vm_compute. exact I.
  - vm_compute. reflexivity.
Defined.

(** C2, the claim as stated fails: [pkg1] and [pkg2] both require
    [base >= 2.0.0]; the conflict reported for [base] has the row of [pkg1]
    and no row for [pkg2]. *)
Lemma same_text_from_second_requirer_is_dropped :
  (dependencies <$> _registry Examples.same_text_twice !! "pkg2")
    = Some {[ "1.0.0" := [("base", Some ">=2.0.0")] ]}
  /\ fst (install 10 Examples.same_text_twice "app" None true)
     = Return (false, [], [{| package := "base";
                              required_by := [("pkg1", ">=2.0.0")] |}]).
Proof. split; vm_compute; reflexivity. Qed.

End Conflicts.

(** ** Failure and the installed set *)

Section Atomicity.

Import Stage4.

(** X29: failures that [install] finds before the ordered installation: a call
    that fails because the root is unknown or because selection found a
    conflict returns no installed entry, and a call that raises anything
    but [RecursionError] raised it before installing; in all these cases
    the manager is exactly as it was. Whatever a call returns, the entries
    of its installed list are what it added to the installed set. *)
Theorem failure_before_installation_changes_nothing
    (depth : nat) (self : PackageManager) (name : string) (constraint : option string)
    (resolve_conflicts : bool) (out : outcome install_result) (self' : PackageManager) :
  install depth self name constraint resolve_conflicts = (out, self') ->
  (forall ok inst conflicts,
      out = Return (ok, inst, conflicts) ->
      _registry self !! name = None \/ conflicts <> [] ->
      ok = false /\ inst = [] /\ self' = self)
  /\ (forall e, out = Raise e -> e <> RecursionError -> self' = self)
  /\ (forall ok inst conflicts,
        out = Return (ok, inst, conflicts) ->
        exists added,
          inst = map entry_text added
          /\ _packages self' = add_all added (_packages self)).
Proof.
  intros Hinstall.
  pose proof (install_runs depth self name constraint resolve_conflicts) as Hrun.
  rewrite Hinstall in Hrun.
  inversion Hrun as [Hnone| | |reqs cs rs Hsome Hcollect Hselect Hcs
                     |reqs rs result st Hsome Hcollect Hselect Hordered Hresult]; subst.
  - split_and!; [by intros ? ? ? [= <- <- <-] | done |].
    intros ? ? ? [= <- <- <-]. by exists [].
  - split_and!; done.
  - split_and!; done.
  - split_and!; [by intros ? ? ? [= <- <- <-] | done |].
    intros ? ? ? [= <- <- <-]. by exists [].
  - split_and!.
    + intros ok inst conflicts Hout [Hnone|Hcs].
      * rewrite Hnone in Hsome. by destruct Hsome.
      * destruct result; [|done]. by injection Hout as <- <- <-.
    + intros e Hout Hne. destruct result as [success|e']; [done|].
      injection Hout as ->. by apply install_ordered_raises in Hordered.
    + intros ok inst conflicts Hout. destruct result as [success|e]; [|done].
      injection Hout as <- <- <-.
      apply install_ordered_installs in Hordered as (added & Hi & Hp & _).
      exists added. by split.
Qed.

Lemma failure_before_installation_witness :
  let run := install 10 Examples.same_text_twice "app" None true in
  (forall ok inst conflicts,
      fst run = Return (ok, inst, conflicts) ->
      _registry Examples.same_text_twice !! "app" = None \/ conflicts <> [] ->
      ok = false /\ inst = [] /\ snd run = Examples.same_text_twice)
  /\ (forall e, fst run = Raise e -> e <> RecursionError ->
                snd run = Examples.same_text_twice)
  /\ (forall ok inst conflicts,
        fst run = Return (ok, inst, conflicts) ->
        exists added,
          inst = map entry_text added
          /\ _packages (snd run) = add_all added (_packages Examples.same_text_twice)).
Proof.
  intros run.
  refine (failure_before_installation_changes_nothing 10 Examples.same_text_twice "app"
            None true (fst run) (snd run) _).
  vm_compute. reflexivity.
Defined.

(** C3, the code breaks the claim: [app] needs [lib] with the empty text
    as constraint. [if constraint:] records no row for it and
    [_find_version], which tests [is None], finds no version for it, so
    the dependencies of [lib] are not walked and the unregistered [extra]
    escapes the conflict check. [install("app")] then fails while
    installing [lib], after [good] has been installed: [good] is in the
    list the call returns and stays installed. *)
Lemma failed_install_keeps_installed_packages :
  _packages Examples.unwalked_dependency !! "good" = None
  /\ fst (install 10 Examples.unwalked_dependency "app" None true)
     = Return (false, ["good==1.0.0"], [])
  /\ _packages (snd (install 10 Examples.unwalked_dependency "app" None true)) !! "good"
     = Some "1.0.0".
Proof. repeat split; vm_compute; reflexivity. Qed.

(** With [None], [>=1.0.0] or [1.0.0] in the place of the empty text the
    same call walks [lib], reports the conflict on [extra] and installs
    nothing. *)
Lemma other_constraints_report_the_conflict :
  Examples.walked_dependency (Some "") = Examples.unwalked_dependency
  /\ Forall (fun constraint =>
               install 10 (Examples.walked_dependency constraint) "app" None true
               = (Return (false, [], [{| package := "extra";
                                         required_by := [("lib", ">=1.0.0")] |}]),
                  Examples.walked_dependency constraint))
            [None; Some ">=1.0.0"; Some "1.0.0"].
Proof. split; [reflexivity|]. repeat constructor; vm_compute; reflexivity. Qed.

End Atomicity.

(** ** Repeated calls *)

Section RepeatedCalls.

Import Stage4.

(** C9 (as the code has it): the manager keeps [_packages] and
    [_resolved_versions] between calls. Collection and selection read the
    registry only, so two calls with the same arguments on managers with
    the same registry return the same conflict list, and the same whole
    result when the root is unknown or a conflict is found. The installed
    list depends on what is installed already: repeating a successful call
    returns [(True, [], [])] and changes nothing. *)
Theorem install_depends_on_installed_packages
    (depth : nat) (self other : PackageManager) (name : string)
    (constraint : option string) (resolve_conflicts : bool) :
  _registry self = _registry other ->
  (forall r1 s1 r2 s2,
      install depth self name constraint resolve_conflicts = (Return r1, s1) ->
      install depth other name constraint resolve_conflicts = (Return r2, s2) ->
      snd r1 = snd r2
      /\ (snd r1 <> [] \/ _registry self !! name = None -> r1 = r2))
  /\ (forall inst s1,
        install depth self name constraint resolve_conflicts
          = (Return (true, inst, []), s1) ->
        install depth s1 name constraint resolve_conflicts = (Return (true, [], []), s1)).
Proof.
  intros Hreg. split.
  - intros r1 s1 r2 s2 H1 H2.
    pose proof (install_runs depth self name constraint resolve_conflicts) as Hrun1.
    pose proof (install_runs depth other name constraint resolve_conflicts) as Hrun2.
    rewrite H1 in Hrun1. rewrite H2 in Hrun2. clear H1 H2.
    destruct other as [packages2 registry2 resolved2]. simpl in Hreg. subst registry2.
    inversion Hrun1 as [Hnone| | |reqs cs rs Hsome Hcollect Hselect Hcs
                        |reqs rs result st Hsome Hcollect Hselect Hordered Hresult];
      inversion Hrun2 as [Hnone'| | |reqs' cs' rs' Hsome' Hcollect' Hselect' Hcs'
                          |reqs' rs' result' st' Hsome' Hcollect' Hselect' Hordered' Hresult'];
      simpl in *; simplify_eq; try done;
      try match goal with
          | Hn : ?r !! ?n = None, Hs : is_Some (?r !! ?n) |- _ =>
              rewrite Hn in Hs; by destruct Hs
          end;
      repeat match goal with
             | H : match ?r with Return _ => _ | Raise _ => _ end = _ |- _ =>
                 destruct r; simplify_eq
             | Ha : ?x = Return _, Hb : ?x = Return _ |- _ =>
                 rewrite Ha in Hb; simplify_eq
             end; try done.
    simpl. split; [done|]. intros [?|Hnone]; [done|].
    rewrite Hnone in Hsome. by destruct Hsome.
  - intros inst s1 H1.
    pose proof (install_runs depth self name constraint resolve_conflicts) as Hrun1.
    rewrite H1 in Hrun1.
    inversion Hrun1 as [| | |
                        |reqs rs result st Hsome Hcollect Hselect Hordered Hresult];
      subst.
    destruct result as [success|e]; [|done]. injection Hresult as -> <-.
    destruct Hsome as [entry Hentry].
    unfold install. simpl. rewrite Hentry, Hcollect, Hselect.
    destruct depth as [|depth]; [done|].
    apply install_ordered_success in Hordered as [Hin|Hin]; [|set_solver].
    simpl. by rewrite bool_decide_true.
Qed.

Lemma install_depends_on_installed_witness :
  (forall r1 s1 r2 s2,
      install 10 Examples.requests "requests" None true = (Return r1, s1) ->
      install 10 Examples.requests_installed "requests" None true = (Return r2, s2) ->
      snd r1 = snd r2
      /\ (snd r1 <> [] \/ _registry Examples.requests !! "requests" = None -> r1 = r2))
  /\ (forall inst s1,
        install 10 Examples.requests "requests" None true
          = (Return (true, inst, []), s1) ->
        install 10 s1 "requests" None true = (Return (true, [], []), s1)).
Proof.
  refine (install_depends_on_installed_packages 10 Examples.requests
            Examples.requests_installed "requests" None true _).
  vm_compute. reflexivity.
Defined.

(** C9, the claim as stated fails: the same call, made twice on one
    manager against the same registry, returns two different installed
    lists. *)
Lemma repeated_install_returns_another_list :
  fst (install 10 Examples.requests "requests" None true)
    = Return (true, ["urllib3==1.26.0"; "requests==2.28.0"], [])
  /\ _registry (snd (install 10 Examples.requests "requests" None true))
     = _registry Examples.requests
  /\ fst (install 10 (snd (install 10 Examples.requests "requests" None true))
            "requests" None true)
     = Return (true, [], []).
Proof. repeat split; vm_compute; reflexivity. Qed.

End RepeatedCalls.

(** ** The selected versions *)

Section SelectedVersions.

Import Stage4.

Lemma version_le_refl (version : string) : version_le version version.
Proof.
  unfold version_le. rewrite tuple_cmp_refl. simpl. by rewrite Nat.ltb_irrefl.
Qed.

Lemma strongly_sorted_before {A : Type} (R : A -> A -> Prop) (l1 l2 : list A) (x w : A) :
  StronglySorted R (l1 ++ x :: l2) -> w ∈ l1 -> R w x.
Proof.
  induction l1 as [|y l1 IH]; simpl; intros Hs Hw.
  - by apply elem_of_nil in Hw.
  - apply StronglySorted_inv in Hs as [Hs Hy].
    apply elem_of_cons in Hw as [->|Hw]; [|by apply IH].
    rewrite List.Forall_forall in Hy. apply Hy. apply in_or_app. right. by left.
Qed.

(** What [compatible_version] returns is the newest version of the
    package that satisfies all rows. *)
Lemma compatible_version_highest (registry : gmap string package_entry)
    (pkg : string) (rows : list (string * string)) (version : string) :
  registry_ascending registry ->
  compatible_version registry (pkg, rows) = Return (Some version) ->
  exists entry,
    registry !! pkg = Some entry
    /\ version ∈ versions entry
    /\ satisfies_all version rows
    /\ forall w, w ∈ versions entry -> satisfies_all w rows -> version_le w version.
Proof.
  intros Hasc. unfold compatible_version. simpl.
  destruct (registry !! pkg) as [entry|] eqn:Hreg; [|done].
  intros (newer & older & Hrev & Hv & Hnewer)%first_compatible_Some.
  assert (versions entry = rev older ++ version :: rev newer) as Hvs.
  { rewrite <- (rev_involutive (versions entry)), Hrev, rev_app_distr. simpl.
    by rewrite <- app_assoc. }
  exists entry. split_and!; [done | rewrite Hvs; set_solver | by apply satisfies_all_match |].
  intros w Hw Hsat. rewrite Hvs in Hw.
  apply elem_of_app in Hw as [Hw|Hw].
  - specialize (Hasc pkg entry Hreg). rewrite Hvs in Hasc.
    by eapply strongly_sorted_before.
  - apply elem_of_cons in Hw as [->|Hw]; [apply version_le_refl|].
    exfalso. rewrite list_elem_of_In, <- in_rev, <- list_elem_of_In in Hw.
    rewrite List.Forall_forall in Hnewer.
    apply list_elem_of_In, Hnewer in Hw. apply satisfies_all_match in Hsat. congruence.
Qed.

End SelectedVersions.

(** ** One step of the recursive functions *)

Section Unfolding.

Import Stage4.

Lemma collect_unfold (registry : gmap string package_entry) (depth : nat)
    (name : string) (constraint : option string) (requirements : requirement_set)
    (requirer : string) :
  _collect_requirements (S depth) registry name constraint requirements requirer =
    let requirements :=
      if od_mem name requirements then requirements else od_set name [] requirements in
    let requirements :=
      match constraint with
      | Some c =>
          if truthy constraint
          then od_set name (default [] (od_get name requirements) ++ [(requirer, c)])
                      requirements
          else requirements
      | None => requirements
      end in
    match registry !! name with
    | None => Return requirements
    | Some entry =>
        version ← _find_version registry name constraint;
        match version with
        | None => Return requirements
        | Some version =>
            for_each
              (fun requirements (dep : dependency) =>
                 let '(dep_name, dep_constraint) := dep in
                 if already_required (default [] (od_get dep_name requirements))
                      dep_constraint
                 then Return requirements
                 else _collect_requirements depth registry dep_name dep_constraint
                        requirements name)
              (default [] (dependencies entry !! version)) requirements
        end
    end.
Proof. reflexivity. Qed.

Lemma matches_nonempty (version constraint : string) :
  _matches_constraint version constraint = Return true ->
  String.eqb constraint EmptyString = false.
Proof. by destruct constraint. Qed.

Lemma install_ordered_unfold (registry : gmap string package_entry)
    (resolved : gmap string string) (depth : nat)
    (name : string) (st : progress) :
  _install_ordered (S depth) registry resolved name st =
    if bool_decide (is_Some (pkgs st !! name)) then (Return true, st)
    else if bool_decide (name ∈ visiting st) then (Return true, st)
    else
      match registry !! name with
      | None => (Return false, st)
      | Some entry =>
          let st := {| pkgs := pkgs st; installed := installed st;
                       visiting := {[name]} ∪ visiting st |} in
          match resolved !! name with
          | None => (Return false, st)
          | Some version =>
              let deps := default [] (dependencies entry !! version) in
              match all_succeed
                      (fun (dep : dependency) st =>
                         _install_ordered depth registry resolved (fst dep) st)
                      deps st with
              | (Return true, st) =>
                  (Return true,
                   {| pkgs := <[name := version]> (pkgs st);
                      installed := installed st ++ [name +:+ "==" +:+ version];
                      visiting := visiting st |})
              | other => other
              end
          end
      end.
Proof. reflexivity. Qed.

Lemma install_recursive_unfold (registry : gmap string package_entry) (depth : nat)
    (name version : string) (st : progress) :
  Stage3._install_recursive (S depth) registry name version st =
    if bool_decide (is_Some (pkgs st !! name)) then (Return true, st)
    else if bool_decide (name ∈ visiting st) then (Return false, st)
    else
      let st := {| pkgs := pkgs st; installed := installed st;
                   visiting := {[name]} ∪ visiting st |} in
      match registry !! name with
      | None => (Raise KeyError, st)
      | Some entry =>
          let deps := default [] (dependencies entry !! version) in
          match all_succeed
                  (fun (dep : dependency) st =>
                     let '(dep_name, constraint) := dep in
                     match _find_version registry dep_name constraint with
                     | Raise e => (Raise e, st)
                     | Return None => (Return false, st)
                     | Return (Some dep_version) =>
                         Stage3._install_recursive depth registry dep_name dep_version st
                     end)
                  deps st with
          | (Return true, st) =>
              (Return true,
               {| pkgs := <[name := version]> (pkgs st);
                  installed := installed st ++ [name +:+ "==" +:+ version];
                  visiting := visiting st |})
          | other => other
          end
      end.
Proof. reflexivity. Qed.

End Unfolding.

(** ** Dependency cycles *)

Section Cycles.

Import Stage4.

Lemma not_installed (packages : gmap string string) (name : string) :
  packages !! name = None -> bool_decide (is_Some (packages !! name)) = false.
Proof. intros ->. apply bool_decide_eq_false_2. by intros [? ?]. Qed.

Context (registry : gmap string package_entry) (a b va vb ca cb : string)
        (deps_a deps_b : gmap string (list dependency)).
Hypothesis Hab : a <> b.
Hypothesis Ha : registry !! a = Some {| versions := [va]; dependencies := deps_a |}.
Hypothesis Hda : deps_a !! va = Some [(b, Some cb)].
Hypothesis Hb : registry !! b = Some {| versions := [vb]; dependencies := deps_b |}.
Hypothesis Hdb : deps_b !! vb = Some [(a, Some ca)].
Hypothesis Hcb : _matches_constraint vb cb = Return true.
Hypothesis Hca : _matches_constraint va ca = Return true.

Lemma find_a_None : _find_version registry a None = Return (Some va).
Proof. unfold _find_version. by rewrite Ha. Qed.

Lemma find_a : _find_version registry a (Some ca) = Return (Some va).
Proof.
  unfold _find_version, matching_versions. rewrite Ha. simpl. by rewrite Hca.
Qed.

Lemma find_b : _find_version registry b (Some cb) = Return (Some vb).
Proof.
  unfold _find_version, matching_versions. rewrite Hb. simpl. by rewrite Hcb.
Qed.

Lemma cycle_collect (depth : nat) :
  _collect_requirements (3 + depth) registry a None [] "root"
  = Return [(a, [(b, ca)]); (b, [(a, cb)])].
Proof.
  assert (String.eqb a b = false) as Eab by (by apply String.eqb_neq).
  assert (String.eqb b a = false) as Eba by (by apply String.eqb_neq).
  pose proof (matches_nonempty _ _ Hca) as Eca.
  pose proof (matches_nonempty _ _ Hcb) as Ecb.
  change (3 + depth) with (S (S (S depth))).
  repeat progress
    (cbn [od_mem od_get od_set default from_option id for_each already_required existsb mbind
          outcome_bind dependencies versions negb orb app snd fst truthy];
     cbv zeta; unfold od_mem;
     rewrite ?String.eqb_refl, ?Ha, ?Hb, ?Hda, ?Hdb, ?Eab, ?Eba, ?Eca, ?Ecb,
       ?find_a, ?find_b, ?find_a_None, ?collect_unfold,
       ?(bool_decide_eq_true_2 (Some cb = Some cb)),
       ?(bool_decide_eq_true_2 (Some ca = Some ca)) by done).
  reflexivity.
Qed.

Lemma cycle_select :
  select_versions registry [(a, [(b, ca)]); (b, [(a, cb)])]
  = Return ([], <[b := vb]> (<[a := va]> ∅)).
Proof.
  unfold select_versions, select_version.
  repeat progress
    (cbn [for_each mbind outcome_bind versions rev app map snd first_compatible all_match];
     rewrite ?Ha, ?Hb, ?Hca, ?Hcb).
  reflexivity.
Qed.

Lemma cycle_install_ordered (depth : nat) (packages : gmap string string) :
  packages !! a = None -> packages !! b = None ->
  exists seen,
    _install_ordered (3 + depth) registry (<[b := vb]> (<[a := va]> ∅)) a
      {| pkgs := packages; installed := []; visiting := ∅ |}
    = (Return true,
       {| pkgs := <[a := va]> (<[b := vb]> packages);
          installed := [b +:+ "==" +:+ vb; a +:+ "==" +:+ va];
          visiting := seen |}).
Proof.
  intros Hpa Hpb. eexists. change (3 + depth) with (S (S (S depth))).
  rewrite install_ordered_unfold. cbn [pkgs visiting installed].
  rewrite (not_installed packages a) by done.
  rewrite (bool_decide_eq_false_2 (a ∈ (∅ : gset string))) by set_solver.
  rewrite Ha. cbv zeta. rewrite lookup_insert_ne, lookup_insert_eq by done.
  cbn [dependencies]. rewrite Hda. cbn [default from_option id all_succeed fst].
  rewrite install_ordered_unfold. cbn [pkgs visiting installed].
  rewrite (not_installed packages b) by done.
  rewrite (bool_decide_eq_false_2 (b ∈ _)) by set_solver.
  rewrite Hb. cbv zeta. rewrite lookup_insert_eq.
  cbn [dependencies]. rewrite Hdb. cbn [default from_option id all_succeed fst].
  rewrite install_ordered_unfold. cbn [pkgs visiting installed].
  rewrite (not_installed packages a) by done.
  rewrite (bool_decide_eq_true_2 (a ∈ _)) by set_solver.
  cbn [pkgs visiting installed app]. reflexivity.
Qed.

(** Stage 3 on the same registry. *)

Lemma cycle_install_recursive (depth : nat) (packages : gmap string string) :
  packages !! a = None -> packages !! b = None ->
  exists seen,
    Stage3._install_recursive (3 + depth) registry a va
      {| pkgs := packages; installed := []; visiting := ∅ |}
    = (Return false, {| pkgs := packages; installed := []; visiting := seen |}).
Proof.
  intros Hpa Hpb. eexists. change (3 + depth) with (S (S (S depth))).
  rewrite install_recursive_unfold. cbn [pkgs visiting installed].
  rewrite (not_installed packages a) by done.
  rewrite (bool_decide_eq_false_2 (a ∈ (∅ : gset string))) by set_solver.
  cbv zeta. rewrite Ha. cbn [dependencies]. rewrite Hda.
  cbn [default from_option id all_succeed]. rewrite find_b.
  rewrite install_recursive_unfold. cbn [pkgs visiting installed].
  rewrite (not_installed packages b) by done.
  rewrite (bool_decide_eq_false_2 (b ∈ _)) by set_solver.
  cbv zeta. rewrite Hb. cbn [dependencies]. rewrite Hdb.
  cbn [default from_option id all_succeed]. rewrite find_a.
  rewrite install_recursive_unfold. cbn [pkgs visiting installed].
  rewrite (not_installed packages a) by done.
  rewrite (bool_decide_eq_true_2 (a ∈ _)) by set_solver.
  reflexivity.
Qed.

(** Both installers on the two-package cycle. *)
Lemma two_package_cycle
    (depth : nat) (packages previous : gmap string string) (resolve_conflicts : bool) :
  packages !! a = None ->
  packages !! b = None ->
  install (3 + depth)
    {| _packages := packages; _registry := registry; _resolved_versions := previous |}
    a None resolve_conflicts
  = (Return (true, [b +:+ "==" +:+ vb; a +:+ "==" +:+ va], []),
     {| _packages := <[a := va]> (<[b := vb]> packages);
        _registry := registry;
        _resolved_versions := <[b := vb]> (<[a := va]> ∅) |})
  /\ Stage3.install (3 + depth)
       {| Stage3._packages := packages; Stage3._registry := registry |} a None
     = (Return (false, []),
        {| Stage3._packages := packages; Stage3._registry := registry |}).
Proof.
  intros Hpa Hpb. split.
  - unfold install. cbn [_registry _packages].
    rewrite Ha, cycle_collect, cycle_select.
    destruct (cycle_install_ordered depth packages Hpa Hpb) as [seen ->].
    reflexivity.
  - unfold Stage3.install. cbn [Stage3._registry Stage3._packages].
    rewrite Ha, find_a_None.
    destruct (cycle_install_recursive depth packages Hpa Hpb) as [seen ->].
    reflexivity.
Qed.

End Cycles.

Section CycleExamples.

Import Stage4 Examples.

(** C4, the claim as stated fails: on the cycle the stage-3 installer
    returns, but with failure. *)
Lemma stage3_reports_cycle_as_failure :
  fst (Stage3.install 10 cycle3 "a" None) = Return (false, [])
  /\ Stage3._packages (snd (Stage3.install 10 cycle3 "a" None)) = ∅.
Proof. split; vm_compute; reflexivity. Qed.

(** When the dependencies of the cycle carry no constraint, the test that
    skips a recorded constraint never fires: stage-4 collection exhausts
    every recursion budget. *)
Lemma unconstrained_cycle_collect (depth : nat) :
  forall name requirements requirer,
    name = "a" \/ name = "b" ->
    _collect_requirements depth (_registry unconstrained_cycle) name None
      requirements requirer = Raise RecursionError.
Proof.
  induction depth as [|depth IH]; intros name reqs requirer Hname; [done|].
  rewrite collect_unfold. cbv zeta.
  destruct Hname as [-> | ->].
  - change (_registry unconstrained_cycle !! "a")
      with (Some {| versions := ["1.0.0"];
                    dependencies := {[ "1.0.0" := [("b", @None string)] ]} |}).
    change (_find_version (_registry unconstrained_cycle) "a" None)
      with (Return (Some "1.0.0")).
    cbn [mbind outcome_bind dependencies].
    change (default [] (_ !! "1.0.0")) with [("b", @None string)].
    cbn [for_each]. rewrite already_required_None, IH by (by right). done.
  - change (_registry unconstrained_cycle !! "b")
      with (Some {| versions := ["1.0.0"];
                    dependencies := {[ "1.0.0" := [("a", @None string)] ]} |}).
    change (_find_version (_registry unconstrained_cycle) "b" None)
      with (Return (Some "1.0.0")).
    cbn [mbind outcome_bind dependencies].
    change (default [] (_ !! "1.0.0")) with [("a", @None string)].
    cbn [for_each]. rewrite already_required_None, IH by (by left). done.
Qed.

Lemma unconstrained_cycle_exhausts_recursion (depth : nat) :
  install depth unconstrained_cycle "a" None true
  = (Raise RecursionError, unconstrained_cycle).
Proof.
  unfold install.
  change (_registry unconstrained_cycle !! "a")
    with (Some {| versions := ["1.0.0"];
                  dependencies := {[ "1.0.0" := [("b", @None string)] ]} |}).
  by rewrite unconstrained_cycle_collect by (by left).
Qed.

End CycleExamples.

(** ** Sorting versions on registration *)

Section TupleOrder.

Lemma part_eqb_eq (a b : py_part) : part_eqb a b = true <-> a = b.
Proof.
  destruct a, b; simpl; rewrite ?Z.eqb_eq, ?String.eqb_eq; split; congruence.
Qed.

Lemma string_ltb_lt (x y : string) : String.ltb x y = true <-> String_as_OT.lt x y.
Proof.
  rewrite <- String_as_OT.cmp_lt. unfold String.ltb, String_as_OT.cmp.
  by destruct (String.compare x y).
Qed.

Lemma string_ltb_asym (x y : string) : String.ltb x y = true -> String.ltb y x = false.
Proof.
  unfold String.ltb. rewrite (String.compare_antisym y x).
  by destruct (String.compare x y).
Qed.

Lemma string_ltb_trans (x y z : string) :
  String.ltb x y = true -> String.ltb y z = true -> String.ltb x z = true.
Proof. rewrite !string_ltb_lt. apply String_as_OT.lt_trans. Qed.

Lemma part_lt_asym (a b : py_part) :
  part_cmp OLt a b = Return true -> part_cmp OLt b a = Return false.
Proof.
  destruct a as [x|x], b as [y|y]; simpl; try done; intros [= H]; f_equal.
  - lia.
  - by apply string_ltb_asym.
Qed.

(** [a < b] and not [c < b] leave no room for [c < a]. *)
Lemma part_lt_le (a b c : py_part) :
  part_cmp OLt a b = Return true -> part_cmp OLt c b = Return false ->
  part_cmp OLt c a = Return false.
Proof.
  destruct a as [x|x], b as [y|y], c as [z|z]; simpl; try done;
    intros [= H1] [= H2]; f_equal.
  - lia.
  - destruct (String.ltb z x) eqn:E; [|done].
    by rewrite (string_ltb_trans _ _ _ E H1) in H2.
Qed.

Lemma tuple_lt_nil (v : list py_part) : tuple_cmp OLt v [] = Return false.
Proof. by destruct v. Qed.

Lemma tuple_lt_asym (v w : list py_part) :
  tuple_cmp OLt v w = Return true -> tuple_cmp OLt w v = Return false.
Proof.
  revert w. induction v as [|a v IH]; intros [|b w]; simpl; try done.
  destruct (part_eqb a b) eqn:E.
  - apply part_eqb_eq in E as ->. rewrite part_eqb_refl. apply IH.
  - intros H. destruct (part_eqb b a) eqn:E'.
    + apply part_eqb_eq in E' as ->. by rewrite part_eqb_refl in E.
    + by apply part_lt_asym.
Qed.

Lemma tuple_lt_le (u v w : list py_part) :
  tuple_cmp OLt u v = Return true -> tuple_cmp OLt w v = Return false ->
  tuple_cmp OLt w u = Return false.
Proof.
  revert v w. induction u as [|a u IH]; intros v w; [intros _ _; apply tuple_lt_nil|].
  destruct v as [|b v]; [done|]. destruct w as [|c w]; [done|]. simpl.
  destruct (part_eqb a b) eqn:Eab.
  - apply part_eqb_eq in Eab as ->. destruct (part_eqb c b); [apply IH | done].
  - intros Hab. destruct (part_eqb c b) eqn:Ecb.
    + apply part_eqb_eq in Ecb as ->. intros _.
      destruct (part_eqb b a) eqn:Eba; [|by apply part_lt_asym].
      apply part_eqb_eq in Eba as ->. by rewrite part_eqb_refl in Eab.
    + intros Hcb. destruct (part_eqb c a) eqn:Eca; [|by eapply part_lt_le].
      apply part_eqb_eq in Eca as ->. congruence.
Qed.

End TupleOrder.

Section SortedVersions.

Lemma insert_sorted_perm {A K : Type} (lt : K -> K -> outcome bool) (key : A -> K)
    (x : A) (l r : list A) :
  insert_sorted lt key x l = Return r -> r ≡ₚ x :: l.
Proof.
  revert r. induction l as [|y l IH]; intros r; simpl; [by intros [= <-]|].
  destruct (lt (key x) (key y)) as [[|]|e]; simpl; [by intros [= <-]| |done].
  destruct (insert_sorted lt key x l) as [r'|e]; simpl; [|done].
  intros [= <-]. rewrite (IH r') by done. apply Permutation_swap.
Qed.

Lemma insert_version_sorted (x : string) (l r : list string) :
  StronglySorted version_le l ->
  insert_sorted (tuple_cmp OLt) _version_tuple x l = Return r ->
  StronglySorted version_le r.
Proof.
  revert r. induction l as [|y l IH]; intros r Hl; simpl.
  - intros [= <-]. repeat constructor.
  - apply StronglySorted_inv in Hl as [Hl Hy].
    destruct (tuple_cmp OLt (_version_tuple x) (_version_tuple y)) as [[|]|e] eqn:E;
      simpl; [| |done].
    + intros [= <-]. constructor; [by constructor|].
      constructor; [by apply tuple_lt_asym|].
      eapply Forall_impl; [exact Hy|]. intros z Hz. unfold version_le in *.
      by eapply tuple_lt_le.
    + destruct (insert_sorted _ _ x l) as [r'|e] eqn:Hins; simpl; [|done].
      intros [= <-]. constructor; [by apply IH|].
      rewrite (insert_sorted_perm _ _ _ _ _ Hins). by constructor.
Qed.

(** Whenever the sort of [register_package] returns, the list it stores is a
    rearrangement of the published versions in ascending order. *)
Lemma sort_versions_ascending (vs sorted_vs : list string) :
  sort_versions vs = Return sorted_vs ->
  StronglySorted version_le sorted_vs /\ sorted_vs ≡ₚ vs.
Proof.
  unfold sort_versions, sorted.
  enough (forall acc, StronglySorted version_le acc ->
            for_each (fun acc x => insert_sorted (tuple_cmp OLt) _version_tuple x acc)
                     vs acc = Return sorted_vs ->
            StronglySorted version_le sorted_vs /\ sorted_vs ≡ₚ vs ++ acc) as H.
  { intros Hs. destruct (H [] (SSorted_nil _) Hs) as [? Hp]. by rewrite app_nil_r in Hp. }
  induction vs as [|x vs IH]; intros acc Hacc; simpl; [by intros [= <-]|].
  destruct (insert_sorted _ _ x acc) as [acc'|e] eqn:Hins; [|done].
  intros [Hsorted Hperm]%IH; [|by eapply insert_version_sorted].
  split; [done|]. rewrite Hperm, (insert_sorted_perm _ _ _ _ _ Hins).
  by rewrite Permutation_middle.
Qed.

(** Registration keeps every version list of the registry ascending. *)
Lemma register_ascending (registry registry' : gmap string package_entry)
    (name : string) (vs : list string) (deps : option (gmap string (list dependency))) :
  registry_ascending registry ->
  register registry name vs deps = Return registry' ->
  registry_ascending registry'.
Proof.
  intros Hasc. unfold register.
  destruct (sort_versions vs) as [sorted_vs|e] eqn:Hsort; simpl; [|done].
  intros [= <-] pkg entry. destruct (decide (name = pkg)) as [->|Hne].
  - rewrite lookup_insert_eq. intros [= <-]. simpl.
    by apply sort_versions_ascending in Hsort as [? _].
  - rewrite lookup_insert_ne by done. apply Hasc.
Qed.

Lemma empty_registry_ascending : registry_ascending ∅.
Proof. intros name entry. by rewrite lookup_empty. Qed.

End SortedVersions.


(** ** The order of a lock file *)

Section LockfileOrder.

Import Stage4.

Context {A : Type} (ltb : A -> A -> bool).
Hypothesis ltb_asym : forall x y, ltb x y = true -> ltb y x = false.
Hypothesis ltb_le : forall x y z, ltb x y = true -> ltb z y = false -> ltb z x = false.

Lemma insert_total_sorted (x : A) (l : list A) :
  StronglySorted (fun a b => ltb b a = false) l ->
  StronglySorted (fun a b => ltb b a = false) (insert_total ltb x l).
Proof.
  induction l as [|y l IH]; intros Hl; simpl; [repeat constructor|].
  apply StronglySorted_inv in Hl as [Hl Hy]. destruct (ltb x y) eqn:E.
  - constructor; [by constructor|]. constructor; [by apply ltb_asym|].
    eapply Forall_impl; [exact Hy|]. intros z Hz. by eapply ltb_le.
  - constructor; [by apply IH|]. rewrite insert_total_perm. by constructor.
Qed.

Lemma sorted_total_sorted (l : list A) :
  StronglySorted (fun a b => ltb b a = false) (sorted_total ltb l).
Proof.
  unfold sorted_total.
  enough (forall acc, StronglySorted (fun a b => ltb b a = false) acc ->
            StronglySorted (fun a b => ltb b a = false)
              (fold_left (fun acc x => insert_total ltb x acc) l acc)) as H
    by (apply H; constructor).
  induction l as [|x l IH]; intros acc Hacc; simpl; [done|].
  by apply IH, insert_total_sorted.
Qed.

End LockfileOrder.

Section LockfileItems.

Import Stage4.

Lemma string_ltb_total (x y : string) :
  String.ltb x y = false -> String.ltb y x = false -> x = y.
Proof.
  unfold String.ltb. rewrite (String.compare_antisym y x).
  destruct (String.compare x y) eqn:E; simpl; try done.
  intros _ _. by apply String.compare_eq_iff.
Qed.

Lemma item_ltb_asym (x y : string * string) : item_ltb x y = true -> item_ltb y x = false.
Proof.
  unfold item_ltb. destruct (String.eqb_spec (fst x) (fst y)) as [->|Hne].
  - rewrite String.eqb_refl. apply string_ltb_asym.
  - destruct (String.eqb_spec (fst y) (fst x)) as [E|_]; [by rewrite E in Hne|].
    apply string_ltb_asym.
Qed.

Lemma string_ltb_le (x y z : string) :
  String.ltb x y = true -> String.ltb z y = false -> String.ltb z x = false.
Proof.
  intros Hxy Hzy. destruct (String.ltb z x) eqn:E; [|done].
  by rewrite (string_ltb_trans _ _ _ E Hxy) in Hzy.
Qed.

Lemma string_ltb_irrefl (x : string) : String.ltb x x = false.
Proof.
  destruct (String.ltb x x) eqn:E; [|done]. by rewrite (string_ltb_asym _ _ E) in E.
Qed.

Lemma item_ltb_le (x y z : string * string) :
  item_ltb x y = true -> item_ltb z y = false -> item_ltb z x = false.
Proof.
  destruct x as [nx vx], y as [ny vy], z as [nz vz]. unfold item_ltb. simpl.
  destruct (String.eqb_spec nx ny) as [Exy|Nxy];
    destruct (String.eqb_spec nz ny) as [Ezy|Nzy];
    destruct (String.eqb_spec nz nx) as [Ezx|Nzx];
    try congruence; subst; try apply string_ltb_le.
  intros H _. by apply string_ltb_asym.
Qed.

(** A sorted list of items with distinct names is the same whatever order
    the items came in: the lock file does not depend on the order in which
    [_packages] was filled. *)
Lemma lockfile_independent_of_insertion_order (self : PackageManager)
    (items : list (string * string)) :
  items ≡ₚ map_to_list (_packages self) ->
  sorted_total item_ltb items = generate_lockfile self.
Proof.
  intros Hperm. unfold generate_lockfile.
  apply (StronglySorted_unique_strong (fun a b => item_ltb b a = false)).
  - intros [n1 v1] [n2 v2] H1 H2. unfold item_ltb. simpl.
    destruct (String.eqb_spec n2 n1) as [->|Hne].
    + rewrite String.eqb_refl. intros Ha Hb. f_equal. by apply string_ltb_total.
    + destruct (String.eqb_spec n1 n2) as [E|_]; [by rewrite E in Hne|].
      intros Ha Hb. by rewrite (string_ltb_total _ _ Hb Ha) in Hne.
  - apply sorted_total_sorted; [apply item_ltb_asym | apply item_ltb_le].
  - apply sorted_total_sorted; [apply item_ltb_asym | apply item_ltb_le].
  - by rewrite !sorted_total_perm.
Qed.

(** The names of a lock file ascend strictly. *)
Lemma generate_lockfile_ascending (self : PackageManager) :
  StronglySorted (fun a b => String.ltb a b = true) (od_keys (generate_lockfile self)).
Proof.
  pose proof (generate_lockfile_NoDup self) as Hnd.
  pose proof (sorted_total_sorted item_ltb item_ltb_asym item_ltb_le
                (map_to_list (_packages self))) as Hs.
  fold (generate_lockfile self) in Hs. unfold od_keys in *.
  induction Hs as [|[n v] l Hl IH Hall]; simpl in *; [constructor|].
  apply NoDup_cons in Hnd as [Hn Hnd]. constructor; [by apply IH|].
  apply Forall_fmap. apply Forall_forall. intros [n' v'] Hin.
  rewrite Forall_forall in Hall. specialize (Hall _ Hin).
  unfold item_ltb in Hall. simpl in *.
  destruct (String.eqb_spec n' n) as [->|Hne].
  - exfalso. apply Hn. by apply (list_elem_of_fmap_2 fst) in Hin.
  - destruct (String.ltb n n') eqn:E; [done|].
    by rewrite (string_ltb_total _ _ Hall E) in Hne.
Qed.

End LockfileItems.

(** ** Managers reached through the public methods *)

Section Reachable.

Import Stage4.

Lemma install_keeps_registry (depth : nat) (self : PackageManager) (name : string)
    (constraint : option string) (resolve_conflicts : bool) :
  _registry (snd (install depth self name constraint resolve_conflicts)) = _registry self.
Proof.
  pose proof (install_runs depth self name constraint resolve_conflicts) as Hrun.
  by inversion Hrun.
Qed.

(** The version lists of a reachable manager are ascending. *)
Lemma reachable_ascending (self : PackageManager) :
  reachable self -> registry_ascending (_registry self).
Proof.
  induction 1 as [|self name vs deps _ IH|depth self name c rc _ IH|self lockfile _ IH].
  - apply empty_registry_ascending.
  - unfold register_package.
    destruct (register (_registry self) name vs deps) as [registry|e] eqn:E; [|done].
    simpl. by eapply register_ascending.
  - by rewrite install_keeps_registry.
  - done.
Qed.

Lemma add_all_registered (registry : gmap string package_entry)
    (added : list (string * string)) (packages : gmap string string) :
  Forall (fun item => is_Some (registry !! fst item)) added ->
  (forall name, is_Some (packages !! name) -> is_Some (registry !! name)) ->
  forall name, is_Some (add_all added packages !! name) -> is_Some (registry !! name).
Proof.
  revert packages. induction added as [|[n v] l IH]; intros packages Hall Hp; simpl; [done|].
  apply Forall_cons in Hall as [Hn Hl]. apply IH; [done|].
  intros name. destruct (decide (n = name)) as [->|Hne]; [done|].
  rewrite lookup_insert_ne by done. apply Hp.
Qed.

(** Whatever a reachable manager has installed is registered. *)
Lemma reachable_installed_registered (self : PackageManager) :
  reachable self ->
  forall name, is_Some (_packages self !! name) -> is_Some (_registry self !! name).
Proof.
  induction 1 as [|self name vs deps _ IH|depth self name c rc _ IH|self lockfile _ IH].
  - intros name. simpl. rewrite lookup_empty. by intros [].
  - unfold register_package, register.
    destruct (sort_versions vs) as [sorted_vs|e]; simpl; [|done].
    intros pkg Hpkg. destruct (decide (name = pkg)) as [->|Hne].
    + by rewrite lookup_insert_eq.
    + rewrite lookup_insert_ne by done. by apply IH.
  - pose proof (install_runs depth self name c rc) as Hrun.
    inversion Hrun as [| | | |reqs rs result st Hsome Hcollect Hselect Hordered Heq];
      try done.
    simpl. apply install_ordered_installs in Hordered as (added & _ & -> & Hall & _).
    simpl. apply add_all_registered; [|done].
    eapply Forall_impl; [exact Hall|]. by intros item [_ ?].
  - simpl. revert IH. generalize (_packages self).
    induction lockfile as [|[n v] l IHl]; intros packages Hp; simpl; [done|].
    apply IHl. case_bool_decide as Hreg; [|done].
    intros name. destruct (decide (n = name)) as [->|Hne]; [done|].
    rewrite lookup_insert_ne by done. apply Hp.
Qed.

Lemma registered_reachable
    (packages : list (string * list string * list (string * list dependency))) :
  reachable (Examples.registered packages).
Proof.
  unfold Examples.registered. generalize reach_new. generalize new.
  induction packages as [|[[name vs] deps] l IH]; intros pm Hpm; simpl; [done|].
  apply IH. by constructor.
Qed.

(** The lock file of a reachable manager, restored by a manager with the
    same registry and nothing installed, brings its installed map back. *)
Lemma reachable_lockfile_round_trip (source : PackageManager)
    (resolved : gmap string string) :
  reachable source ->
  _packages (snd (install_from_lockfile
                    {| _packages := ∅; _registry := _registry source;
                       _resolved_versions := resolved |}
                    (generate_lockfile source)))
  = _packages source.
Proof.
  intros Hreach. apply map_eq. intros name. simpl.
  rewrite restore_lookup by apply generate_lockfile_NoDup. simpl.
  rewrite generate_lockfile_get, lookup_empty.
  destruct (_packages source !! name) as [v|] eqn:E; [|done].
  rewrite bool_decide_true; [done|].
  apply reachable_installed_registered; [done | by rewrite E].
Qed.

End Reachable.

(** ** Termination of the resolver (stage 4) *)

Section Termination.

Import Stage4.

Lemma filter_length_le {A : Type} (P Q : A -> Prop) `{!forall x, Decision (P x)}
    `{!forall x, Decision (Q x)} (l : list A) :
  (forall x, x ∈ l -> Q x -> P x) -> length (filter Q l) <= length (filter P l).
Proof.
  induction l as [|x l IH]; intros Hall; [done|].
  assert (length (filter Q l) <= length (filter P l)) as IH'.
  { apply IH. intros y Hy. apply Hall. by apply list_elem_of_further. }
  destruct (decide (Q x)) as [HQ|HQ].
  - rewrite (filter_cons_True Q) by done.
    rewrite (filter_cons_True P) by (apply Hall; [apply list_elem_of_here | done]).
    simpl. lia.
  - rewrite (filter_cons_False Q) by done.
    destruct (decide (P x)); [rewrite (filter_cons_True P) by done; simpl; lia|].
    by rewrite (filter_cons_False P).
Qed.

Lemma filter_length_lt {A : Type} (P Q : A -> Prop) `{!forall x, Decision (P x)}
    `{!forall x, Decision (Q x)} (l : list A) (x : A) :
  (forall y, y ∈ l -> Q y -> P y) -> x ∈ l -> P x -> ~ Q x ->
  length (filter Q l) < length (filter P l).
Proof.
  induction l as [|y l IH]; intros Hall Hx HP HQ; [by apply elem_of_nil in Hx|].
  assert (forall z, z ∈ l -> Q z -> P z) as H'.
  { intros z Hz. apply Hall. by apply list_elem_of_further. }
  apply elem_of_cons in Hx as [<-|Hx].
  - rewrite (filter_cons_False Q), (filter_cons_True P) by done. simpl.
    pose proof (filter_length_le P Q l H'). lia.
  - specialize (IH H' Hx HP HQ).
    destruct (decide (Q y)) as [HQy|HQy].
    + rewrite (filter_cons_True Q) by done.
      rewrite (filter_cons_True P) by (apply Hall; [apply list_elem_of_here | done]).
      simpl. lia.
    + rewrite (filter_cons_False Q) by done.
      destruct (decide (P y)); [rewrite (filter_cons_True P) by done; simpl; lia|].
      by rewrite (filter_cons_False P).
Qed.

Lemma edges_elem (registry : gmap string package_entry) (name : string)
    (entry : package_entry) (version : string) (deps : list dependency)
    (dep_name c : string) :
  registry !! name = Some entry ->
  dependencies entry !! version = Some deps ->
  (dep_name, Some c) ∈ deps ->
  (dep_name, c) ∈ edges registry.
Proof.
  intros Hreg Hdeps Hin. unfold edges.
  apply list_elem_of_bind. exists (name, entry). split; [|by apply elem_of_map_to_list].
  apply list_elem_of_bind. exists (version, deps). split; [|by apply elem_of_map_to_list].
  apply list_elem_of_omap. by exists (dep_name, Some c).
Qed.

Lemma pending_le (registry : gmap string package_entry) (r r' : requirement_set) :
  grows r r' -> pending registry r' <= pending registry r.
Proof.
  intros H. apply filter_length_le. intros e _ He.
  destruct (recorded r e) eqn:E; [|done]. by rewrite (H e E) in He.
Qed.

Lemma pending_lt (registry : gmap string package_entry) (r r' : requirement_set)
    (edge : string * string) :
  grows r r' -> edge ∈ edges registry ->
  recorded r edge = false -> recorded r' edge = true ->
  pending registry r' < pending registry r.
Proof.
  intros H Hin Hr Hr'. apply (filter_length_lt _ _ _ edge); [|done|done|by rewrite Hr'].
  intros e _ He. destruct (recorded r e) eqn:E; [|done]. by rewrite (H e E) in He.
Qed.

Lemma pending_bound (registry : gmap string package_entry) (r : requirement_set) :
  pending registry r <= length (edges registry).
Proof. unfold pending. apply length_filter. Qed.

Lemma grows_declare (r : requirement_set) (name : string) :
  grows r (if od_mem name r then r else od_set name [] r).
Proof.
  intros [k c]. unfold recorded. simpl.
  unfold od_mem. destruct (od_get name r) eqn:E; [done|].
  destruct (decide (name = k)) as [->|Hne].
  - by rewrite E.
  - by rewrite od_get_set_ne.
Qed.

Lemma grows_append (r : requirement_set) (name requirer c : string) :
  grows r (od_set name (default [] (od_get name r) ++ [(requirer, c)]) r)
  /\ recorded (od_set name (default [] (od_get name r) ++ [(requirer, c)]) r) (name, c)
     = true.
Proof.
  split.
  - intros [k c']. unfold recorded, already_required. simpl.
    destruct (decide (name = k)) as [->|Hne].
    + rewrite od_get_set_eq. simpl. rewrite existsb_app. by intros ->.
    + by rewrite od_get_set_ne.
  - unfold recorded, already_required. simpl. rewrite od_get_set_eq. simpl.
    rewrite existsb_app. simpl. rewrite bool_decide_eq_true_2 by done.
    by rewrite orb_true_r.
Qed.

(** Comparisons raise [TypeError] and nothing else. *)

Lemma tuple_cmp_raises (op : ord_op) (v w : list py_part) (e : py_exception) :
  tuple_cmp op v w = Raise e -> e = TypeError.
Proof.
  revert w. induction v as [|a v IH]; intros [|b w]; simpl; try done.
  destruct (part_eqb a b); [apply IH|]. destruct a, b; simpl; congruence.
Qed.

Lemma matches_raises (version constraint : string) (e : py_exception) :
  _matches_constraint version constraint = Raise e -> e = TypeError.
Proof.
  unfold _matches_constraint. destruct (re_match constraint) as [[group1 target]|]; [|done].
  destruct (default OpEq group1); try done; try apply tuple_cmp_raises.
  destruct (tuple_cmp OGe _ _) as [[|]|e'] eqn:E; simpl; [| done |].
  - by destruct (_version_tuple version), (_version_tuple target).
  - intros [= <-]. by eapply tuple_cmp_raises.
Qed.

Lemma for_each_raises {A S : Type} (body : S -> A -> outcome S) (l : list A) (s : S)
    (e : py_exception) :
  for_each body l s = Raise e -> exists s0 x, x ∈ l /\ body s0 x = Raise e.
Proof.
  revert s. induction l as [|x l IH]; intros s; simpl; [done|].
  destruct (body s x) as [s'|e'] eqn:E.
  - intros (s0 & y & Hy & Hb)%IH. exists s0, y. split; [by apply list_elem_of_further|done].
  - intros [= <-]. exists s, x. split; [apply list_elem_of_here | done].
Qed.

Lemma find_version_raises (registry : gmap string package_entry) (name : string)
    (constraint : option string) (e : py_exception) :
  _find_version registry name constraint = Raise e -> e = TypeError.
Proof.
  unfold _find_version. destruct (registry !! name) as [entry|]; [|done].
  destruct (versions entry) as [|v vs]; [done|]. destruct constraint as [c|]; [|done].
  destruct (matching_versions c (v :: vs)) as [m|e'] eqn:E; simpl; [done|].
  intros [= <-]. apply for_each_raises in E as (s0 & x & _ & Hx).
  destruct (_matches_constraint x c) as [b|e''] eqn:Hm; simpl in Hx; [done|].
  injection Hx as <-. by eapply matches_raises.
Qed.

Lemma all_match_raises (version : string) (constraints : list string) (e : py_exception) :
  all_match version constraints = Raise e -> e = TypeError.
Proof.
  induction constraints as [|c cs IH]; simpl; [done|].
  destruct (_matches_constraint version c) as [[|]|e'] eqn:E; simpl; [done|done|].
  intros [= <-]. by eapply matches_raises.
Qed.

Lemma first_compatible_raises (candidates constraints : list string) (e : py_exception) :
  first_compatible candidates constraints = Raise e -> e = TypeError.
Proof.
  induction candidates as [|v vs IH]; simpl; [done|].
  destruct (all_match v constraints) as [[|]|e'] eqn:E; simpl; [done|done|].
  intros [= <-]. by eapply all_match_raises.
Qed.

Lemma select_versions_raises (registry : gmap string package_entry)
    (requirements : requirement_set) (e : py_exception) :
  select_versions registry requirements = Raise e -> e = TypeError.
Proof.
  intros (s0 & [pkg rows] & _ & Hx)%for_each_raises.
  destruct s0 as [cs rs]. rewrite select_version_unfold in Hx.
  unfold compatible_version in Hx. simpl in Hx.
  destruct (registry !! pkg) as [entry|]; [|done].
  destruct (first_compatible _ _) as [[v|]|e'] eqn:E; [done|done|].
  injection Hx as <-. by eapply first_compatible_raises.
Qed.

(** An empty constraint text matches no version. *)
Lemma find_version_empty_text (registry : gmap string package_entry) (name : string) :
  _find_version registry name (Some EmptyString) = Return None.
Proof.
  unfold _find_version. destruct (registry !! name) as [entry|]; [|done].
  destruct (versions entry) as [|v vs]; [done|].
  unfold matching_versions. generalize (v :: vs). intros l.
  enough (forall acc : list string,
            for_each (fun matching v =>
                        b ← _matches_constraint v EmptyString;
                        Return (if b : bool then matching ++ [v] else matching)) l acc
            = Return acc) as -> by done.
  induction l as [|x l IH]; intros acc; simpl; [done|]. apply IH.
Qed.

Lemma for_each_returns {A S : Type} (P : S -> Prop) (body : S -> A -> outcome S)
    (l : list A) :
  (forall s x, x ∈ l -> P s ->
     match body s x with Return s' => P s' | Raise e => e <> RecursionError end) ->
  forall s, P s ->
    match for_each body l s with Return s' => P s' | Raise e => e <> RecursionError end.
Proof.
  induction l as [|x l IH]; intros Hbody s Hs; simpl; [done|].
  pose proof (Hbody s x (list_elem_of_here _ _) Hs) as Hx.
  destruct (body s x) as [s'|e]; [|done].
  apply IH; [|done]. intros s0 y Hy. apply Hbody. by apply list_elem_of_further.
Qed.

Lemma grows_trans (r1 r2 r3 : requirement_set) : grows r1 r2 -> grows r2 r3 -> grows r1 r3.
Proof. intros H1 H2 e He. by apply H2, H1. Qed.

(** Collection returns, or raises [TypeError], whenever its budget covers
    the pairs it has not recorded yet: every call that goes on into the
    dependencies has recorded a new pair of the registry first. *)
Lemma collect_terminates (registry : gmap string package_entry) (depth : nat) :
  constrained registry ->
  forall name constraint requirements requirer,
    pending registry requirements + 2 <= depth
    \/ (exists c, constraint = Some c /\ c <> EmptyString
                  /\ (name, c) ∈ edges registry
                  /\ recorded requirements (name, c) = false
                  /\ pending registry requirements + 1 <= depth)
    \/ (constraint = Some EmptyString /\ 1 <= depth) ->
    match _collect_requirements depth registry name constraint requirements requirer with
    | Return requirements' => grows requirements requirements'
    | Raise e => e <> RecursionError
    end.
Proof.
  intros Hc. induction depth as [|depth IH]; intros name constraint reqs requirer Hpre.
  { exfalso. destruct Hpre as [?|[(c & _ & _ & _ & _ & ?)|[_ ?]]]; lia. }
  rewrite collect_unfold.
  set (reqs1 := if od_mem name reqs then reqs else od_set name [] reqs).
  assert (grows reqs reqs1) as Hg1 by apply grows_declare.
  cbv zeta.
  assert (forall reqs2 : requirement_set,
            grows reqs reqs2 -> pending registry reqs2 + 1 <= depth ->
            match
              match registry !! name with
              | Some entry =>
                  version ← _find_version registry name constraint;
                  match version with
                  | Some version =>
                      for_each
                        (fun requirements (dep : dependency) =>
                           let '(dep_name, dep_constraint) := dep in
                           if already_required (default [] (od_get dep_name requirements))
                                dep_constraint
                           then Return requirements
                           else _collect_requirements depth registry dep_name
                                  dep_constraint requirements name)
                        (default [] (dependencies entry !! version)) reqs2
                  | None => Return reqs2
                  end
              | None => Return reqs2
              end
            with
            | Return requirements' => grows reqs requirements'
            | Raise e => e <> RecursionError
            end) as Htail.
  { intros reqs2 Hg2 Hm.
    destruct (registry !! name) as [entry|] eqn:Hreg; [|done].
    destruct (_find_version registry name constraint) as [[version|]|e] eqn:Hfind;
      simpl; [| done | by intros ->; apply find_version_raises in Hfind].
    destruct (dependencies entry !! version) as [deps|] eqn:Hdeps; simpl; [|done].
    enough (match for_each
                    (fun requirements (dep : dependency) =>
                       let '(dep_name, dep_constraint) := dep in
                       if already_required (default [] (od_get dep_name requirements))
                            dep_constraint
                       then Return requirements
                       else _collect_requirements depth registry dep_name
                              dep_constraint requirements name) deps reqs2 with
            | Return s' => grows reqs2 s'
            | Raise e => e <> RecursionError
            end) as Hloop.
    { destruct (for_each _ deps reqs2); [by eapply grows_trans | done]. }
    apply (for_each_returns (grows reqs2)); [|by intros ?].
    intros s [dep_name dep_constraint] Hin Hs.
    destruct (already_required _ dep_constraint) eqn:Hseen; [done|].
    assert (pending registry s + 1 <= depth) as Hs'
      by (pose proof (pending_le registry _ _ Hs); lia).
    destruct dep_constraint as [c|]; [|by apply (Hc _ _ _ _ _ Hreg Hdeps) in Hin].
    assert (match _collect_requirements depth registry dep_name (Some c) s name with
            | Return s' => grows s s'
            | Raise e => e <> RecursionError
            end) as Hcall.
    { apply IH. destruct (decide (c = EmptyString)) as [->|Hne].
      - right; right. split; [done | lia].
      - right; left. exists c. split_and!; [done | done | | done | done].
        by eapply edges_elem. }
    destruct (_collect_requirements depth registry dep_name (Some c) s name);
      [by eapply grows_trans | done]. }
  destruct Hpre as [Hdepth|[(c & -> & Hne & Hedge & Hnew & Hdepth)|[-> Hdepth]]].
  - apply Htail.
    + destruct constraint as [c|]; [|done]. destruct (truthy (Some c)); [|done].
      eapply grows_trans; [exact Hg1 | apply grows_append].
    + assert (grows reqs
                (match constraint with
                 | Some c => if truthy constraint
                             then od_set name (default [] (od_get name reqs1)
                                               ++ [(requirer, c)]) reqs1
                             else reqs1
                 | None => reqs1
                 end)) as Hg2.
      { destruct constraint as [c|]; [|done]. destruct (truthy (Some c)); [|done].
        eapply grows_trans; [exact Hg1 | apply grows_append]. }
      pose proof (pending_le registry _ _ Hg2). lia.
  - assert (truthy (Some c) = true) as ->.
    { unfold truthy. by destruct (String.eqb_spec c EmptyString). }
    destruct (grows_append reqs1 name requirer c) as [Hg Hrec].
    assert (grows reqs (od_set name (default [] (od_get name reqs1) ++ [(requirer, c)]) reqs1))
      as Hg2 by (by eapply grows_trans).
    apply Htail; [done|].
    pose proof (pending_lt registry _ _ (name, c) Hg2 Hedge Hnew Hrec). lia.
  - simpl. destruct (registry !! name) as [entry|]; [|done].
    by rewrite find_version_empty_text.
Qed.

Lemma collect_raises_only (registry : gmap string package_entry) (depth : nat) :
  forall name constraint requirements requirer e,
    _collect_requirements depth registry name constraint requirements requirer = Raise e ->
    e = TypeError \/ e = RecursionError.
Proof.
  induction depth as [|depth IH]; intros name constraint reqs requirer e.
  { intros [= <-]. by right. }
  rewrite collect_unfold. cbv zeta.
  destruct (registry !! name) as [entry|]; [|done].
  destruct (_find_version registry name constraint) as [[version|]|e'] eqn:Hfind;
    simpl; [|done|].
  - intros (s0 & [dep_name dep_constraint] & _ & Hx)%for_each_raises.
    destruct (already_required _ dep_constraint); [done|]. by eapply IH.
  - intros [= <-]. left. by eapply find_version_raises.
Qed.

(** Ordered installation returns whenever its budget covers the registered
    packages it has not visited yet. *)
Lemma all_succeed_returns {A S : Type} (I : S -> Prop)
    (step : A -> S -> outcome bool * S) (l : list A) :
  (forall x s, x ∈ l -> I s -> exists ok s', step x s = (Return ok, s') /\ I s') ->
  forall s, I s -> exists ok s', all_succeed step l s = (Return ok, s') /\ I s'.
Proof.
  induction l as [|x l IH]; intros Hstep s Hs; simpl; [by eauto|].
  destruct (Hstep x s (list_elem_of_here _ _) Hs) as (ok & s' & -> & Hs').
  destruct ok; [|by eauto].
  apply IH; [|done]. intros y s0 Hy. apply Hstep. by apply list_elem_of_further.
Qed.

Lemma install_ordered_terminates (registry : gmap string package_entry)
    (resolved : gmap string string) (depth : nat) :
  forall name st,
    size (dom registry ∖ visiting st) + 1 <= depth ->
    exists ok st', _install_ordered depth registry resolved name st = (Return ok, st').
Proof.
  induction depth as [|depth IH]; intros name st Hdepth; [lia|].
  rewrite install_ordered_unfold.
  case_bool_decide; [by eauto|]. case_bool_decide as Hvis; [by eauto|].
  destruct (registry !! name) as [entry|] eqn:Hreg; [|by eauto].
  cbv zeta. destruct (resolved !! name) as [version|]; [|by eauto].
  set (st1 := {| pkgs := pkgs st; installed := installed st;
                 visiting := {[name]} ∪ visiting st |}).
  assert (size (dom registry ∖ visiting st1) < size (dom registry ∖ visiting st)) as Hlt.
  { apply subset_size. simpl. apply elem_of_dom_2 in Hreg. set_solver. }
  destruct (all_succeed_returns (fun s => visiting st1 ⊆ visiting s)
              (fun (dep : dependency) s =>
                 _install_ordered depth registry resolved (fst dep) s)
              (default [] (dependencies entry !! version))) with (s := st1)
    as (ok & st2 & -> & _); [|done|by destruct ok; eauto].
  intros dep s _ Hs.
  destruct (IH (fst dep) s) as (ok & s' & Hrun).
  { assert (size (dom registry ∖ visiting s) <= size (dom registry ∖ visiting st1))
      by (apply subseteq_size; set_solver). lia. }
  exists ok, s'. split; [done|].
  apply install_ordered_installs in Hrun as (_ & _ & _ & _ & Hv). set_solver.
Qed.

(** On a constrained registry [install] cannot exhaust a budget of
    [recursion_bound]: it returns, or a comparison raises [TypeError]. *)
Lemma install_terminates (depth : nat) (self : PackageManager) (name : string)
    (constraint : option string) (resolve_conflicts : bool) :
  constrained (_registry self) ->
  recursion_bound (_registry self) <= depth ->
  (exists result, fst (install depth self name constraint resolve_conflicts) = Return result)
  \/ fst (install depth self name constraint resolve_conflicts) = Raise TypeError.
Proof.
  intros Hc Hdepth. unfold recursion_bound in Hdepth.
  pose proof (install_runs depth self name constraint resolve_conflicts) as Hrun.
  inversion Hrun as [Hnone Heq|e Hsome Hcollect Heq|reqs e Hsome Hcollect Hselect Heq
                     |reqs cs rs Hsome Hcollect Hselect Hcs Heq
                     |reqs rs result st Hsome Hcollect Hselect Hordered Heq];
    simpl; try (left; by eauto).
  - pose proof (collect_terminates (_registry self) depth Hc name constraint [] "root") as Ht.
    rewrite Hcollect in Ht. right. f_equal.
    assert (e <> RecursionError) as Hne.
    { apply Ht. left. pose proof (pending_bound (_registry self) []). lia. }
    destruct (collect_raises_only (_registry self) depth name constraint [] "root" e Hcollect);
      [done | by subst].
  - right. f_equal. by eapply select_versions_raises.
  - destruct (install_ordered_terminates (_registry self) rs depth name
                {| pkgs := _packages self; installed := []; visiting := ∅ |})
      as (ok & st' & Hret).
    { simpl. assert (size (dom (_registry self) ∖ (∅ : gset string)) <= size (_registry self)).
      { rewrite <- size_dom. apply subseteq_size. set_solver. }
      lia. }
    rewrite Hret in Hordered. injection Hordered as <- <-. left. by eauto.
Qed.

End Termination.

(** ** Cycles and termination *)

Section CyclesTerminate.

Import Stage4.

(** C4 (as the code has it): on a registry in which every dependency
    carries a constraint, cycles or not, the stage-4 [install] never
    exhausts a recursion budget of [recursion_bound]: it returns, or a
    comparison raises [TypeError]. On a cycle of two packages [a] and [b]
    (one version each, each constraint matched by the other's version) it
    returns for every budget of 3 or more, succeeds without conflict and
    installs [b], then [a]. The stage-3 [install] returns as well on that
    cycle, but treats it as an error: it reports failure and installs
    nothing. *)
Theorem cycles_terminate_and_two_package_cycle_resolves :
  (forall depth self name constraint resolve_conflicts,
      constrained (_registry self) ->
      recursion_bound (_registry self) <= depth ->
      (exists result,
          fst (install depth self name constraint resolve_conflicts) = Return result)
      \/ fst (install depth self name constraint resolve_conflicts) = Raise TypeError)
  /\ (forall (registry : gmap string package_entry) (a b va vb ca cb : string)
             (deps_a deps_b : gmap string (list dependency))
             (depth : nat) (packages previous : gmap string string)
             (resolve_conflicts : bool),
        a <> b ->
        registry !! a = Some {| versions := [va]; dependencies := deps_a |} ->
        deps_a !! va = Some [(b, Some cb)] ->
        registry !! b = Some {| versions := [vb]; dependencies := deps_b |} ->
        deps_b !! vb = Some [(a, Some ca)] ->
        _matches_constraint vb cb = Return true ->
        _matches_constraint va ca = Return true ->
        packages !! a = None ->
        packages !! b = None ->
        install (3 + depth)
          {| _packages := packages; _registry := registry;
             _resolved_versions := previous |}
          a None resolve_conflicts
        = (Return (true, [b +:+ "==" +:+ vb; a +:+ "==" +:+ va], []),
           {| _packages := <[a := va]> (<[b := vb]> packages);
              _registry := registry;
              _resolved_versions := <[b := vb]> (<[a := va]> ∅) |})
        /\ Stage3.install (3 + depth)
             {| Stage3._packages := packages; Stage3._registry := registry |} a None
           = (Return (false, []),
              {| Stage3._packages := packages; Stage3._registry := registry |})).
Proof.
  split.
  - intros depth self name constraint resolve_conflicts. apply install_terminates.
  - intros registry a b va vb ca cb deps_a deps_b depth packages previous resolve_conflicts
           Hab Ha Hda Hb Hdb Hcb Hca Hpa Hpb.
    by eapply two_package_cycle.
Qed.

Lemma cycles_terminate_witness :
  install (3 + 0)
    {| _packages := ∅; _registry := _registry Examples.cycle; _resolved_versions := ∅ |}
    "a" None true
  = (Return (true, ["b" +:+ "==" +:+ "1.0.0"; "a" +:+ "==" +:+ "1.0.0"], []),
     {| _packages := <["a" := "1.0.0"]> (<["b" := "1.0.0"]> ∅);
        _registry := _registry Examples.cycle;
        _resolved_versions := <["b" := "1.0.0"]> (<["a" := "1.0.0"]> ∅) |})
  /\ Stage3.install (3 + 0)
       {| Stage3._packages := ∅; Stage3._registry := _registry Examples.cycle |} "a" None
     = (Return (false, []),
        {| Stage3._packages := ∅; Stage3._registry := _registry Examples.cycle |}).
Proof.
  refine (proj2 cycles_terminate_and_two_package_cycle_resolves
            (_registry Examples.cycle) "a" "b" "1.0.0" "1.0.0"
            ">=1.0.0" ">=1.0.0"
            {[ "1.0.0" := [("b", Some ">=1.0.0")] ]}
            {[ "1.0.0" := [("a", Some ">=1.0.0")] ]}
            0 ∅ ∅ true _ _ _ _ _ _ _ _ _);
    first [discriminate | vm_compute; reflexivity].
Defined.

End CyclesTerminate.

(** ** Selection on a satisfiable requirement set *)

Section MatchingVersions.

(** The list comprehension keeps, in order, the versions for which the
    match is [True]; the others gave [False]. *)
Lemma matching_versions_kept (c : string) (vs : list string) :
  forall acc m,
    for_each (fun matching v =>
                b ← _matches_constraint v c;
                Return (if b : bool then matching ++ [v] else matching)) vs acc
      = Return m ->
    exists kept,
      m = acc ++ kept
      /\ kept `sublist_of` vs
      /\ Forall (fun v => _matches_constraint v c = Return true) kept
      /\ (forall v, v ∈ vs -> _matches_constraint v c = Return true -> v ∈ kept)
      /\ (forall v, v ∈ vs -> v ∉ kept -> _matches_constraint v c = Return false).
Proof.
  induction vs as [|x vs IH]; intros acc m; simpl.
  - intros [= <-]. exists []. rewrite app_nil_r. split_and!; try done.
  - destruct (_matches_constraint x c) as [[|]|e] eqn:E; simpl; [| |done].
    + intros (kept & -> & Hsub & Hall & Hin & Hout)%IH.
      exists (x :: kept). rewrite <- app_assoc. split_and!; try done.
      * by constructor.
      * by constructor.
      * intros v [->|Hv]%elem_of_cons Hm; [left | right; by apply Hin].
      * intros v [->|Hv]%elem_of_cons Hm; [by destruct Hm; left|].
        apply Hout; [done|]. intros Hk. apply Hm. by right.
    + intros (kept & -> & Hsub & Hall & Hin & Hout)%IH.
      exists kept. split_and!; try done.
      * by constructor.
      * intros v [->|Hv]%elem_of_cons Hm; [congruence | by apply Hin].
      * intros v [->|Hv]%elem_of_cons Hm; [done | by apply Hout].
Qed.

(** When [_find_version] returns for a constraint, the constraint gave a
    result on every published version. *)
Lemma find_version_defined (registry : gmap string package_entry) (name c : string)
    (entry : package_entry) (result : option string) :
  registry !! name = Some entry ->
  _find_version registry name (Some c) = Return result ->
  forall w, w ∈ versions entry -> exists b, _matches_constraint w c = Return b.
Proof.
  intros Hreg. unfold _find_version. rewrite Hreg.
  destruct (versions entry) as [|v0 vs0] eqn:Hvs.
  { intros _ w Hw. by apply elem_of_nil in Hw. }
  unfold matching_versions. destruct (for_each _ _ _) as [m|e] eqn:E; [|done].
  intros _ w Hw.
  apply matching_versions_kept in E as (kept & _ & _ & Hall & _ & Hout).
  destruct (decide (w ∈ kept)) as [Hin|Hnin].
  - rewrite Forall_forall in Hall. exists true. by apply Hall.
  - exists false. by apply Hout.
Qed.

End MatchingVersions.

Section Satisfiable.

Import Stage4.

Lemma od_mem_true {V : Type} (k : string) (d : odict V) : od_mem k d = true <-> k ∈ od_keys d.
Proof.
  unfold od_mem. pose proof (od_get_None d k) as H.
  destruct (od_get k d); split; try done.
  - intros _. destruct (decide (k ∈ od_keys d)) as [|Hn]; [done|]. by apply H in Hn.
  - intros Hin. by apply H in Hin.
Qed.

Lemma od_mem_set {V : Type} (k k' : string) (v : V) (d : odict V) :
  od_mem k' (od_set k v d) = true <-> k' = k \/ od_mem k' d = true.
Proof.
  rewrite !od_mem_true, od_keys_set. destruct (od_mem k d) eqn:E.
  - apply od_mem_true in E. split; [by right | by intros [->|?]].
  - rewrite elem_of_app, list_elem_of_singleton. tauto.
Qed.

(** Collection keeps the packages it was given and declares the package it
    is called for. *)
Lemma collect_keeps_keys (registry : gmap string package_entry) (depth : nat) :
  forall name constraint requirements requirer requirements',
    _collect_requirements depth registry name constraint requirements requirer
      = Return requirements' ->
    od_mem name requirements' = true
    /\ forall pkg, od_mem pkg requirements = true -> od_mem pkg requirements' = true.
Proof.
  induction depth as [|depth IH]; intros name c reqs requirer reqs'; [done|].
  rewrite collect_unfold. cbv zeta.
  set (r1 := if od_mem name reqs then reqs else od_set name [] reqs).
  assert (od_mem name r1 = true /\ forall pkg, od_mem pkg reqs = true -> od_mem pkg r1 = true)
    as [Hname1 Hkeep1].
  { unfold r1. destruct (od_mem name reqs) eqn:E; [done|].
    split; [apply od_mem_set; by left | intros pkg Hpkg; apply od_mem_set; by right]. }
  set (r2 := match c with
             | Some c0 => if truthy c
                          then od_set name (default [] (od_get name r1) ++ [(requirer, c0)]) r1
                          else r1
             | None => r1
             end).
  assert (od_mem name r2 = true /\ forall pkg, od_mem pkg r1 = true -> od_mem pkg r2 = true)
    as [Hname2 Hkeep2].
  { unfold r2. destruct c as [c0|]; [|done]. destruct (truthy (Some c0)); [|done].
    split; [apply od_mem_set; by left | intros pkg Hpkg; apply od_mem_set; by right]. }
  assert (forall r : requirement_set, (od_mem name r = true
                     /\ forall pkg, od_mem pkg r2 = true -> od_mem pkg r = true) ->
                    od_mem name r = true
                    /\ forall pkg, od_mem pkg reqs = true -> od_mem pkg r = true) as Hdone.
  { intros r [H1 H2]. split; [done|]. intros pkg Hpkg. by apply H2, Hkeep2, Hkeep1. }
  destruct (registry !! name) as [entry|]; [|intros [= <-]; by apply Hdone].
  destruct (_find_version registry name c) as [[version|]|e]; simpl;
    [|intros [= <-]; by apply Hdone|done].
  intros Hloop. apply Hdone. revert Hloop.
  apply (for_each_invariant
           (fun r : requirement_set => od_mem name r = true
                     /\ forall pkg, od_mem pkg r2 = true -> od_mem pkg r = true)); [|done].
  intros s [dep_name dep_c] s' _ [Hs1 Hs2].
  destruct (already_required _ _); [by intros [= <-]|].
  intros [_ Hk]%IH. split; [by apply Hk | intros pkg Hpkg; by apply Hk, Hs2].
Qed.

Lemma defined_rows_declare (registry : gmap string package_entry)
    (requirements : requirement_set) (name : string) :
  defined_rows registry requirements ->
  defined_rows registry (if od_mem name requirements then requirements
                         else od_set name [] requirements).
Proof.
  intros Hd. destruct (od_mem name requirements); [done|].
  intros pkg rows entry w row Hget Hreg Hw Hrow.
  destruct (decide (name = pkg)) as [->|Hne].
  - rewrite od_get_set_eq in Hget. injection Hget as <-. by apply elem_of_nil in Hrow.
  - rewrite od_get_set_ne in Hget by done. by eapply Hd.
Qed.

Lemma defined_rows_append (registry : gmap string package_entry)
    (requirements : requirement_set) (name requirer c : string) :
  defined_rows registry requirements ->
  (forall entry w, registry !! name = Some entry -> w ∈ versions entry ->
                   exists b, _matches_constraint w c = Return b) ->
  defined_rows registry
    (od_set name (default [] (od_get name requirements) ++ [(requirer, c)]) requirements).
Proof.
  intros Hd Hc pkg rows entry w row Hget Hreg Hw Hrow.
  destruct (decide (name = pkg)) as [->|Hne].
  - rewrite od_get_set_eq in Hget. injection Hget as <-.
    apply elem_of_app in Hrow as [Hrow|Hrow].
    + destruct (od_get pkg requirements) as [rows0|] eqn:E; [|by apply elem_of_nil in Hrow].
      by eapply Hd.
    + apply list_elem_of_singleton in Hrow as ->. simpl. by eapply Hc.
  - rewrite od_get_set_ne in Hget by done. by eapply Hd.
Qed.

(** A collection that returns has matched each constraint it recorded
    against every published version of its package. *)
Lemma collect_defined_rows (registry : gmap string package_entry) (depth : nat) :
  forall name constraint requirements requirer requirements',
    defined_rows registry requirements ->
    _collect_requirements depth registry name constraint requirements requirer
      = Return requirements' ->
    defined_rows registry requirements'.
Proof.
  induction depth as [|depth IH]; intros name c reqs requirer reqs' Hd; [done|].
  rewrite collect_unfold. cbv zeta.
  pose proof (defined_rows_declare registry reqs name Hd) as Hd1.
  set (r1 := if od_mem name reqs then reqs else od_set name [] reqs) in *.
  destruct (registry !! name) as [entry|] eqn:Hreg.
  - destruct (_find_version registry name c) as [result|e] eqn:Hfind; simpl; [|done].
    assert (defined_rows registry
              match c with
              | Some c0 => if truthy c
                           then od_set name (default [] (od_get name r1) ++ [(requirer, c0)]) r1
                           else r1
              | None => r1
              end) as Hd2.
    { destruct c as [c0|]; [|done]. destruct (truthy (Some c0)); [|done].
      apply defined_rows_append; [done|]. intros entry' w Hreg' Hw.
      eapply find_version_defined; [exact Hreg' | exact Hfind | done]. }
    destruct result as [version|]; [|by intros [= <-]].
    apply (for_each_invariant (defined_rows registry)); [|done].
    intros s [dep_name dep_c] s' _ Hs.
    destruct (already_required _ _); [by intros [= <-]|]. by apply IH.
  - intros [= <-]. destruct c as [c0|]; [|done]. destruct (truthy (Some c0)); [|done].
    apply defined_rows_append; [done|]. intros entry w Hreg'. congruence.
Qed.

Lemma all_match_defined (version : string) (constraints : list string) :
  Forall (fun c => exists b, _matches_constraint version c = Return b) constraints ->
  exists b, all_match version constraints = Return b.
Proof.
  induction 1 as [|c cs [b Hb] _ IH]; simpl; [by eauto|].
  rewrite Hb. simpl. destruct b; [done | by eauto].
Qed.

(** The search from the newest version down finds a version when one
    satisfies the constraints and no match raises. *)
Lemma first_compatible_finds (candidates constraints : list string) :
  Forall (fun w => exists b, all_match w constraints = Return b) candidates ->
  Exists (fun w => all_match w constraints = Return true) candidates ->
  exists version, first_compatible candidates constraints = Return (Some version).
Proof.
  induction 1 as [|w ws [b Hb] _ IH]; intros Hex; simpl; [by apply Exists_nil in Hex|].
  rewrite Hb. simpl. destruct b; [by eauto|].
  apply IH. apply Exists_cons in Hex as [Hw|Hws]; [congruence | done].
Qed.

Lemma select_satisfiable (registry : gmap string package_entry)
    (requirements : list (string * list (string * string))) :
  Forall (fun item => exists version,
              compatible_version registry item = Return (Some version)) requirements ->
  forall conflicts resolved,
    exists resolved',
      for_each (select_version registry) requirements (conflicts, resolved)
        = Return (conflicts, resolved').
Proof.
  induction 1 as [|item l [version Hv] _ IH]; intros conflicts resolved;
    cbn [for_each]; [by eauto|].
  rewrite select_version_unfold, Hv. apply IH.
Qed.

(** On a satisfiable set whose matches all return, selection finds a
    version for every package and reports no conflict. *)
Lemma select_versions_satisfiable (registry : gmap string package_entry)
    (requirements : requirement_set) :
  well_formed requirements ->
  satisfiable_set registry requirements ->
  defined_rows registry requirements ->
  exists resolved, select_versions registry requirements = Return ([], resolved).
Proof.
  intros [Hkeys _] Hsat Hdef. apply select_satisfiable.
  apply Forall_forall. intros [pkg rows] Hin.
  pose proof (od_get_unique _ _ _ Hkeys Hin) as Hget.
  destruct (Hsat pkg rows Hget) as (entry & version & Hreg & Hversion & Hall).
  unfold compatible_version. simpl. rewrite Hreg.
  apply first_compatible_finds.
  - apply Forall_forall. intros w Hw. apply all_match_defined.
    apply Forall_forall. intros c (row & -> & Hrow)%list_elem_of_fmap.
    apply (Hdef pkg rows entry w row); try done.
    by rewrite list_elem_of_In, in_rev, <- list_elem_of_In.
  - apply Exists_exists. exists version. split.
    + by rewrite list_elem_of_In, <- in_rev, <- list_elem_of_In.
    + by apply satisfies_all_match.
Qed.

(** C1: take a manager built by the public methods, a call of [install]
    whose collection returns, with a budget that covers the registered
    packages. When the collected requirement set is satisfiable (each
    package it names has a published version that satisfies every row
    collected for it), [install] returns without a conflict, and every
    package of the set has a selected version in [_resolved_versions]: a
    published version that satisfies every row collected for the package
    and is not below any other published version that does; whatever the
    call installs, it installs at the selected version. In the diamond,
    [install("app")] succeeds, reports no conflict and installs [base] at
    [1.5.0]. *)
Theorem install_selects_highest_satisfying_version :
  (forall depth self name constraint resolve_conflicts requirements,
      reachable self ->
      _collect_requirements depth (_registry self) name constraint [] "root"
        = Return requirements ->
      satisfiable_set (_registry self) requirements ->
      size (_registry self) + 1 <= depth ->
      exists ok inst self',
        install depth self name constraint resolve_conflicts
          = (Return (ok, inst, []), self')
        /\ (forall pkg rows, od_get pkg requirements = Some rows ->
              exists entry version,
                _registry self !! pkg = Some entry
                /\ _resolved_versions self' !! pkg = Some version
                /\ version ∈ versions entry
                /\ satisfies_all version rows
                /\ forall w, w ∈ versions entry -> satisfies_all w rows ->
                             version_le w version)
        /\ (forall pkg version,
              _packages self !! pkg = None ->
              _packages self' !! pkg = Some version ->
              _resolved_versions self' !! pkg = Some version))
  /\ (fst (install 10 Examples.diamond "app" None true)
        = Return (true, ["base==1.5.0"; "pkg1==1.0.0"; "pkg2==1.0.0"; "app==1.0.0"], [])
      /\ get_version (snd (install 10 Examples.diamond "app" None true)) "base"
         = Some "1.5.0").
Proof.
  split; [|split; vm_compute; reflexivity].
  intros depth self name constraint resolve_conflicts reqs Hreach Hcollect Hsat Hdepth.
  pose proof (reachable_ascending _ Hreach) as Hasc.
  pose proof (collected_well_formed _ _ _ _ _ Hcollect) as Hwf.
  assert (defined_rows (_registry self) reqs) as Hdef.
  { eapply collect_defined_rows; [|exact Hcollect].
    intros pkg rows entry w row Hget. done. }
  assert (is_Some (_registry self !! name)) as [root Hroot].
  { destruct (collect_keeps_keys _ _ _ _ _ _ _ Hcollect) as [Hname _].
    unfold od_mem in Hname. destruct (od_get name reqs) as [rows|] eqn:Hget; [|done].
    destruct (Hsat name rows Hget) as (entry & _ & -> & _). by eexists. }
  destruct (select_versions_satisfiable _ _ Hwf Hsat Hdef) as [resolved Hselect].
  destruct (install_ordered_terminates (_registry self) resolved depth name
              {| pkgs := _packages self; installed := []; visiting := ∅ |})
    as (ok & st & Hordered).
  { simpl. assert (size (dom (_registry self) ∖ (∅ : gset string)) <= size (_registry self)).
    { rewrite <- size_dom. apply subseteq_size. set_solver. }
    lia. }
  exists ok, (installed st),
    {| _packages := pkgs st; _registry := _registry self; _resolved_versions := resolved |}.
  split_and!.
  - unfold install. by rewrite Hroot, Hcollect, Hselect, Hordered.
  - simpl. destruct Hwf as [Hkeys _].
    apply select_loop in Hselect as (_ & _ & _ & Hin).
    intros pkg rows Hget. specialize (Hin Hkeys pkg rows Hget).
    destruct (compatible_version (_registry self) (pkg, rows)) as [[version|]|e] eqn:Hv.
    + destruct (compatible_version_highest _ _ _ _ Hasc Hv) as (entry & ? & ? & ? & ?).
      exists entry, version. by split_and!.
    + exfalso. rewrite lookup_empty in Hin.
      destruct (Hsat pkg rows Hget) as (entry & version & Hreg & Hversion & Hall).
      unfold compatible_version in Hv. simpl in Hv. rewrite Hreg in Hv.
      apply first_compatible_None in Hv. rewrite List.Forall_forall in Hv.
      assert (all_match version (map snd rows) = Return false) as Hfalse.
      { apply Hv. by rewrite <- in_rev, <- list_elem_of_In. }
      apply satisfies_all_match in Hall. congruence.
    + exfalso. rewrite lookup_empty in Hin.
      destruct (Hsat pkg rows Hget) as (entry & version & Hreg & Hversion & Hall).
      assert (exists sel, compatible_version (_registry self) (pkg, rows) = Return sel)
        as [sel Hsel]; [|congruence].
      unfold compatible_version. simpl. rewrite Hreg.
      assert (Forall (fun w => exists b, all_match w (map snd rows) = Return b)
                     (rev (versions entry))) as Hall'.
      { apply Forall_forall. intros w Hw. apply all_match_defined.
        apply Forall_forall. intros c (row & -> & Hrow)%list_elem_of_fmap.
        apply (Hdef pkg rows entry w row); try done.
        by rewrite list_elem_of_In, in_rev, <- list_elem_of_In. }
      clear -Hall'. induction Hall' as [|w ws [b Hb] _ IH]; simpl; [by eauto|].
      rewrite Hb. simpl. destruct b; by eauto.
  - simpl. intros pkg version Hnone Hnew.
    apply install_ordered_installs in Hordered as (added & _ & Hp & Hres & _).
    simpl in Hp. rewrite Hp in Hnew.
    apply add_all_lookup in Hnew as [Hold|Hadded]; [congruence|].
    rewrite List.Forall_forall in Hres.
    apply list_elem_of_In, Hres in Hadded. by destruct Hadded.
Qed.

End Satisfiable.

Section SatisfiableExample.

Import Stage4.

Lemma satisfiable_set_intro (registry : gmap string package_entry)
    (requirements : requirement_set) :
  Forall (fun item => exists entry version,
              registry !! fst item = Some entry /\ version ∈ versions entry
              /\ satisfies_all version (snd item)) requirements ->
  satisfiable_set registry requirements.
Proof.
  intros Hall pkg rows Hget%od_get_elem_of.
  rewrite Forall_forall in Hall. apply (Hall (pkg, rows) Hget).
Qed.

Lemma install_selects_highest_witness :
  exists ok inst self',
    install 10 Examples.diamond "app" None true = (Return (ok, inst, []), self')
    /\ (forall pkg rows,
          od_get pkg [("app", []); ("pkg1", []);
                      ("base", [("pkg1", ">=1.0.0"); ("pkg2", "<=1.5.0")]); ("pkg2", [])]
            = Some rows ->
          exists entry version,
            _registry Examples.diamond !! pkg = Some entry
            /\ _resolved_versions self' !! pkg = Some version
            /\ version ∈ versions entry
            /\ satisfies_all version rows
            /\ forall w, w ∈ versions entry -> satisfies_all w rows -> version_le w version)
    /\ (forall pkg version,
          _packages Examples.diamond !! pkg = None ->
          _packages self' !! pkg = Some version ->
          _resolved_versions self' !! pkg = Some version).
Proof.
  refine (proj1 install_selects_highest_satisfying_version 10 Examples.diamond "app" None
            true [("app", []); ("pkg1", []);
                  ("base", [("pkg1", ">=1.0.0"); ("pkg2", "<=1.5.0")]); ("pkg2", [])]
            (registered_reachable _) _ _ _).
  - vm_compute. reflexivity.
  - apply satisfiable_set_intro. repeat apply List.Forall_cons; [..|apply List.Forall_nil].
    + eexists _, "1.0.0". split_and!; [vm_compute; reflexivity | set_solver | constructor].
    + eexists _, "1.0.0". split_and!; [vm_compute; reflexivity | set_solver | constructor].
    + eexists _, "1.5.0". split_and!; [vm_compute; reflexivity | set_solver |].
      repeat constructor; vm_compute; reflexivity.
    + eexists _, "1.0.0". split_and!; [vm_compute; reflexivity | set_solver | constructor].
  - vm_compute. lia.
Defined.

End SatisfiableExample.

(** * Further properties of the code *)

(** ** Plain versions and the operators of [_matches_constraint] *)

Section DigitRuns.

Lemma digit_chars (c : ascii) :
  is_digit c = true ->
  is_space c = false /\ Ascii.eqb c "+" = false /\ Ascii.eqb c "-" = false
  /\ (0 <= digit_value c)%Z.
Proof.
  destruct c as [[] [] [] [] [] [] [] []]; vm_compute; intros H; try discriminate H;
    repeat split; discriminate.
Qed.

Lemma lstrip_digit (c : ascii) (l : list ascii) :
  is_digit c = true -> lstrip (c :: l) = c :: l.
Proof. intros H. simpl. by destruct (digit_chars c H) as (-> & _). Qed.

Lemma strip_digits (l : list ascii) : Forall (fun c => is_digit c = true) l -> strip l = l.
Proof.
  intros H. unfold strip. destruct l as [|c l]; [done|].
  rewrite lstrip_digit by (by inversion H).
  apply Forall_rev in H. destruct (rev (c :: l)) as [|d r] eqn:E.
  - apply (f_equal (@rev ascii)) in E. by rewrite rev_involutive in E.
  - rewrite lstrip_digit by (by inversion H). by rewrite <- E, rev_involutive.
Qed.

Lemma digits_value_digits (l : list ascii) :
  Forall (fun c => is_digit c = true) l ->
  forall acc after_digit, (0 <= acc)%Z -> l <> [] \/ after_digit = true ->
    exists n, digits_value acc after_digit l = Some n /\ (0 <= n)%Z.
Proof.
  induction 1 as [|c l Hc Hl IH]; intros acc after_digit Hacc Hne; simpl.
  - destruct Hne as [Hne| ->]; [done|]. by exists acc.
  - rewrite Hc. destruct (digit_chars c Hc) as (_ & _ & _ & Hv).
    apply IH; [lia | by right].
Qed.

Lemma count_digits_length (l : list ascii) :
  Forall (fun c => is_digit c = true) l -> count_digits l = length l.
Proof.
  unfold count_digits. induction 1 as [|c l Hc _ IH]; simpl; [done|]. rewrite Hc. simpl.
  by rewrite IH.
Qed.

Lemma length_list_ascii (s : string) : length (list_ascii_of_string s) = String.length s.
Proof. induction s as [|c s IH]; simpl; [done | by rewrite IH]. Qed.

(** A digit run of at most 4300 digits is a number for [int]. *)
Lemma int_number (part : string) :
  is_number part = true ->
  (Z.of_nat (String.length part) <=? int_max_str_digits)%Z = true ->
  exists n, int part = Some n /\ (0 <= n)%Z.
Proof.
  unfold is_number. intros [Hne Hd]%andb_prop Hshort.
  pose proof (proj1 (forallb_forall _ _) Hd) as Hd'.
  assert (Forall (fun c => is_digit c = true) (list_ascii_of_string part)) as Hall.
  { apply Forall_forall. intros c Hin. apply Hd'. by apply list_elem_of_In. }
  assert (within_limit (list_ascii_of_string part)
            (digits_value 0 false (list_ascii_of_string part))
          = digits_value 0 false (list_ascii_of_string part)) as Hlimit.
  { unfold within_limit. rewrite (count_digits_length _ Hall), length_list_ascii.
    apply Z.leb_le in Hshort. by rewrite (proj2 (Z.ltb_ge _ _) Hshort). }
  unfold int. rewrite (strip_digits _ Hall).
  destruct part as [|c rest]; [done|].
  change (list_ascii_of_string (String c rest)) with (c :: list_ascii_of_string rest) in *.
  inversion Hall as [|? ? Hc Hrest]; subst.
  destruct (digit_chars c Hc) as (_ & -> & -> & _). rewrite Hlimit.
  apply (digits_value_digits (c :: list_ascii_of_string rest) Hall 0 false); [lia | by left].
Qed.

(** Beyond the limit a digit run is not a number: [_version_tuple] keeps
    the component as a text. *)
Lemma oversized_component_stays_text (part : string) :
  is_number part = true ->
  (int_max_str_digits < Z.of_nat (String.length part))%Z ->
  int part = None /\ part_of part = PStr part.
Proof.
  unfold is_number. intros [Hne Hd]%andb_prop Hlong.
  pose proof (proj1 (forallb_forall _ _) Hd) as Hd'.
  assert (Forall (fun c => is_digit c = true) (list_ascii_of_string part)) as Hall.
  { apply Forall_forall. intros c Hin. apply Hd'. by apply list_elem_of_In. }
  assert (int part = None) as Hint; [|by unfold part_of; rewrite Hint].
  assert (forall value, within_limit (list_ascii_of_string part) value = None) as Hlimit.
  { intros value. unfold within_limit.
    rewrite (count_digits_length _ Hall), length_list_ascii.
    by rewrite (proj2 (Z.ltb_lt _ _) Hlong). }
  unfold int. rewrite (strip_digits _ Hall).
  destruct part as [|c rest]; [done|].
  change (list_ascii_of_string (String c rest)) with (c :: list_ascii_of_string rest) in *.
  inversion Hall as [|? ? Hc Hrest]; subst.
  destruct (digit_chars c Hc) as (_ & -> & -> & _). apply Hlimit.
Qed.

Lemma plain_version_numeric (version : string) :
  is_plain_version version = true ->
  is_short_version version = true ->
  Forall (fun item => exists n, item = PInt n /\ (0 <= n)%Z) (_version_tuple version).
Proof.
  unfold is_plain_version, is_short_version. intros H Hshort. rewrite version_tuple_map.
  apply Forall_map. pose proof (proj1 (forallb_forall _ _) H) as H'.
  pose proof (proj1 (forallb_forall _ _) Hshort) as Hshort'. apply Forall_forall.
  intros part Hin%list_elem_of_In. simpl. unfold part_of.
  destruct (int_number part) as (n & -> & Hn); [by apply H' | by apply Hshort'|].
  by exists n.
Qed.

End DigitRuns.

(** ** The six operators of [_matches_constraint] *)

Section Operators.

Lemma tuple_eqb_eq (v w : list py_part) : tuple_eqb v w = true <-> v = w.
Proof.
  revert w. induction v as [|a v IH]; intros [|b w]; simpl; try done.
  rewrite andb_true_iff, part_eqb_eq, IH. split; [by intros [-> ->] | by intros [= -> ->]].
Qed.

Lemma part_eqb_sym (a b : py_part) : part_eqb a b = part_eqb b a.
Proof. destruct a, b; simpl; [apply Z.eqb_sym | done | done | apply String.eqb_sym]. Qed.

(** [v > w] is [w < v], and [v >= w] is [w <= v]. *)
Lemma tuple_gt_lt (v w : list py_part) : tuple_cmp OGt v w = tuple_cmp OLt w v.
Proof.
  revert w. induction v as [|a v IH]; intros [|b w]; simpl; try done.
  rewrite (part_eqb_sym b a). destruct (part_eqb a b); [apply IH|]. by destruct a, b.
Qed.

Lemma tuple_ge_le (v w : list py_part) : tuple_cmp OGe v w = tuple_cmp OLe w v.
Proof.
  revert w. induction v as [|a v IH]; intros [|b w]; simpl; try done.
  rewrite (part_eqb_sym b a). destruct (part_eqb a b); [apply IH|]. by destruct a, b.
Qed.

Lemma string_leb_ltb (x y : string) : String.leb x y = negb (String.ltb y x).
Proof.
  unfold String.leb, String.ltb. rewrite (String.compare_antisym x y).
  by destruct (String.compare y x).
Qed.

(** [v <= w] is the negation of [w < v], with the same [TypeError]. *)
Lemma tuple_le_lt (v w : list py_part) :
  tuple_cmp OLe v w = (b ← tuple_cmp OLt w v; Return (negb b)).
Proof.
  revert w. induction v as [|a v IH]; intros [|b w]; simpl; try done.
  rewrite (part_eqb_sym b a). destruct (part_eqb a b); [apply IH|].
  destruct a as [x|x], b as [y|y]; simpl; try done; unfold mret, outcome_ret; f_equal.
  - apply Z.leb_antisym.
  - apply string_leb_ltb.
Qed.

(** Neither below the other: the tuples are equal. *)
Lemma tuple_lt_total (v w : list py_part) :
  tuple_cmp OLt v w = Return false -> tuple_cmp OLt w v = Return false -> v = w.
Proof.
  revert w. induction v as [|a v IH]; intros [|b w]; simpl; try done.
  rewrite (part_eqb_sym b a). destruct (part_eqb a b) eqn:E.
  - apply part_eqb_eq in E as ->. intros H1 H2. f_equal. by apply IH.
  - destruct a as [x|x], b as [y|y]; simpl in *; try done; intros [= H1] [= H2].
    + apply Z.eqb_neq in E. lia.
    + apply String.eqb_neq in E. by destruct E; apply string_ltb_total.
Qed.

Lemma tuple_lt_irrefl (v : list py_part) : tuple_cmp OLt v v = Return false.
Proof. rewrite tuple_cmp_refl. simpl. by rewrite Nat.ltb_irrefl. Qed.

Lemma tuple_lt_trans (u v w : list py_part) :
  tuple_cmp OLt u v = Return true -> tuple_cmp OLt v w = Return true ->
  tuple_cmp OLt u w = Return true.
Proof.
  revert v w. induction u as [|a u IH]; intros [|b v] [|c w]; simpl; try done.
  destruct (part_eqb a b) eqn:Eab.
  - apply part_eqb_eq in Eab as ->. destruct (part_eqb b c); [apply IH | done].
  - destruct (part_eqb b c) eqn:Ebc.
    + apply part_eqb_eq in Ebc as ->. by rewrite Eab.
    + destruct a as [x|x], b as [y|y], c as [z|z]; simpl in *; try done;
        intros [= H1] [= H2].
      * apply Z.ltb_lt in H1, H2. assert ((x =? z)%Z = false) as -> by lia.
        f_equal. lia.
      * pose proof (string_ltb_trans _ _ _ H1 H2) as H3.
        destruct (String.eqb_spec x z) as [->|_]; [|by rewrite H3].
        by rewrite string_ltb_irrefl in H3.
Qed.

(** Tuples of integers are always comparable. *)
Lemma numeric_tuple_cmp (op : ord_op) (v w : list py_part) :
  Forall (fun item => exists n, item = PInt n /\ (0 <= n)%Z) v ->
  Forall (fun item => exists n, item = PInt n /\ (0 <= n)%Z) w ->
  exists b, tuple_cmp op v w = Return b.
Proof.
  intros Hv. revert w. induction Hv as [|a v (x & -> & _) Hv IH]; intros w Hw.
  - destruct w; simpl; eauto.
  - destruct Hw as [|b w (y & -> & _) Hw]; simpl; [eauto|].
    destruct (x =? y)%Z; [by apply IH | eauto].
Qed.

Lemma digit_not_operator (c : ascii) :
  is_digit c = true ->
  Ascii.eqb "=" c = false /\ Ascii.eqb ">" c = false /\ Ascii.eqb "<" c = false
  /\ Ascii.eqb "~" c = false.
Proof.
  destruct c as [[] [] [] [] [] [] [] []]; vm_compute; intros H; try discriminate H; done.
Qed.

(** [re.match] on an operator followed by a plain version, and on a plain
    version alone. *)
Lemma re_match_plain (tok : string) (op : operator) (target : string) :
  (tok, op) ∈ alternatives ->
  is_plain_version target = true ->
  re_match (tok +:+ target) = Some (Some op, target).
Proof.
  intros Hin H. destruct (plain_version_first _ H) as (c & rest & Hv & Hc).
  destruct (digit_not_operator _ Hc) as (Hne & _).
  pose proof (plain_version_line _ H) as Hline.
  unfold alternatives in Hin.
  repeat (apply elem_of_cons in Hin as [[= -> ->]|Hin]); [..|by apply elem_of_nil in Hin];
    unfold re_match, alternatives; cbn [match_alternatives];
    rewrite Hv in *; cbv [append strip_prefix]; rewrite ?Hne; compare_characters;
    cbn [mbind option_bind]; by rewrite ?Hline.
Qed.

Lemma re_match_bare (target : string) :
  is_plain_version target = true -> re_match target = Some (None, target).
Proof.
  intros H. destruct (plain_version_first _ H) as (c & rest & Hv & Hc).
  destruct (digit_not_operator _ Hc) as (H1 & H2 & H3 & H4).
  pose proof (plain_version_line _ H) as Hline.
  unfold re_match, alternatives; cbn [match_alternatives].
  rewrite Hv in *. cbv [strip_prefix]. rewrite H1, H2, H3, H4.
  cbn [mbind option_bind]. by rewrite Hline.
Qed.

Lemma alternatives_elem (tok : string) (op : operator) :
  (tok, op) ∈ alternatives <->
  (tok, op) = ("==", OpEq) \/ (tok, op) = (">=", OpGe) \/ (tok, op) = ("<=", OpLe)
  \/ (tok, op) = (">", OpGt) \/ (tok, op) = ("<", OpLt) \/ (tok, op) = ("~=", OpCompat).
Proof. unfold alternatives. rewrite !elem_of_cons, elem_of_nil. tauto. Qed.

Lemma matches_operator (version target tok : string) (op : operator) :
  (tok, op) ∈ alternatives ->
  is_plain_version target = true ->
  _matches_constraint version (tok +:+ target) =
    let v_tuple := _version_tuple version in
    let t_tuple := _version_tuple target in
    match op with
    | OpEq => Return (tuple_eqb v_tuple t_tuple)
    | OpGe => b ← tuple_cmp OLt v_tuple t_tuple; Return (negb b)
    | OpLe => b ← tuple_cmp OLt t_tuple v_tuple; Return (negb b)
    | OpGt => tuple_cmp OLt t_tuple v_tuple
    | OpLt => tuple_cmp OLt v_tuple t_tuple
    | OpCompat =>
        b ← tuple_cmp OLt v_tuple t_tuple;
        Return (negb b && match v_tuple, t_tuple with
                          | x :: _, y :: _ => part_eqb x y
                          | _, _ => false
                          end)
    end.
Proof.
  intros Hin H. unfold _matches_constraint. rewrite (re_match_plain _ _ _ Hin H).
  cbn [default from_option id]. cbv zeta.
  rewrite tuple_gt_lt, tuple_ge_le, !tuple_le_lt.
  destruct op; try done.
  destruct (tuple_cmp OLt _ _) as [[|]|e]; try done. simpl.
  by destruct (_version_tuple version) as [|a v], (_version_tuple target) as [|b t].
Qed.

(** X1: two plain versions none of whose components exceeds the digit
    limit of [int] are always comparable: none of the six operators raises,
    exactly one of [<], [==] and [>] holds, [>=] is the negation of [<],
    [<=] is the negation of [>], and [~=] can only hold where [<] does
    not. *)
Theorem plain_versions_compare_totally (version target : string) :
  is_plain_version version = true ->
  is_short_version version = true ->
  is_plain_version target = true ->
  is_short_version target = true ->
  exists lt eq gt compat : bool,
    _matches_constraint version ("<" +:+ target) = Return lt
    /\ _matches_constraint version ("==" +:+ target) = Return eq
    /\ _matches_constraint version (">" +:+ target) = Return gt
    /\ _matches_constraint version (">=" +:+ target) = Return (negb lt)
    /\ _matches_constraint version ("<=" +:+ target) = Return (negb gt)
    /\ _matches_constraint version ("~=" +:+ target) = Return compat
    /\ (compat = true -> lt = false)
    /\ Nat.b2n lt + Nat.b2n eq + Nat.b2n gt = 1.
Proof.
  intros Hv Hvs Ht Hts.
  rewrite (matches_operator version target "<" OpLt), (matches_operator version target "==" OpEq),
    (matches_operator version target ">" OpGt), (matches_operator version target ">=" OpGe),
    (matches_operator version target "<=" OpLe), (matches_operator version target "~=" OpCompat)
    by (done || (apply alternatives_elem; tauto)).
  cbv zeta.
  destruct (numeric_tuple_cmp OLt _ _ (plain_version_numeric _ Hv Hvs)
              (plain_version_numeric _ Ht Hts)) as [lt Hlt].
  destruct (numeric_tuple_cmp OLt _ _ (plain_version_numeric _ Ht Hts)
              (plain_version_numeric _ Hv Hvs)) as [gt Hgt].
  exists lt, (tuple_eqb (_version_tuple version) (_version_tuple target)), gt.
  rewrite Hlt, Hgt. simpl. eexists. split_and!; try done.
  - intros [Hn _]%andb_prop. by apply negb_true_iff in Hn.
  - destruct lt, gt.
    + apply tuple_lt_asym in Hlt. congruence.
    + destruct (tuple_eqb _ _) eqn:E; [|done]. apply tuple_eqb_eq in E. rewrite E in Hlt.
      by rewrite tuple_lt_irrefl in Hlt.
    + destruct (tuple_eqb _ _) eqn:E; [|done]. apply tuple_eqb_eq in E. rewrite E in Hgt.
      by rewrite tuple_lt_irrefl in Hgt.
    + rewrite (tuple_lt_total _ _ Hlt Hgt), tuple_eqb_refl. done.
Qed.

Lemma plain_versions_compare_totally_witness :
  exists lt eq gt compat : bool,
    _matches_constraint "1.10.0" ("<" +:+ "1.9.3") = Return lt
    /\ _matches_constraint "1.10.0" ("==" +:+ "1.9.3") = Return eq
    /\ _matches_constraint "1.10.0" (">" +:+ "1.9.3") = Return gt
    /\ _matches_constraint "1.10.0" (">=" +:+ "1.9.3") = Return (negb lt)
    /\ _matches_constraint "1.10.0" ("<=" +:+ "1.9.3") = Return (negb gt)
    /\ _matches_constraint "1.10.0" ("~=" +:+ "1.9.3") = Return compat
    /\ (compat = true -> lt = false)
    /\ Nat.b2n lt + Nat.b2n eq + Nat.b2n gt = 1.
Proof. apply (plain_versions_compare_totally "1.10.0" "1.9.3"); reflexivity. Defined.

(** X2: a constraint that is a plain version without an operator means
    [==]. *)
Theorem bare_constraint_means_equality (version target : string) :
  is_plain_version target = true ->
  _matches_constraint version target = _matches_constraint version ("==" +:+ target)
  /\ (_matches_constraint version target = Return true
      <-> _version_tuple version = _version_tuple target).
Proof.
  intros H. rewrite (matches_operator version target "==" OpEq)
    by (done || (apply alternatives_elem; tauto)).
  unfold _matches_constraint. rewrite (re_match_bare _ H). simpl. split; [done|].
  rewrite <- tuple_eqb_eq. split; congruence.
Qed.

Lemma bare_constraint_means_equality_witness :
  _matches_constraint "2.28.0" "2.28.0" = _matches_constraint "2.28.0" ("==" +:+ "2.28.0")
  /\ (_matches_constraint "2.28.0" "2.28.0" = Return true
      <-> _version_tuple "2.28.0" = _version_tuple "2.28.0").
Proof. apply (bare_constraint_means_equality "2.28.0" "2.28.0"). reflexivity. Defined.

(** X3: [~=] holds exactly when [>=] holds and the first components are
    equal; the components after the first play no part in the pin. *)
Theorem compatible_release_pins_first_component (version target : string) :
  is_plain_version target = true ->
  (_matches_constraint version ("~=" +:+ target) = Return true <->
   _matches_constraint version (">=" +:+ target) = Return true
   /\ hd_error (_version_tuple version) = hd_error (_version_tuple target)).
Proof.
  intros H.
  rewrite (matches_operator version target "~=" OpCompat),
    (matches_operator version target ">=" OpGe) by (done || (apply alternatives_elem; tauto)).
  cbv zeta. destruct (tuple_cmp OLt _ _) as [b|e]; simpl; [|by split; [|intros []]].
  unfold mret, outcome_ret.
  pose proof (version_tuple_nonempty version) as Hv.
  pose proof (version_tuple_nonempty target) as Ht.
  destruct (_version_tuple version) as [|x v], (_version_tuple target) as [|y t]; try done.
  simpl. split.
  - intros [= [Hb Hd]%andb_prop]. split; [by rewrite Hb|]. by apply part_eqb_eq in Hd as ->.
  - intros [[= ->] [= ->]]. by rewrite part_eqb_refl.
Qed.

Lemma compatible_release_pins_first_component_witness :
  _matches_constraint "1.9" ("~=" +:+ "1.2.3") = Return true <->
  _matches_constraint "1.9" (">=" +:+ "1.2.3") = Return true
  /\ hd_error (_version_tuple "1.9") = hd_error (_version_tuple "1.2.3").
Proof. apply (compatible_release_pins_first_component "1.9" "1.2.3"). reflexivity. Defined.

(** X4: where the version has a text component at the first place in which
    it differs from a plain target, [==] is [False] and every ordering
    operator raises [TypeError]. *)
Theorem text_component_against_number_raises
    (version target tok : string) (op : operator)
    (common : list py_part) (s : string) (n : Z) (rest_v rest_t : list py_part) :
  is_plain_version target = true ->
  _version_tuple version = common ++ PStr s :: rest_v ->
  _version_tuple target = common ++ PInt n :: rest_t ->
  (tok, op) ∈ alternatives ->
  _matches_constraint version (tok +:+ target) =
    match op with
    | OpEq => Return false
    | _ => Raise TypeError
    end.
Proof.
  intros H Hv Ht Hin. rewrite (matches_operator _ _ _ _ Hin H). cbv zeta. rewrite Hv, Ht.
  assert (forall x y, tuple_cmp OLt (common ++ PStr s :: x) (common ++ PInt n :: y)
                      = Raise TypeError
                      /\ tuple_cmp OLt (common ++ PInt n :: y) (common ++ PStr s :: x)
                         = Raise TypeError
                      /\ tuple_eqb (common ++ PStr s :: x) (common ++ PInt n :: y) = false)
    as Hraise.
  { clear. intros x y. induction common as [|a l IH]; simpl; [done|].
    by rewrite part_eqb_refl. }
  destruct (Hraise rest_v rest_t) as (-> & -> & ->). by destruct op.
Qed.

Lemma text_component_against_number_raises_witness :
  _matches_constraint "1.0.rc1" (">=" +:+ "1.0.0") = Raise TypeError.
Proof.
  apply (text_component_against_number_raises "1.0.rc1" "1.0.0" ">=" OpGe
           [PInt 1; PInt 0] "rc1" 0 [] []); try reflexivity.
  apply alternatives_elem. tauto.
Defined.

(** X5: the order of version tuples that [sorted] and the operators use is
    a strict order wherever it is defined: no version is below itself, no
    two versions are below each other, and [<] is transitive. *)
Theorem version_order_is_strict (a b c : string) :
  tuple_cmp OLt (_version_tuple a) (_version_tuple a) = Return false
  /\ (tuple_cmp OLt (_version_tuple a) (_version_tuple b) = Return true ->
      tuple_cmp OLt (_version_tuple b) (_version_tuple a) = Return false)
  /\ (tuple_cmp OLt (_version_tuple a) (_version_tuple b) = Return true ->
      tuple_cmp OLt (_version_tuple b) (_version_tuple c) = Return true ->
      tuple_cmp OLt (_version_tuple a) (_version_tuple c) = Return true).
Proof.
  split_and!; [apply tuple_lt_irrefl | apply tuple_lt_asym | apply tuple_lt_trans].
Qed.

End Operators.

(** ** [_find_version] *)

Section FindVersion.

Lemma strongly_sorted_sublist {A : Type} (R : A -> A -> Prop) (k l : list A) :
  k `sublist_of` l -> StronglySorted R l -> StronglySorted R k.
Proof.
  induction 1 as [|x k l Hsub IH|x k l Hsub IH]; intros Hs; [done| |].
  - apply StronglySorted_inv in Hs as [Hs Hx]. constructor; [by apply IH|].
    apply List.Forall_forall. intros y Hy. rewrite List.Forall_forall in Hx.
    apply Hx, list_elem_of_In. eapply elem_of_sublist; [|done]. by apply list_elem_of_In.
  - apply StronglySorted_inv in Hs as [Hs _]. by apply IH.
Qed.

(** X6: what [_find_version] returns for a registered package whose
    versions are stored ascending: a published version that the constraint
    admits and that no other admitted version exceeds; [None] only when the
    constraint admits no published version. Without a constraint every
    version is admitted. *)
Theorem find_version_returns_highest_match
    (registry : gmap string package_entry) (name : string)
    (constraint : option string) (entry : package_entry) (result : option string) :
  registry !! name = Some entry ->
  StronglySorted version_le (versions entry) ->
  _find_version registry name constraint = Return result ->
  match result with
  | Some version =>
      version ∈ versions entry
      /\ (forall c, constraint = Some c -> _matches_constraint version c = Return true)
      /\ (forall w, w ∈ versions entry ->
                    (forall c, constraint = Some c -> _matches_constraint w c = Return true) ->
                    version_le w version)
  | None =>
      forall w, w ∈ versions entry ->
                exists c, constraint = Some c /\ _matches_constraint w c = Return false
  end.
Proof.
  intros Hreg Hsorted. unfold _find_version. rewrite Hreg.
  destruct (versions entry) as [|v0 vs0] eqn:Hvs.
  { intros [= <-]. intros w Hw. by apply elem_of_nil in Hw. }
  rewrite <- Hvs in *. clear Hvs v0 vs0.
  assert (forall kept version,
             kept `sublist_of` versions entry -> last kept = Some version ->
             forall w, w ∈ kept -> version_le w version) as Hlast.
  { intros kept version Hsub [l ->]%last_Some w Hw.
    pose proof (strongly_sorted_sublist _ _ _ Hsub Hsorted) as Hs.
    apply elem_of_app in Hw as [Hw|Hw].
    - by eapply strongly_sorted_before.
    - apply list_elem_of_singleton in Hw as ->. apply version_le_refl. }
  destruct constraint as [c|].
  - unfold matching_versions.
    destruct (for_each _ _ _) as [m|e] eqn:E; simpl; [|done].
    apply matching_versions_kept in E as (kept & -> & Hsub & Hall & Hin & Hout).
    simpl. intros [= <-]. destruct (last kept) as [version|] eqn:El.
    + pose proof (last_Some_elem_of _ _ El) as Hv. split_and!.
      * by eapply elem_of_sublist.
      * intros c' [= <-]. rewrite List.Forall_forall in Hall. by apply Hall, list_elem_of_In.
      * intros w Hw Hm. apply (Hlast kept); [done..|]. apply Hin; [done|]. by apply Hm.
    + apply last_None in El as ->. intros w Hw. exists c. split; [done|].
      apply Hout; [done|]. apply not_elem_of_nil.
  - intros [= <-]. destruct (last (versions entry)) as [version|] eqn:El.
    + split_and!; [by apply last_Some_elem_of | done |].
      intros w Hw _. by apply (Hlast (versions entry)).
    + apply last_None in El. rewrite El. intros w Hw. by apply elem_of_nil in Hw.
Qed.

Lemma find_version_returns_highest_match_witness :
  "1.5.0" ∈ ["1.0.0"; "1.5.0"; "2.0.0"]
  /\ (forall c, Some "<=1.5.0" = Some c -> _matches_constraint "1.5.0" c = Return true)
  /\ (forall w, w ∈ ["1.0.0"; "1.5.0"; "2.0.0"] ->
                (forall c, Some "<=1.5.0" = Some c -> _matches_constraint w c = Return true) ->
                version_le w "1.5.0").
Proof.
  refine (find_version_returns_highest_match
            (<["base" := {| versions := ["1.0.0"; "1.5.0"; "2.0.0"]; dependencies := ∅ |}]> ∅)
            "base" (Some "<=1.5.0")
            {| versions := ["1.0.0"; "1.5.0"; "2.0.0"]; dependencies := ∅ |}
            (Some "1.5.0") _ _ _).
  - apply lookup_insert_eq.
  - repeat constructor; vm_compute; reflexivity.
  - vm_compute. reflexivity.
Defined.

End FindVersion.

(** ** [register_package] *)

Section Register.

Import Stage4.

Lemma insert_sorted_raises {A K : Type} (lt : K -> K -> outcome bool) (key : A -> K)
    (x : A) (l : list A) (e : py_exception) :
  insert_sorted lt key x l = Raise e -> exists y, y ∈ l /\ lt (key x) (key y) = Raise e.
Proof.
  induction l as [|y l IH]; simpl; [done|].
  destruct (lt (key x) (key y)) as [[|]|e'] eqn:E; simpl; [done| |].
  - destruct (insert_sorted lt key x l) as [r|e'] eqn:E'; simpl; [done|].
    intros [= ->]. destruct (IH eq_refl) as (z & Hz & Hlt). exists z. split; [by right | done].
  - intros [= ->]. exists y. split; [by left | done].
Qed.

Lemma sort_versions_raises (vs : list string) (e : py_exception) :
  sort_versions vs = Raise e -> e = TypeError.
Proof.
  unfold sort_versions, sorted. intros (acc & x & _ & H)%for_each_raises.
  apply insert_sorted_raises in H as (y & _ & H). by eapply tuple_cmp_raises.
Qed.

Lemma insert_sorted_returns {A K : Type} (lt : K -> K -> outcome bool) (key : A -> K)
    (x : A) (l : list A) :
  (forall y, y ∈ l -> exists b, lt (key x) (key y) = Return b) ->
  exists r, insert_sorted lt key x l = Return r.
Proof.
  induction l as [|y l IH]; intros Hall; simpl; [by eexists|].
  destruct (Hall y) as [b ->]; [by left|]. simpl. destruct b; [by eexists|].
  destruct IH as [r ->]; [intros z Hz; apply Hall; by right|]. simpl. by eexists.
Qed.

Lemma sort_plain_versions (vs : list string) :
  Forall (fun v => is_plain_version v && is_short_version v = true) vs ->
  exists sorted_vs, sort_versions vs = Return sorted_vs.
Proof.
  unfold sort_versions, sorted.
  assert (Forall (fun v => is_plain_version v && is_short_version v = true) (@nil string))
    as Hacc by constructor.
  revert Hacc. generalize (@nil string) as acc.
  induction vs as [|x vs IH]; intros acc Hacc Hvs; simpl; [by eexists|].
  apply Forall_cons in Hvs as [Hx Hvs].
  destruct (insert_sorted_returns (tuple_cmp OLt) _version_tuple x acc) as [r Hr].
  { intros y Hy. rewrite Forall_forall in Hacc.
    apply andb_prop in Hx as [? ?]. destruct (andb_prop _ _ (Hacc y Hy)) as [? ?].
    by apply numeric_tuple_cmp; apply plain_version_numeric. }
  rewrite Hr. apply IH; [|done].
  apply insert_sorted_perm in Hr. rewrite Hr. by constructor.
Qed.

(** X7: [register_package] stores the versions of the package in ascending
    order (a rearrangement of the list it was given) together with the
    given dependencies, replaces what was registered under the name, and
    touches neither the other packages nor what is installed; when two
    versions cannot be compared it raises [TypeError] and registers
    nothing. *)
Theorem register_package_stores_sorted_versions
    (self : PackageManager) (name : string) (vs : list string)
    (deps : option (gmap string (list dependency))) :
  match register_package self name vs deps with
  | (Return _, self') =>
      exists sorted_vs,
        _registry self' !! name
          = Some {| versions := sorted_vs; dependencies := default ∅ deps |}
        /\ StronglySorted version_le sorted_vs
        /\ sorted_vs ≡ₚ vs
        /\ (forall other, other <> name ->
                          _registry self' !! other = _registry self !! other)
        /\ _packages self' = _packages self
  | (Raise e, self') => e = TypeError /\ self' = self
  end.
Proof.
  unfold register_package, register.
  destruct (sort_versions vs) as [sorted_vs|e] eqn:E; simpl.
  - destruct (sort_versions_ascending _ _ E) as [Hs Hp].
    exists sorted_vs. split_and!; try done.
    + apply lookup_insert_eq.
    + intros other Hne. by apply lookup_insert_ne.
  - split; [by eapply sort_versions_raises | done].
Qed.

(** X8: a list of plain versions none of whose components exceeds the
    digit limit of [int] can always be registered. *)
Theorem register_plain_versions_succeeds
    (self : PackageManager) (name : string) (vs : list string)
    (deps : option (gmap string (list dependency))) :
  Forall (fun v => is_plain_version v && is_short_version v = true) vs ->
  exists self', register_package self name vs deps = (Return (), self').
Proof.
  intros [sorted_vs E]%sort_plain_versions. unfold register_package, register.
  rewrite E. simpl. by eexists.
Qed.

Lemma register_plain_versions_succeeds_witness :
  exists self', register_package new "base" ["2.0.0"; "1.0.0"; "1.10.0"] None
                = (Return (), self').
Proof.
  apply (register_plain_versions_succeeds new "base" ["2.0.0"; "1.0.0"; "1.10.0"] None).
  repeat constructor.
Defined.

End Register.

(** ** What [install] (stage 4) adds *)

Section InstalledEntries.

Import Stage4.

Context (registry : gmap string package_entry) (resolved : gmap string string).

Lemma add_all_None (added : list (string * string)) (m : gmap string string)
    (name : string) :
  add_all added m !! name = None -> m !! name = None.
Proof.
  intros H. destruct (m !! name) eqn:E; [|done].
  destruct (add_all_keeps added m name) as [v Hv]; [by rewrite E | congruence].
Qed.

Lemma add_all_fresh (added : list (string * string)) (m : gmap string string) :
  NoDup (map fst added) ->
  forall name version,
    add_all added m !! name = Some version <->
    (name, version) ∈ added \/ ((name ∉ map fst added) /\ m !! name = Some version).
Proof.
  revert m. induction added as [|[n v] l IH]; intros m Hnd name version; simpl.
  - split; [intros H; right; split; [apply not_elem_of_nil | done]|].
    intros [H|[_ H]]; [by apply elem_of_nil in H | done].
  - apply NoDup_cons in Hnd as [Hn Hnd]. unfold add_all in *. simpl.
    rewrite (IH _ Hnd). rewrite !elem_of_cons.
    destruct (decide (n = name)) as [->|Hne].
    + rewrite lookup_insert_eq. split.
      * intros [H|[_ [= ->]]]; [|by left; left].
        destruct Hn. apply list_elem_of_fmap. by exists (name, version).
      * intros [[[= ->]|H]|[H _]]; [|by left|].
        -- right. split; [done|done].
        -- destruct H. by left.
    + rewrite lookup_insert_ne by done. split.
      * intros [H|[H1 H2]]; [left; by right | right; split; [|done]].
        intros [->|H]; done.
      * intros [[[= -> ->]|H]|[H1 H2]]; [done | by left | right; split; [|done]].
        intros H. apply H1. by right.
Qed.

Lemma installs_new_refl (st : progress) : installs_new st st.
Proof.
  exists []. simpl. rewrite app_nil_r. split_and!; try done; constructor.
Qed.

Lemma installs_new_trans (st1 st2 st3 : progress) :
  installs_new st1 st2 -> installs_new st2 st3 -> installs_new st1 st3.
Proof.
  intros (a & Hi1 & Hp1 & Hn1 & Hf1 & Hv1) (b & Hi2 & Hp2 & Hn2 & Hf2 & Hv2).
  rewrite Forall_forall in Hf1, Hf2.
  exists (a ++ b). split_and!.
  - by rewrite Hi2, Hi1, map_app, app_assoc.
  - by rewrite Hp2, Hp1, add_all_app.
  - rewrite map_app. apply NoDup_app. split_and!; [done| |done].
    intros n (x & -> & Hx)%list_elem_of_fmap (y & Hxy & Hy)%list_elem_of_fmap.
    destruct (Hf1 _ Hx) as (_ & _ & Hin). destruct (Hf2 _ Hy) as (_ & Hout & _).
    rewrite <- Hxy in Hout. set_solver.
  - apply Forall_app. split; apply Forall_forall; intros x Hx.
    + destruct (Hf1 _ Hx) as (? & ? & ?). split_and!; [done | done | set_solver].
    + destruct (Hf2 _ Hx) as (Hnone & ? & ?). split_and!; [|set_solver|done].
      rewrite Hp1 in Hnone. by eapply add_all_None.
  - set_solver.
Qed.

Lemma install_ordered_installs_new (depth : nat) :
  forall name st result st',
    _install_ordered depth registry resolved name st = (result, st') ->
    installs_new st st'.
Proof.
  induction depth as [|depth IH]; intros name st result st'; simpl.
  { intros [= _ <-]. apply installs_new_refl. }
  case_bool_decide as Hinst; [intros [= _ <-]; apply installs_new_refl|].
  case_bool_decide as Hvis; [intros [= _ <-]; apply installs_new_refl|].
  destruct (registry !! name) as [entry|] eqn:Hreg;
    [|intros [= _ <-]; apply installs_new_refl].
  set (st1 := {| pkgs := pkgs st; installed := installed st;
                 visiting := {[name]} ∪ visiting st |}).
  assert (installs_new st st1) as H1.
  { exists []. simpl. rewrite app_nil_r.
    split_and!; [done | done | constructor | constructor | set_solver]. }
  destruct (resolved !! name) as [version|] eqn:Hres; [|by intros [= _ <-]].
  destruct (all_succeed _ _ st1) as [r st2] eqn:Hloop.
  assert (installs_new st1 st2) as H2.
  { revert Hloop. apply all_succeed_relation;
      [apply installs_new_refl | apply installs_new_trans |].
    intros dep s r0 s' _. apply IH. }
  destruct r as [[|]|e]; intros [= _ <-];
    [|by eapply installs_new_trans|by eapply installs_new_trans].
  destruct H2 as (added & Hi & Hp & Hnd & Hf & Hv).
  exists (added ++ [(name, version)]). simpl. split_and!.
  - rewrite Hi, map_app, app_assoc. done.
  - rewrite Hp, add_all_app. done.
  - rewrite map_app. apply NoDup_app. split_and!; [done| |apply NoDup_singleton].
    intros n (x & -> & Hx)%list_elem_of_fmap Hn. simpl in Hn.
    apply list_elem_of_singleton in Hn. rewrite Forall_forall in Hf.
    destruct (Hf _ Hx) as (_ & Hout & _). simpl in Hout. set_solver.
  - apply Forall_app. split.
    + eapply Forall_impl; [exact Hf|]. simpl. intros item (? & ? & ?).
      split_and!; [done | set_solver | done].
    + constructor; [|constructor]. simpl. split_and!; [|done|set_solver].
      by apply eq_None_not_Some.
  - simpl in Hv. set_solver.
Qed.

End InstalledEntries.

Section InstallReports.

Import Stage4.

(** X9: what [install] reports as installed is exactly what it added to
    the installed packages: one entry [name==version] for each package
    that was not installed before, none of them twice, and the packages
    installed before keep their versions. This holds for a run that ends
    in failure or in [RecursionError] too. *)
Theorem install_reports_exactly_the_new_packages
    (depth : nat) (self : PackageManager) (name : string) (constraint : option string)
    (resolve_conflicts : bool) :
  let run := install depth self name constraint resolve_conflicts in
  exists added : list (string * string),
    NoDup (map fst added)
    /\ Forall (fun item => _packages self !! fst item = None) added
    /\ (forall pkg version,
          _packages (snd run) !! pkg = Some version <->
          (pkg, version) ∈ added \/ _packages self !! pkg = Some version)
    /\ (forall ok inst conflicts,
          fst run = Return (ok, inst, conflicts) -> inst = map entry_text added).
Proof.
  cbv zeta.
  pose proof (install_runs depth self name constraint resolve_conflicts) as Hrun.
  revert Hrun. generalize (install depth self name constraint resolve_conflicts).
  intros run Hrun.
  destruct Hrun as [Hnone|e Hsome Hcollect|reqs e Hsome Hcollect Hselect
                    |reqs conflicts rs Hsome Hcollect Hselect Hconf
                    |reqs rs result st Hsome Hcollect Hselect Hordered];
    try (exists []; simpl; split_and!;
         [constructor | constructor
          | intros pkg version; rewrite elem_of_nil; tauto
          | by intros ok inst cs [= _ <- _] || done ]).
  apply install_ordered_installs_new in Hordered as (added & Hi & Hp & Hnd & Hf & _).
  simpl in *. exists added. split_and!.
  - done.
  - eapply Forall_impl; [exact Hf|]. by intros item (? & _).
  - intros pkg version. rewrite Hp, (add_all_fresh _ _ Hnd).
    split; [intros [H|[_ H]]; [by left | by right]|].
    intros [H|H]; [by left|]. right. split; [|done].
    intros (item & -> & Hitem)%list_elem_of_fmap.
    rewrite Forall_forall in Hf. destruct (Hf _ Hitem) as (Hnone & _). congruence.
  - destruct result as [success|e]; [|done]. by intros ok inst conflicts [= _ <- _].
Qed.

End InstallReports.

(** ** What a successful [install] (stage 4) leaves installed *)

Section Closure.

Import Stage4.

(** A loop of which every turn succeeded: an invariant of the state holds
    at the end, and so does, for each element, what its turn established if
    later turns keep it. *)
Lemma all_succeed_each {A S : Type} (I : S -> Prop) (Q : A -> S -> Prop)
    (step : A -> S -> outcome bool * S) (l : list A) :
  (forall x s s', x ∈ l -> I s -> step x s = (Return true, s') ->
                  I s' /\ Q x s' /\ forall y, Q y s -> Q y s') ->
  forall s s', I s -> all_succeed step l s = (Return true, s') ->
               I s' /\ Forall (fun x => Q x s') l /\ forall y, Q y s -> Q y s'.
Proof.
  induction l as [|x l IH]; intros Hstep s s' Hs; simpl.
  - intros [= <-]. split_and!; [done | constructor | done].
  - destruct (step x s) as [r s1] eqn:E. destruct r as [[|]|e]; [|done|done].
    destruct (Hstep x s s1) as (H1 & Hx & Hkeep); [by left | done | done |].
    intros Hrest. destruct (IH (fun y s0 s0' Hy => Hstep y s0 s0' (list_elem_of_further _ _ _ Hy))
                               s1 s' H1 Hrest) as (H' & Hall & Hkeep').
    split_and!; [done | constructor; [by apply Hkeep' | done] | intros y Hy; by apply Hkeep', Hkeep].
Qed.

Context (registry : gmap string package_entry) (resolved : gmap string string).

Lemma installs_keeps (st st' : progress) (name : string) :
  installs registry resolved st st' ->
  is_Some (pkgs st !! name) -> is_Some (pkgs st' !! name).
Proof. intros (added & _ & -> & _) H. by apply add_all_keeps. Qed.

Lemma install_ordered_dependencies_met (depth : nat) :
  forall name st st',
    _install_ordered depth registry resolved name st = (Return true, st') ->
    dependencies_met registry resolved st st'.
Proof.
  induction depth as [|depth IH]; intros name st st'; simpl; [done|].
  assert (dependencies_met registry resolved st st) as Hrefl.
  { split_and!; [done | by left |]. intros n entry version dep Hnone [v Hv]. congruence. }
  case_bool_decide as Hinst; [by intros [= <-]|].
  case_bool_decide as Hvis; [by intros [= <-]|].
  destruct (registry !! name) as [entry|] eqn:Hreg; [|done].
  set (st1 := {| pkgs := pkgs st; installed := installed st;
                 visiting := {[name]} ∪ visiting st |}).
  destruct (resolved !! name) as [version|] eqn:Hres; [|done].
  destruct (all_succeed _ _ st1) as [r st2] eqn:Hloop.
  destruct r as [[|]|e]; [|done|done]. intros [= <-].
  apply (all_succeed_each
           (fun s => dependencies_met registry resolved st1 s)
           (fun (dep : dependency) s =>
              is_Some (pkgs s !! fst dep) \/ fst dep ∈ visiting st1)) in Hloop
    as ((Hkeep & Hvisited & Hdeps) & Hall & _).
  - split_and!; simpl.
    + intros n Hn. destruct (decide (name = n)) as [->|Hne];
        [by rewrite lookup_insert_eq | rewrite lookup_insert_ne by done; by apply Hkeep].
    + intros n Hn. destruct (decide (name = n)) as [->|Hne];
        [right; by rewrite lookup_insert_eq|]. rewrite lookup_insert_ne by done.
      destruct (Hvisited n Hn) as [Hn1|Hn1]; [|by right]. left. simpl in Hn1. set_solver.
    + intros n entry' version' dep Hnone Hsome Hreg' Hres' Hdep.
      assert (forall d, is_Some (pkgs st2 !! d) \/ d ∈ visiting st1 ->
                        is_Some (<[name := version]> (pkgs st2) !! d) \/ d ∈ visiting st)
        as Hfinal.
      { intros d [Hd|Hd].
        - left. destruct (decide (name = d)) as [->|Hne];
            [by rewrite lookup_insert_eq | by rewrite lookup_insert_ne].
        - simpl in Hd. apply elem_of_union in Hd as [->%elem_of_singleton|Hd]; [|by right].
          left. by rewrite lookup_insert_eq. }
      apply Hfinal. destruct (decide (name = n)) as [->|Hne].
      * assert (entry' = entry) as -> by congruence.
        assert (version' = version) as -> by congruence.
        rewrite Forall_forall in Hall. by apply Hall.
      * rewrite lookup_insert_ne in Hsome by done.
        by eapply (Hdeps n entry' version' dep).
  - intros dep s s' _ (Hkeep & Hvisited & Hdeps) Hstep.
    pose proof (install_ordered_installs _ _ _ _ _ _ _ Hstep) as Hinstalls.
    pose proof (fun n => installs_keeps _ _ n Hinstalls) as Hmono. clear Hinstalls.
    pose proof (install_ordered_success _ _ _ _ _ _ Hstep) as Hdone.
    apply IH in Hstep as (_ & Hvisited' & Hdeps').
    assert (forall d, is_Some (pkgs s' !! d) \/ d ∈ visiting s ->
                      is_Some (pkgs s' !! d) \/ d ∈ visiting st1) as Hback.
    { intros d [Hd|Hd]; [by left|]. destruct (Hvisited d Hd) as [?|?]; [by right|].
      left. by apply Hmono. }
    split_and!.
    + split_and!.
      * intros n Hn. by apply Hmono, Hkeep.
      * intros n Hn. destruct (Hvisited' n Hn) as [Hn1|Hn1]; [|by right].
        destruct (Hvisited n Hn1) as [?|?]; [by left|]. right. by apply Hmono.
      * intros n entry' version' d Hnone Hsome Hreg' Hres' Hd.
        destruct (pkgs s !! n) as [v|] eqn:Hs.
        -- destruct (Hdeps n entry' version' d) as [?|?]; try done; [|by right].
           left. by apply Hmono.
        -- apply Hback. by eapply Hdeps'.
    + by apply Hback.
    + intros d [Hd|Hd]; [left; by apply Hmono | by right].
  - split_and!; [done | by left |]. intros n entry' version' dep Hnone [v Hv].
    congruence.
Qed.

End Closure.

Section InstallSucceeds.

Import Stage4.

(** X10: after [install] returned success, the package it was asked for is
    installed, and so is every dependency that the registry lists for one
    of the packages the call installed, at the version it was installed
    at. *)
Theorem successful_install_leaves_dependencies_installed
    (depth : nat) (self self' : PackageManager) (name : string)
    (constraint : option string) (resolve_conflicts : bool)
    (inst : list string) (conflicts : list Conflict) :
  install depth self name constraint resolve_conflicts
    = (Return (true, inst, conflicts), self') ->
  is_Some (_packages self' !! name)
  /\ forall pkg version entry dep,
       _packages self !! pkg = None ->
       _packages self' !! pkg = Some version ->
       _registry self !! pkg = Some entry ->
       dep ∈ default [] (dependencies entry !! version) ->
       is_Some (_packages self' !! fst dep).
Proof.
  pose proof (install_runs depth self name constraint resolve_conflicts) as Hrun.
  revert Hrun. generalize (install depth self name constraint resolve_conflicts).
  intros run Hrun.
  destruct Hrun as [Hnone|e Hsome Hcollect|reqs e Hsome Hcollect Hselect
                    |reqs cs rs Hsome Hcollect Hselect Hconf
                    |reqs rs result st Hsome Hcollect Hselect Hordered]; try done.
  destruct result as [[|]|e]; try done. intros [= <- _ <-]. simpl.
  pose proof (install_ordered_success _ _ _ _ _ _ Hordered) as Hroot.
  pose proof (install_ordered_installs _ _ _ _ _ _ _ Hordered) as (added & _ & Hp & Hall & _).
  apply install_ordered_dependencies_met in Hordered as (_ & _ & Hdeps).
  simpl in *. split; [destruct Hroot as [?|?]; [done | set_solver]|].
  intros pkg version entry dep Hnone Hsome' Hreg Hdep.
  assert (rs !! pkg = Some version) as Hres.
  { rewrite Hp in Hsome'. apply add_all_lookup in Hsome' as [?|Hin]; [congruence|].
    rewrite List.Forall_forall in Hall. by apply list_elem_of_In, Hall in Hin as [Hres _]. }
  assert (is_Some (pkgs st !! pkg)) as Hsome'' by (by rewrite Hsome').
  destruct (Hdeps pkg entry version dep Hnone Hsome'' Hreg Hres Hdep) as [?|?];
    [done | set_solver].
Qed.

Lemma successful_install_leaves_dependencies_installed_witness :
  is_Some (_packages Examples.requests_installed !! "requests")
  /\ forall pkg version entry dep,
       _packages Examples.requests !! pkg = None ->
       _packages Examples.requests_installed !! pkg = Some version ->
       _registry Examples.requests !! pkg = Some entry ->
       dep ∈ default [] (dependencies entry !! version) ->
       is_Some (_packages Examples.requests_installed !! fst dep).
Proof.
  refine (successful_install_leaves_dependencies_installed
            10 Examples.requests Examples.requests_installed "requests" None true
            ["urllib3==1.26.0"; "requests==2.28.0"] [] _).
  vm_compute. reflexivity.
Defined.

(** X11: installing, without a constraint, a package that is not installed
    and whose latest version has no dependencies installs that version and
    nothing else. *)
Theorem install_without_dependencies
    (depth : nat) (self : PackageManager) (name : string) (entry : package_entry)
    (older : list string) (latest : string) (resolve_conflicts : bool) :
  _registry self !! name = Some entry ->
  versions entry = older ++ [latest] ->
  default [] (dependencies entry !! latest) = [] ->
  _packages self !! name = None ->
  install (S depth) self name None resolve_conflicts
  = (Return (true, [name +:+ "==" +:+ latest], []),
     {| _packages := <[name := latest]> (_packages self);
        _registry := _registry self;
        _resolved_versions := <[name := latest]> ∅ |}).
Proof.
  intros Hreg Hvs Hdeps Hnone.
  assert (_find_version (_registry self) name None = Return (Some latest)) as Hfind.
  { unfold _find_version. rewrite Hreg, Hvs.
    pose proof (last_snoc latest older) as Hlast.
    destruct (older ++ [latest]); [done | by rewrite Hlast]. }
  unfold install. rewrite Hreg, collect_unfold.
  cbn [od_mem od_get od_set]. cbv zeta. rewrite Hreg, Hfind.
  cbn [mbind outcome_bind]. rewrite Hdeps. cbn [for_each].
  unfold select_versions, select_version. cbn [for_each]. rewrite Hreg, Hvs.
  rewrite rev_app_distr. cbn [rev app map first_compatible all_match mbind outcome_bind].
  rewrite install_ordered_unfold. cbn [pkgs visiting installed].
  rewrite (not_installed _ _ Hnone).
  rewrite (bool_decide_eq_false_2 (name ∈ (∅ : gset string))) by set_solver.
  rewrite Hreg. cbv zeta. rewrite lookup_insert_eq, Hdeps. reflexivity.
Qed.

Lemma install_without_dependencies_witness :
  install (S 0) Examples.requests "urllib3" None true
  = (Return (true, ["urllib3" +:+ "==" +:+ "1.26.0"], []),
     {| _packages := <["urllib3" := "1.26.0"]> (_packages Examples.requests);
        _registry := _registry Examples.requests;
        _resolved_versions := <["urllib3" := "1.26.0"]> ∅ |}).
Proof.
  refine (install_without_dependencies 0 Examples.requests "urllib3"
            {| versions := ["1.26.0"]; dependencies := ∅ |} [] "1.26.0" true _ _ _ _);
    vm_compute; reflexivity.
Defined.

(** X12: when the dependencies that carry no constraint lead from a
    package round in a circle (each package of a set has, as the first
    dependency of its latest version, a package of the set, without a
    constraint), collection never stops: [install] exhausts every recursion
    budget and changes nothing. *)
Theorem unconstrained_cycle_never_ends
    (loop : string -> Prop) (depth : nat) (self : PackageManager) (name : string)
    (resolve_conflicts : bool) :
  (forall pkg, loop pkg ->
     exists entry latest next rest,
       _registry self !! pkg = Some entry
       /\ last (versions entry) = Some latest
       /\ dependencies entry !! latest = Some ((next, None) :: rest)
       /\ loop next) ->
  loop name ->
  install depth self name None resolve_conflicts = (Raise RecursionError, self).
Proof.
  intros Hloop Hname.
  assert (forall pkg requirements requirer,
             loop pkg ->
             _collect_requirements depth (_registry self) pkg None requirements requirer
             = Raise RecursionError) as Hcollect.
  { induction depth as [|d IH]; intros pkg reqs requirer Hpkg; [done|].
    destruct (Hloop pkg Hpkg) as (entry & latest & next & rest & Hreg & Hlast & Hdeps & Hnext).
    rewrite collect_unfold. cbv zeta. rewrite Hreg.
    assert (_find_version (_registry self) pkg None = Return (Some latest)) as ->.
    { unfold _find_version. rewrite Hreg. destruct (versions entry); [done|]. by rewrite Hlast. }
    cbn [mbind outcome_bind]. rewrite Hdeps. cbn [default from_option id for_each].
    by rewrite already_required_None, IH. }
  unfold install. destruct (Hloop name Hname) as (entry & _ & _ & _ & -> & _).
  by rewrite Hcollect.
Qed.

Lemma unconstrained_cycle_never_ends_witness :
  install 1000 Examples.unconstrained_cycle "a" None true
  = (Raise RecursionError, Examples.unconstrained_cycle).
Proof.
  refine (unconstrained_cycle_never_ends (fun pkg => pkg = "a" \/ pkg = "b") 1000
            Examples.unconstrained_cycle "a" true _ _); [|by left].
  intros pkg [-> | ->].
  - exists {| versions := ["1.0.0"]; dependencies := {[ "1.0.0" := [("b", None)] ]} |},
      "1.0.0", "b", []. split_and!; [vm_compute; reflexivity..| by right].
  - exists {| versions := ["1.0.0"]; dependencies := {[ "1.0.0" := [("a", None)] ]} |},
      "1.0.0", "a", []. split_and!; [vm_compute; reflexivity..| by left].
Defined.

End InstallSucceeds.

(** ** Installed packages, their listing and the lock file *)

Section Listing.

Import Stage4.

(** X13: whatever sequence of [register_package], [install] and
    [install_from_lockfile] calls led to a manager, each of its installed
    packages is registered. *)
Theorem every_installed_package_is_registered (self : PackageManager) (name : string) :
  reachable self ->
  is_installed self name = true ->
  is_Some (_registry self !! name).
Proof.
  intros Hreach Hinst. apply reachable_installed_registered; [done|].
  unfold is_installed in Hinst. by apply bool_decide_eq_true in Hinst.
Qed.

Lemma every_installed_package_is_registered_witness :
  is_Some (_registry Examples.requests_installed !! "urllib3").
Proof.
  apply (every_installed_package_is_registered Examples.requests_installed "urllib3").
  - apply reach_install, registered_reachable.
  - vm_compute. reflexivity.
Defined.

(** X14: [list_packages] lists each installed package once with its
    version, in strictly ascending order of the names; the lock file holds
    the same items in the same order. *)
Theorem list_packages_is_sorted_and_complete (self : PackageManager) :
  StronglySorted (fun a b => String.ltb a b = true) (map fst (list_packages self))
  /\ (forall name version,
        (name, version) ∈ list_packages self <-> get_version self name = Some version)
  /\ generate_lockfile self = list_packages self.
Proof.
  split_and!; [apply generate_lockfile_ascending | | done].
  intros name version. unfold list_packages, get_version.
  rewrite sorted_total_perm. apply elem_of_map_to_list.
Qed.

(** X15: restoring the same lock file a second time changes nothing. *)
Theorem install_from_lockfile_is_idempotent
    (self : PackageManager) (lockfile : odict string) :
  NoDup (od_keys lockfile) ->
  install_from_lockfile (snd (install_from_lockfile self lockfile)) lockfile
  = install_from_lockfile self lockfile.
Proof.
  intros Hnd. unfold install_from_lockfile. simpl. f_equal. f_equal.
  apply map_eq. intros name. rewrite !restore_lookup by done.
  destruct (od_get name lockfile); [|done]. by case_bool_decide.
Qed.

Lemma install_from_lockfile_is_idempotent_witness :
  install_from_lockfile
    (snd (install_from_lockfile Examples.requests
            [("requests", "2.27.0"); ("ghost", "0.1")]))
    [("requests", "2.27.0"); ("ghost", "0.1")]
  = install_from_lockfile Examples.requests [("requests", "2.27.0"); ("ghost", "0.1")].
Proof.
  apply (install_from_lockfile_is_idempotent Examples.requests
           [("requests", "2.27.0"); ("ghost", "0.1")]).
  apply (bool_decide_unpack _). vm_compute. exact I.
Defined.

(** X16: [install] called again with the same arguments right after it
    succeeded installs nothing, reports success and leaves the manager as
    it is. *)
Theorem repeated_install_is_a_no_op
    (depth : nat) (self self' : PackageManager) (name : string)
    (constraint : option string) (resolve_conflicts : bool)
    (inst : list string) (conflicts : list Conflict) :
  install depth self name constraint resolve_conflicts
    = (Return (true, inst, conflicts), self') ->
  install depth self' name constraint resolve_conflicts = (Return (true, [], []), self').
Proof.
  pose proof (install_runs depth self name constraint resolve_conflicts) as Hrun.
  revert Hrun. generalize (install depth self name constraint resolve_conflicts).
  intros run Hrun.
  destruct Hrun as [Hnone|e Hsome Hcollect|reqs e Hsome Hcollect Hselect
                    |reqs cs rs Hsome Hcollect Hselect Hconf
                    |reqs rs result st Hsome Hcollect Hselect Hordered]; try done.
  destruct result as [[|]|e]; try done. intros [= <- _ <-].
  pose proof (install_ordered_success _ _ _ _ _ _ Hordered) as [Hroot|Hroot];
    [|set_solver].
  unfold install. simpl. destruct Hsome as [entry ->]. rewrite Hcollect, Hselect.
  destruct depth as [|depth]; [done|].
  rewrite install_ordered_unfold. simpl.
  by rewrite bool_decide_eq_true_2.
Qed.

Lemma repeated_install_is_a_no_op_witness :
  install 10 Examples.requests_installed "requests" None true
  = (Return (true, [], []), Examples.requests_installed).
Proof.
  refine (repeated_install_is_a_no_op 10 Examples.requests Examples.requests_installed
            "requests" None true ["urllib3==1.26.0"; "requests==2.28.0"] [] _).
  vm_compute. reflexivity.
Defined.

End Listing.

(** ** Stage 3: [install] and [check_constraint] *)

Section Stage3Install.

Import Stage3.

Lemma find_version_registered (registry : gmap string package_entry) (name : string)
    (constraint : option string) (version : string) :
  _find_version registry name constraint = Return (Some version) ->
  is_Some (registry !! name).
Proof. unfold _find_version. by destruct (registry !! name). Qed.

Lemma find_version_matches (registry : gmap string package_entry) (name c version : string) :
  _find_version registry name (Some c) = Return (Some version) ->
  _matches_constraint version c = Return true.
Proof.
  unfold _find_version. destruct (registry !! name) as [entry|]; [|done].
  destruct (versions entry) as [|v vs]; [done|]. unfold matching_versions.
  destruct (for_each _ _ _) as [m|e] eqn:E; simpl; [|done].
  apply matching_versions_kept in E as (kept & -> & _ & Hall & _).
  simpl. intros [= Hlast]. apply last_Some_elem_of in Hlast.
  rewrite Forall_forall in Hall. by apply Hall.
Qed.

(** A loop whose turns all end in an acceptable way ends in one. *)
Lemma all_succeed_ends {A S : Type} (I : S -> Prop) (P : outcome bool -> Prop)
    (step : A -> S -> outcome bool * S) (l : list A) :
  P (Return true) ->
  (forall x s, x ∈ l -> I s -> I (snd (step x s)) /\ P (fst (step x s))) ->
  forall s, I s -> I (snd (all_succeed step l s)) /\ P (fst (all_succeed step l s)).
Proof.
  intros Htrue. induction l as [|x l IH]; intros Hstep s Hs; simpl; [done|].
  destruct (Hstep x s (list_elem_of_here _ _) Hs) as [Hs' Hr].
  destruct (step x s) as [r s']. simpl in *.
  destruct r as [[|]|e]; [|done|done].
  apply IH; [|done]. intros y s0 Hy. apply Hstep. by apply list_elem_of_further.
Qed.

Lemma install_recursive_visiting (registry : gmap string package_entry) (depth : nat) :
  forall name version st,
    visiting st ⊆ visiting (snd (_install_recursive depth registry name version st)).
Proof.
  induction depth as [|depth IH]; intros name version st; [done|].
  rewrite install_recursive_unfold.
  case_bool_decide; [done|]. case_bool_decide; [done|]. cbv zeta.
  destruct (registry !! name) as [entry|]; [|simpl; set_solver].
  set (st1 := {| pkgs := pkgs st; installed := installed st;
                 visiting := {[name]} ∪ visiting st |}).
  destruct (all_succeed _ _ st1) as [r st2] eqn:Hloop.
  assert (visiting st1 ⊆ visiting st2) as Hsub.
  { revert Hloop. apply (all_succeed_relation (fun s s' => visiting s ⊆ visiting s'));
      [done | set_solver |].
    intros [dep_name c] s r0 s' _.
    destruct (_find_version registry dep_name c) as [[v|]|e]; try (by intros [= _ <-]).
    intros Hstep. pose proof (IH dep_name v s) as Hv. by rewrite Hstep in Hv. }
  simpl in Hsub. destruct r as [[|]|e]; simpl; set_solver.
Qed.

Lemma install_recursive_no_KeyError (registry : gmap string package_entry) (depth : nat) :
  forall name version st,
    is_Some (registry !! name) ->
    fst (_install_recursive depth registry name version st) <> Raise KeyError.
Proof.
  induction depth as [|d IH]; intros n v st Hn; [done|].
  rewrite install_recursive_unfold.
  case_bool_decide; [done|]. case_bool_decide; [done|]. cbv zeta.
  destruct Hn as [entry ->].
  set (st1 := {| pkgs := pkgs st; installed := installed st;
                 visiting := {[n]} ∪ visiting st |}).
  pose proof (all_succeed_ends (fun _ => True) (fun r => r <> Raise KeyError)
                (fun (dep : dependency) st =>
                   let '(dep_name, constraint) := dep in
                   match _find_version registry dep_name constraint with
                   | Raise e => (Raise e, st)
                   | Return None => (Return false, st)
                   | Return (Some dep_version) =>
                       _install_recursive d registry dep_name dep_version st
                   end)
                (default [] (dependencies entry !! v))) as Hloop.
  destruct (Hloop ltac:(done)) with (s := st1) as [_ Hr]; [|done|].
  - intros [dep_name c] s _ _. split; [done|].
    destruct (_find_version registry dep_name c) as [[dv|]|e] eqn:E; simpl; [|done|].
    + apply IH. by eapply find_version_registered.
    + apply find_version_raises in E as ->. done.
  - destruct (all_succeed _ _ st1) as [r st2]. simpl in Hr. by destruct r as [[|]|e].
Qed.

Lemma install_recursive_terminates (registry : gmap string package_entry) (depth : nat) :
  forall name version st,
    is_Some (registry !! name) ->
    size (dom registry ∖ visiting st) + 1 <= depth ->
    fst (_install_recursive depth registry name version st) <> Raise RecursionError.
Proof.
  induction depth as [|d IH]; intros n v st Hn Hd; [lia|].
  rewrite install_recursive_unfold.
  case_bool_decide; [done|]. case_bool_decide as Hvis; [done|]. cbv zeta.
  pose proof Hn as [entry Hreg]. rewrite Hreg.
  set (st1 := {| pkgs := pkgs st; installed := installed st;
                 visiting := {[n]} ∪ visiting st |}).
  assert (size (dom registry ∖ visiting st1) < size (dom registry ∖ visiting st)) as Hlt.
  { apply subset_size. simpl. apply elem_of_dom_2 in Hreg. set_solver. }
  pose proof (all_succeed_ends (fun s => visiting st1 ⊆ visiting s)
                (fun r => r <> Raise RecursionError)
                (fun (dep : dependency) st =>
                   let '(dep_name, constraint) := dep in
                   match _find_version registry dep_name constraint with
                   | Raise e => (Raise e, st)
                   | Return None => (Return false, st)
                   | Return (Some dep_version) =>
                       _install_recursive d registry dep_name dep_version st
                   end)
                (default [] (dependencies entry !! v))) as Hloop.
  destruct (Hloop ltac:(done)) with (s := st1) as [_ Hr]; [|done|].
  - intros [dep_name c] s _ Hs.
    destruct (_find_version registry dep_name c) as [[dv|]|e] eqn:E; simpl; [|done|].
    + split.
      * pose proof (install_recursive_visiting registry d dep_name dv s). set_solver.
      * apply IH; [by eapply find_version_registered|].
        assert (size (dom registry ∖ visiting s) <= size (dom registry ∖ visiting st1))
          by (apply subseteq_size; set_solver). lia.
    + split; [done|]. apply find_version_raises in E as ->. done.
  - destruct (all_succeed _ _ st1) as [r st2]. simpl in Hr. by destruct r as [[|]|e].
Qed.

(** X17: the look-up [self._registry[name]] of [_install_recursive] never
    fails: [install] cannot raise [KeyError]. *)
Theorem stage3_install_never_raises_KeyError
    (depth : nat) (self : PackageManager) (name : string) (constraint : option string) :
  fst (install depth self name constraint) <> Raise KeyError.
Proof.
  unfold install. destruct (_registry self !! name) as [entry|] eqn:Hreg; [|done].
  destruct (_find_version _ _ _) as [[version|]|e] eqn:E; simpl; [|done|].
  - pose proof (install_recursive_no_KeyError (_registry self) depth name version
                  {| pkgs := _packages self; installed := []; visiting := ∅ |}) as Hrec.
    destruct (_install_recursive _ _ _ _ _) as [r st]. simpl in *.
    destruct r as [ok|e]; simpl; [done|]. intros [= ->]. apply Hrec; [by rewrite Hreg | done].
  - apply find_version_raises in E as ->. done.
Qed.

(** X18: every stage-3 [install] ends when the recursion budget exceeds the
    number of registered packages: it returns, or a comparison raises
    [TypeError]. A cycle is no obstacle. *)
Theorem stage3_install_terminates
    (depth : nat) (self : PackageManager) (name : string) (constraint : option string) :
  size (_registry self) + 1 <= depth ->
  (exists result, fst (install depth self name constraint) = Return result)
  \/ fst (install depth self name constraint) = Raise TypeError.
Proof.
  intros Hdepth.
  unfold install in *. destruct (_registry self !! name) as [entry|] eqn:Hreg; [|left; by eauto].
  destruct (_find_version _ _ _) as [[version|]|e] eqn:E; simpl; [|left; by eauto|].
  - pose proof (install_recursive_terminates (_registry self) depth name version
                  {| pkgs := _packages self; installed := []; visiting := ∅ |}) as Hrec.
    pose proof (install_recursive_no_KeyError (_registry self) depth name version
                  {| pkgs := _packages self; installed := []; visiting := ∅ |}) as Hkey.
    destruct (_install_recursive _ _ _ _ _) as [r st]. simpl in *.
    destruct r as [ok|e]; simpl; [left; by eauto|]. right. f_equal.
    destruct e; [done | |].
    + exfalso. apply Hkey; [by rewrite Hreg | done].
    + exfalso. apply Hrec; [by rewrite Hreg | | done].
      assert (size (dom (_registry self) ∖ (∅ : gset string)) <= size (_registry self)).
      { rewrite <- size_dom. apply subseteq_size. set_solver. }
      lia.
  - right. f_equal. by eapply find_version_raises.
Qed.

Lemma stage3_install_terminates_witness :
  (exists result, fst (install 3 Examples.cycle3 "a" None) = Return result)
  \/ fst (install 3 Examples.cycle3 "a" None) = Raise TypeError.
Proof.
  apply (stage3_install_terminates 3 Examples.cycle3 "a" None).
  vm_compute. lia.
Defined.

(** X19: a stage-3 [install] that succeeds for a package that was not
    installed installs the version [_find_version] chose for the
    constraint, so [check_constraint] holds for the constraint
    afterwards. *)
Theorem stage3_installed_version_satisfies_constraint
    (depth : nat) (self self' : PackageManager) (name : string)
    (constraint : option string) (inst : list string) :
  get_version self name = None ->
  install depth self name constraint = (Return (true, inst), self') ->
  exists version,
    _find_version (_registry self) name constraint = Return (Some version)
    /\ get_version self' name = Some version
    /\ forall c, constraint = Some c -> check_constraint self' name c = Return true.
Proof.
  unfold get_version, install. intros Hnone.
  destruct (_registry self !! name) as [entry|] eqn:Hreg; [|done].
  destruct (_find_version _ _ _) as [[version|]|e] eqn:E; [|done|done].
  destruct depth as [|depth]; [done|]. rewrite install_recursive_unfold.
  cbn [pkgs visiting]. rewrite (not_installed _ _ Hnone).
  rewrite (bool_decide_eq_false_2 (name ∈ (∅ : gset string))) by set_solver.
  cbv zeta. rewrite Hreg.
  destruct (all_succeed _ _ _) as [r st2]. destruct r as [[|]|e]; [|done|done].
  intros [= _ <-]. exists version. unfold check_constraint. simpl.
  rewrite lookup_insert_eq. split_and!; [done | done |].
  intros c ->. by eapply find_version_matches.
Qed.

Lemma stage3_installed_version_satisfies_constraint_witness :
  exists version,
    _find_version (Stage4._registry Examples.requests) "urllib3" (Some ">=1.0")
      = Return (Some version)
    /\ get_version
         (snd (install 5 {| _packages := ∅; _registry := Stage4._registry Examples.requests |}
                 "urllib3" (Some ">=1.0"))) "urllib3" = Some version
    /\ forall c, Some ">=1.0" = Some c ->
                 check_constraint
                   (snd (install 5 {| _packages := ∅;
                                      _registry := Stage4._registry Examples.requests |}
                           "urllib3" (Some ">=1.0"))) "urllib3" c = Return true.
Proof.
  refine (stage3_installed_version_satisfies_constraint 5
            {| _packages := ∅; _registry := Stage4._registry Examples.requests |}
            (snd (install 5 {| _packages := ∅; _registry := Stage4._registry Examples.requests |}
                    "urllib3" (Some ">=1.0")))
            "urllib3" (Some ">=1.0") ["urllib3==1.26.0"] _ _); vm_compute; reflexivity.
Defined.

End Stage3Install.

(** ** Stage 2: [install], [uninstall] and [get_dependents] *)

Section OrderedDictMore.

Context {V : Type}.

Lemma od_mem_false (k : string) (d : odict V) : od_mem k d = false <-> od_get k d = None.
Proof. unfold od_mem. by destruct (od_get k d). Qed.

Lemma od_get_del_ne (k k' : string) (d : odict V) :
  k <> k' -> od_get k' (od_del k d) = od_get k' d.
Proof.
  intros Hne. induction d as [|[k0 v] d IH]; simpl; [done|].
  destruct (String.eqb_spec k k0) as [->|Hk].
  - destruct (String.eqb_spec k' k0) as [->|_]; done.
  - simpl. by rewrite IH.
Qed.

Lemma filter_all {A : Type} (P : A -> Prop) `{!forall x, Decision (P x)} (l : list A) :
  Forall P l -> filter P l = l.
Proof.
  induction 1 as [|x l Hx Hl IH]; [done|]. by rewrite filter_cons_True, IH.
Qed.

Lemma od_keys_del (k : string) (d : odict V) :
  NoDup (od_keys d) -> od_keys (od_del k d) = filter (fun k' => k' <> k) (od_keys d).
Proof.
  induction d as [|[k0 v] d IH]; simpl; [done|]. intros [Hk0 Hnd]%NoDup_cons.
  destruct (String.eqb_spec k k0) as [->|Hk].
  - rewrite filter_cons_False by (by intros []).
    symmetry. apply filter_all. apply Forall_forall. intros x Hx ->. done.
  - rewrite filter_cons_True by done. simpl. by rewrite IH.
Qed.

End OrderedDictMore.

Section Stage2Uninstall.

Import Stage2.

Lemma get_dependents_nil (self : PackageManager) (name : string) :
  get_dependents self name = [] <->
  find (depends_on self name) (od_keys (_packages self)) = None.
Proof.
  split.
  - intros Hnil. destruct (find _ _) as [pkg|] eqn:E; [|done].
    apply find_first in E as (before & after & Hkeys & _ & Hdep).
    assert (pkg ∈ get_dependents self name) as Hin.
    { apply get_dependents_elem. rewrite Hkeys. split; [set_solver | done]. }
    rewrite Hnil in Hin. by apply elem_of_nil in Hin.
  - intros Hnone. unfold get_dependents. by rewrite (find_none_filter _ _ Hnone).
Qed.

(** X20: [uninstall] succeeds exactly when the package is installed and no
    installed package depends on it. It then takes the package out and
    leaves the other installed packages, their order and the registered
    dependencies as they are; when it fails it changes nothing and gives a
    message. *)
Theorem uninstall_succeeds_exactly_when_unused (self : PackageManager) (name : string) :
  NoDup (od_keys (_packages self)) ->
  (fst (fst (uninstall self name)) = true <->
   is_installed self name = true /\ get_dependents self name = [])
  /\ (fst (fst (uninstall self name)) = true ->
      snd (fst (uninstall self name)) = None
      /\ is_installed (snd (uninstall self name)) name = false
      /\ od_keys (_packages (snd (uninstall self name)))
         = filter (fun other => other <> name) (od_keys (_packages self))
      /\ (forall other, other <> name ->
            get_version (snd (uninstall self name)) other = get_version self other)
      /\ _dependencies (snd (uninstall self name)) = _dependencies self)
  /\ (fst (fst (uninstall self name)) = false ->
      snd (uninstall self name) = self /\ is_Some (snd (fst (uninstall self name)))).
Proof.
  intros Hnd. unfold uninstall, is_installed, get_version. rewrite get_dependents_nil.
  destruct (od_mem name (_packages self)) eqn:Hmem; simpl.
  - destruct (find _ _) as [pkg|] eqn:E; simpl.
    + split_and!; [split; [done | by intros [_ ?]] | done | by eauto].
    + split_and!; [done | | done]. intros _. split_and!; [done | | | | done].
      * apply not_true_iff_false. rewrite od_mem_true, od_keys_del by done.
        intros [Hne _]%list_elem_of_filter. done.
      * by apply od_keys_del.
      * intros other Hne. apply od_get_del_ne. congruence.
  - split_and!; [split; [done | by intros [? _]] | done | by eauto].
Qed.

Lemma uninstall_succeeds_exactly_when_unused_witness :
  fst (fst (uninstall Examples.two_dependents "pkg1")) = true <->
  is_installed Examples.two_dependents "pkg1" = true
  /\ get_dependents Examples.two_dependents "pkg1" = [].
Proof.
  refine (proj1 (uninstall_succeeds_exactly_when_unused Examples.two_dependents "pkg1" _)).
  apply (bool_decide_unpack _). vm_compute. exact I.
Defined.

(** X21: [get_dependents] returns, in ascending order, exactly the
    installed packages whose registered dependencies contain the
    package. *)
Theorem get_dependents_lists_installed_dependents (self : PackageManager) (name : string) :
  StronglySorted (fun a b => String.ltb b a = false) (get_dependents self name)
  /\ forall pkg, pkg ∈ get_dependents self name <->
                 is_installed self pkg = true /\ name ∈ get_dependencies self pkg.
Proof.
  split.
  - unfold get_dependents. apply sorted_total_sorted; [apply string_ltb_asym | apply string_ltb_le].
  - intros pkg. rewrite get_dependents_elem. unfold is_installed, get_dependencies, depends_on.
    by rewrite od_mem_true, bool_decide_eq_true.
Qed.

End Stage2Uninstall.

Section Stage2Install.

Import Stage2.

Lemma adds_refl (st : progress2) : adds st st [].
Proof.
  unfold adds. rewrite !app_nil_r. split_and!; try done; constructor.
Qed.

Lemma adds_trans (st1 st2 st3 : progress2) (a b : list string) :
  adds st1 st2 a -> adds st2 st3 b -> adds st1 st3 (a ++ b).
Proof.
  intros (Hi1 & Hk1 & Hn1 & Hf1 & Hg1 & Hv1) (Hi2 & Hk2 & Hn2 & Hf2 & Hg2 & Hv2).
  rewrite Forall_forall in Hf1, Hf2.
  assert (forall n, n ∈ b -> n ∉ a) as Hdisj.
  { intros n Hb Ha. destruct (Hf1 _ Ha) as (_ & _ & Hin). destruct (Hf2 _ Hb) as (_ & Hout & _).
    done. }
  split_and!.
  - by rewrite Hi2, Hi1, app_assoc.
  - by rewrite Hk2, Hk1, app_assoc.
  - apply NoDup_app. split_and!; [done | | done]. intros n Ha Hb. by apply (Hdisj n).
  - apply Forall_app. split; apply Forall_forall; intros n Hn.
    + destruct (Hf1 _ Hn) as (? & ? & ?). split_and!; [done | done | set_solver].
    + destruct (Hf2 _ Hn) as (Hnone & Hout & ?). split_and!; [ | set_solver | done].
      rewrite <- Hg1; [done | by apply Hdisj].
  - intros n [Ha Hb]%not_elem_of_app. by rewrite Hg2, Hg1.
  - set_solver.
Qed.

(** A loop whose turns all return. *)
Lemma for_each_chain {A S : Type} (R : S -> S -> Prop) (body : S -> A -> outcome S)
    (l : list A) :
  (forall s, R s s) ->
  (forall s1 s2 s3, R s1 s2 -> R s2 s3 -> R s1 s3) ->
  (forall s x s', x ∈ l -> body s x = Return s' -> R s s') ->
  forall s s', for_each body l s = Return s' -> R s s'.
Proof.
  intros Hrefl Htrans. induction l as [|x l IH]; intros Hbody s s'; simpl.
  - by intros [= <-].
  - destruct (body s x) as [s1|e] eqn:E; [|done]. intros Hrest.
    eapply Htrans; [eapply Hbody; [by left | done]|].
    apply IH; [|done]. intros s0 y s0' Hy. apply Hbody. by right.
Qed.

(** What one call of [_install_recursive] adds, and at which versions. *)
Lemma stage2_install_recursive_adds (deps_of : gmap string (list string)) (depth : nat) :
  forall name version st st',
    _install_recursive depth deps_of name version st = Return st' ->
    exists added,
      adds st st' added
      /\ Forall (fun n => od_get n (pkgs2 st')
                          = Some (if String.eqb n name then version else "latest")) added
      /\ (od_mem name (pkgs2 st) = false -> name ∉ visiting2 st -> last added = Some name).
Proof.
  induction depth as [|depth IH]; intros name version st st'; simpl; [done|].
  destruct (od_mem name (pkgs2 st)) eqn:Hmem; simpl.
  { intros [= <-]. exists []. split_and!; [apply adds_refl | constructor | done]. }
  case_bool_decide as Hvis.
  { intros [= <-]. exists []. split_and!; [apply adds_refl | constructor | done]. }
  set (st1 := {| pkgs2 := pkgs2 st; installed2 := installed2 st;
                 visiting2 := {[name]} ∪ visiting2 st |}).
  destruct (for_each _ _ st1) as [st2|e] eqn:Hloop; simpl; [|done].
  intros [= <-].
  assert (exists added, adds st1 st2 added
                        /\ Forall (fun n => od_get n (pkgs2 st2) = Some "latest") added)
    as (added & Hadds & Hlatest).
  { revert Hloop.
    apply (for_each_chain
             (fun s s' => exists added,
                  adds s s' added
                  /\ Forall (fun n => od_get n (pkgs2 s') = Some "latest") added)).
    - intros s. exists []. split; [apply adds_refl | constructor].
    - intros s1 s2 s3 (a & Ha & Hla) (b & Hb & Hlb). exists (a ++ b).
      split; [by eapply adds_trans|]. apply Forall_app. split; [|done].
      rewrite Forall_forall in Hla |- *. intros n Hn.
      destruct Hb as (_ & _ & _ & Hfb & Hgb & _). rewrite Hgb; [by apply Hla|].
      intros Hnb. rewrite Forall_forall in Hfb. destruct (Hfb _ Hnb) as (Hnone & _).
      rewrite (Hla _ Hn) in Hnone. done.
    - intros s dep s' _. destruct (negb (od_mem dep (pkgs2 s))).
      + intros (a & Ha & Hla & _)%IH. exists a. split; [done|].
        eapply Forall_impl; [exact Hla|]. simpl. intros n ->. by destruct (String.eqb n dep).
      + intros [= <-]. exists []. split; [apply adds_refl | constructor]. }
  pose proof Hadds as (Hi & Hk & Hn & Hf & Hg & Hv).
  assert (name ∉ added) as Hfresh.
  { intros Hin. rewrite Forall_forall in Hf. destruct (Hf _ Hin) as (_ & Hout & _).
    simpl in Hout. set_solver. }
  assert (od_get name (pkgs2 st2) = None) as Hnone.
  { rewrite Hg by done. simpl. by apply od_mem_false. }
  exists (added ++ [name]). split_and!.
  - unfold adds. simpl in *. split_and!.
    + by rewrite Hi, app_assoc.
    + rewrite od_keys_set. apply od_mem_false in Hnone. by rewrite Hnone, Hk, app_assoc.
    + apply NoDup_app. split_and!; [done | | apply NoDup_singleton].
      intros n Hn1 Hn2%list_elem_of_singleton. by subst.
    + apply Forall_app. split.
      * eapply Forall_impl; [exact Hf|]. simpl. intros n (? & ? & ?).
        split_and!; [done | set_solver | done].
      * constructor; [|constructor]. split_and!; [by apply od_mem_false | done | set_solver].
    + intros n [Hn1 Hn2%not_elem_of_cons]%not_elem_of_app.
      rewrite od_get_set_ne by (by destruct Hn2). by apply Hg.
    + set_solver.
  - simpl. apply Forall_app. split.
    + rewrite Forall_forall in Hlatest |- *. intros n Hin.
      assert (n <> name) as Hne by (by intros ->).
      rewrite od_get_set_ne by done. rewrite (Hlatest _ Hin).
      apply String.eqb_neq in Hne. by rewrite Hne.
    + constructor; [|constructor]. by rewrite od_get_set_eq, String.eqb_refl.
  - intros _ _. apply last_snoc.
Qed.

(** X22: what the stage-2 [install] of a package that is not installed
    does: the list it returns names the packages it added, none twice and
    none installed before, in the order in which they now follow the
    packages installed earlier; the package asked for comes last and gets
    the version asked for; every other one is a dependency installed at
    the placeholder version [latest]; the packages installed before keep
    their versions. *)
Theorem stage2_install_adds_dependencies_at_latest
    (depth : nat) (self self' : PackageManager) (name version : string)
    (inst : list string) :
  is_installed self name = false ->
  install depth self name version = Return (inst, self') ->
  last inst = Some name
  /\ NoDup inst
  /\ od_keys (_packages self') = od_keys (_packages self) ++ inst
  /\ (forall pkg, pkg ∈ inst ->
        get_version self pkg = None
        /\ get_version self' pkg = Some (if String.eqb pkg name then version else "latest"))
  /\ (forall pkg, pkg ∉ inst -> get_version self' pkg = get_version self pkg)
  /\ _dependencies self' = _dependencies self.
Proof.
  unfold is_installed, install, get_version. intros Hmem. rewrite Hmem.
  destruct (_install_recursive _ _ _ _ _) as [st|e] eqn:Hrun; simpl; [|done].
  intros [= <- <-]. simpl.
  apply stage2_install_recursive_adds in Hrun
    as (added & (Hi & Hk & Hn & Hf & Hg & _) & Hversions & Hlast).
  simpl in *. subst added. split_and!; try done.
  - apply Hlast; [done | set_solver].
  - intros pkg Hpkg. rewrite Forall_forall in Hf, Hversions.
    destruct (Hf _ Hpkg) as (? & _). split; [done | by apply Hversions].
Qed.

Lemma stage2_install_adds_dependencies_at_latest_witness :
  let pm := register_package (register_package new "base" "1.0.0" None)
              "app" "2.0.0" (Some ["base"]) in
  let self' := {| _packages := [("base", "latest"); ("app", "2.0.0")];
                  _dependencies := _dependencies pm |} in
  last ["base"; "app"] = Some "app"
  /\ NoDup ["base"; "app"]
  /\ od_keys (_packages self') = od_keys (_packages pm) ++ ["base"; "app"]
  /\ (forall pkg, pkg ∈ ["base"; "app"] ->
        get_version pm pkg = None
        /\ get_version self' pkg = Some (if String.eqb pkg "app" then "2.0.0" else "latest"))
  /\ (forall pkg, pkg ∉ ["base"; "app"] -> get_version self' pkg = get_version pm pkg)
  /\ _dependencies self' = _dependencies pm.
Proof.
  intros pm self'.
  refine (stage2_install_adds_dependencies_at_latest 5 pm self' "app" "2.0.0"
            ["base"; "app"] _ _); vm_compute; reflexivity.
Defined.

(** A loop whose turns all return, returns. *)
Lemma for_each_all_return {A S : Type} (I : S -> Prop) (body : S -> A -> outcome S)
    (l : list A) :
  (forall s x, x ∈ l -> I s -> exists s', body s x = Return s' /\ I s') ->
  forall s, I s -> exists s', for_each body l s = Return s' /\ I s'.
Proof.
  induction l as [|x l IH]; intros Hbody s Hs; simpl; [by eauto|].
  destruct (Hbody s x (list_elem_of_here _ _) Hs) as (s1 & -> & Hs1).
  apply IH; [|done]. intros s0 y Hy. apply Hbody. by apply list_elem_of_further.
Qed.

Lemma stage2_install_recursive_returns (deps_of : gmap string (list string)) (depth : nat) :
  forall name version st,
    size (dom deps_of ∖ visiting2 st) + 1 <= depth ->
    exists st', _install_recursive depth deps_of name version st = Return st'
                /\ visiting2 st ⊆ visiting2 st'.
Proof.
  induction depth as [|depth IH]; intros name version st Hdepth; [lia|]. simpl.
  destruct (od_mem name (pkgs2 st) || bool_decide (name ∈ visiting2 st)) eqn:Hskip;
    [by eauto|].
  apply orb_false_iff in Hskip as [_ Hvis%bool_decide_eq_false].
  set (st1 := {| pkgs2 := pkgs2 st; installed2 := installed2 st;
                 visiting2 := {[name]} ∪ visiting2 st |}).
  destruct (deps_of !! name) as [deps|] eqn:Hdeps; simpl.
  - assert (size (dom deps_of ∖ visiting2 st1) < size (dom deps_of ∖ visiting2 st)) as Hlt.
    { apply subset_size. simpl. apply elem_of_dom_2 in Hdeps. set_solver. }
    destruct (for_each_all_return (fun s => visiting2 st1 ⊆ visiting2 s)
                (fun st dep =>
                   if negb (od_mem dep (pkgs2 st))
                   then _install_recursive depth deps_of dep "latest" st
                   else Return st) deps) with (s := st1) as (st2 & -> & Hsub); [|done|].
    + intros s dep _ Hs. destruct (negb (od_mem dep (pkgs2 s))); [|by eauto].
      destruct (IH dep "latest" s) as (s' & Hrun & Hs'); [|exists s'; split; [done | set_solver]].
      assert (size (dom deps_of ∖ visiting2 s) <= size (dom deps_of ∖ visiting2 st1))
        by (apply subseteq_size; set_solver). lia.
    + simpl. eexists. split; [done|]. simpl in *. set_solver.
  - eexists. split; [done|]. simpl. set_solver.
Qed.

(** X23: the stage-2 [install] always ends, whatever the registered
    dependencies, cycles included, once the recursion budget exceeds the
    number of packages that have registered dependencies: it never
    fails. *)
Theorem stage2_install_always_returns
    (depth : nat) (self : PackageManager) (name version : string) :
  size (_dependencies self) + 1 <= depth ->
  exists inst self', install depth self name version = Return (inst, self').
Proof.
  intros Hdepth. unfold install. destruct (od_mem name (_packages self)); [by eauto|].
  destruct (stage2_install_recursive_returns (_dependencies self) depth name version
              {| pkgs2 := _packages self; installed2 := []; visiting2 := ∅ |})
    as (st & -> & _); [|simpl; by eauto].
  simpl. assert (size (dom (_dependencies self) ∖ (∅ : gset string))
                 <= size (_dependencies self)).
  { rewrite <- size_dom. apply subseteq_size. set_solver. }
  lia.
Qed.

Lemma stage2_install_always_returns_witness :
  exists inst self',
    install 3 (register_package (register_package new "a" "1.0" (Some ["b"]))
                 "b" "1.0" (Some ["a"])) "a" "1.0"
    = Return (inst, self').
Proof.
  apply (stage2_install_always_returns 3
           (register_package (register_package new "a" "1.0" (Some ["b"]))
              "b" "1.0" (Some ["a"])) "a" "1.0").
  vm_compute. lia.
Defined.

Lemma dependencies_installed_step (deps_of : gmap string (list string))
    (st1 s s' : progress2) :
  dependencies_installed deps_of st1 s ->
  dependencies_installed deps_of s s' ->
  dependencies_installed deps_of st1 s'.
Proof.
  intros (Hkeep & Hvisited & Hdeps) (Hkeep' & Hvisited' & Hdeps').
  assert (forall d, od_mem d (pkgs2 s') = true \/ d ∈ visiting2 s ->
                    od_mem d (pkgs2 s') = true \/ d ∈ visiting2 st1) as Hback.
  { intros d [Hd|Hd]; [by left|]. destruct (Hvisited d Hd) as [?|?]; [by right|].
    left. by apply Hkeep'. }
  split_and!.
  - intros n Hn. by apply Hkeep', Hkeep.
  - intros n Hn. destruct (Hvisited' n Hn) as [Hn1|Hn1]; [|by right].
    destruct (Hvisited n Hn1) as [?|?]; [by left|]. right. by apply Hkeep'.
  - intros n d Hnone Hsome Hd. destruct (od_mem n (pkgs2 s)) eqn:Hs.
    + destruct (Hdeps n d) as [?|?]; try done; [|by right]. left. by apply Hkeep'.
    + apply Hback. by eapply Hdeps'.
Qed.

Lemma dependencies_installed_refl (deps_of : gmap string (list string)) (st : progress2) :
  dependencies_installed deps_of st st.
Proof. split_and!; [done | by left |]. intros n d Hnone Hsome. congruence. Qed.

Lemma stage2_install_recursive_dependencies_installed
    (deps_of : gmap string (list string)) (depth : nat) :
  forall name version st st',
    _install_recursive depth deps_of name version st = Return st' ->
    dependencies_installed deps_of st st'
    /\ (od_mem name (pkgs2 st') = true \/ name ∈ visiting2 st).
Proof.
  induction depth as [|depth IH]; intros name version st st'; simpl; [done|].
  destruct (od_mem name (pkgs2 st)) eqn:Hmem; simpl.
  { intros [= <-]. split; [apply dependencies_installed_refl | by left]. }
  case_bool_decide as Hvis.
  { intros [= <-]. split; [apply dependencies_installed_refl | by right]. }
  set (st1 := {| pkgs2 := pkgs2 st; installed2 := installed2 st;
                 visiting2 := {[name]} ∪ visiting2 st |}).
  destruct (for_each _ _ st1) as [st2|e] eqn:Hloop; simpl; [|done].
  intros [= <-].
  assert (dependencies_installed deps_of st1 st2
          /\ Forall (fun dep => od_mem dep (pkgs2 st2) = true \/ dep ∈ visiting2 st1)
                    (default [] (deps_of !! name))) as [(Hkeep & Hvisited & Hdeps) Hall].
  { assert (forall deps s,
               dependencies_installed deps_of st1 s ->
               for_each (fun st dep =>
                           if negb (od_mem dep (pkgs2 st))
                           then _install_recursive depth deps_of dep "latest" st
                           else Return st) deps s = Return st2 ->
               dependencies_installed deps_of st1 st2
               /\ Forall (fun dep => od_mem dep (pkgs2 st2) = true \/ dep ∈ visiting2 st1)
                         deps) as Hgen;
      [|by apply (Hgen _ st1); [apply dependencies_installed_refl | exact Hloop]].
    clear Hloop Hmem Hvis.
    induction deps as [|dep deps IHdeps]; intros s Hs; simpl.
    - intros [= <-]. split; [done | constructor].
    - destruct (od_mem dep (pkgs2 s)) eqn:Hdep; simpl.
      + intros Hrest. destruct (IHdeps s Hs Hrest) as [Hfinal Hall].
        split; [done|]. constructor; [|done]. left.
        assert (dependencies_installed deps_of s st2) as (Hk & _).
        { revert Hrest. apply (for_each_chain (dependencies_installed deps_of));
            [apply dependencies_installed_refl
            | intros ? ? ?; apply dependencies_installed_step |].
          intros s0 x s0' _. destruct (negb (od_mem x (pkgs2 s0))); [|intros [= <-];
            apply dependencies_installed_refl]. by intros [? _]%IH. }
        by apply Hk.
      + destruct (_install_recursive depth deps_of dep "latest" s) as [s1|e] eqn:Hrun;
          [|done].
        intros Hrest. destruct (IH _ _ _ _ Hrun) as [Hstep Hdone].
        pose proof (dependencies_installed_step _ _ _ _ Hs Hstep) as Hs1.
        destruct (IHdeps s1 Hs1 Hrest) as [Hfinal Hall].
        split; [done|]. constructor; [|done].
        assert (dependencies_installed deps_of s1 st2) as (Hk & _).
        { revert Hrest. apply (for_each_chain (dependencies_installed deps_of));
            [apply dependencies_installed_refl
            | intros ? ? ?; apply dependencies_installed_step |].
          intros s0 x s0' _. destruct (negb (od_mem x (pkgs2 s0))); [|intros [= <-];
            apply dependencies_installed_refl]. by intros [? _]%IH. }
        destruct Hdone as [Hd|Hd]; [left; by apply Hk|].
        destruct Hs as (_ & Hv & _). destruct (Hv dep Hd) as [?|Hin]; [by right|].
        left. apply Hk. destruct Hstep as (Hk1 & _). by apply Hk1. }
  assert (forall d, od_mem d (od_set name version (pkgs2 st2)) = true <->
                    d = name \/ od_mem d (pkgs2 st2) = true) as Hset.
  { intros d. rewrite !od_mem_true, od_keys_set.
    destruct (od_mem name (pkgs2 st2)) eqn:E.
    - apply od_mem_true in E. split; [by right | by intros [->|?]].
    - rewrite elem_of_app, list_elem_of_singleton. tauto. }
  split; [|left; simpl; apply Hset; by left].
  split_and!; simpl.
  - intros n Hn. apply Hset. right. by apply Hkeep.
  - intros n Hn. rewrite Hset. destruct (Hvisited n Hn) as [Hn1|Hn1]; [|by right; right].
    simpl in Hn1. apply elem_of_union in Hn1 as [->%elem_of_singleton|?]; [right|]; by left.
  - intros n d Hnone Hsome Hd. rewrite Hset.
    assert (od_mem d (pkgs2 st2) = true \/ d ∈ visiting2 st1 ->
            (d = name \/ od_mem d (pkgs2 st2) = true) \/ d ∈ visiting2 st) as Hfinal.
    { intros [?|Hin]; [left; by right|]. simpl in Hin.
      apply elem_of_union in Hin as [->%elem_of_singleton|?]; [left; by left | by right]. }
    apply Hfinal. apply Hset in Hsome as [->|Hsome].
    + rewrite Forall_forall in Hall. by apply Hall.
    + by apply (Hdeps n d).
Qed.

(** X24: after the stage-2 [install], the package asked for is installed
    and so is every registered dependency of every package the call
    installed. *)
Theorem stage2_install_leaves_dependencies_installed
    (depth : nat) (self self' : PackageManager) (name version : string)
    (inst : list string) :
  install depth self name version = Return (inst, self') ->
  is_installed self' name = true
  /\ forall pkg dep,
       is_installed self pkg = false -> is_installed self' pkg = true ->
       dep ∈ get_dependencies self pkg ->
       is_installed self' dep = true.
Proof.
  unfold install, is_installed, get_dependencies.
  destruct (od_mem name (_packages self)) eqn:Hmem.
  { intros [= <- <-]. split; [done|]. intros pkg dep. congruence. }
  destruct (_install_recursive _ _ _ _ _) as [st|e] eqn:Hrun; simpl; [|done].
  intros [= <- <-]. simpl.
  apply stage2_install_recursive_dependencies_installed in Hrun as [(_ & _ & Hdeps) Hroot].
  simpl in *. split; [destruct Hroot as [?|?]; [done | set_solver]|].
  intros pkg dep Hnone Hsome Hdep.
  destruct (Hdeps pkg dep Hnone Hsome Hdep) as [?|?]; [done | set_solver].
Qed.

Lemma stage2_install_leaves_dependencies_installed_witness :
  let pm := register_package (register_package new "base" "1.0.0" None)
              "app" "2.0.0" (Some ["base"]) in
  let self' := {| _packages := [("base", "latest"); ("app", "2.0.0")];
                  _dependencies := _dependencies pm |} in
  is_installed self' "app" = true
  /\ forall pkg dep,
       is_installed pm pkg = false -> is_installed self' pkg = true ->
       dep ∈ get_dependencies pm pkg ->
       is_installed self' dep = true.
Proof.
  intros pm self'.
  refine (stage2_install_leaves_dependencies_installed 5 pm self' "app" "2.0.0"
            ["base"; "app"] _); vm_compute; reflexivity.
Defined.

End Stage2Install.

(** ** Further edge cases and round trips *)

Section RoundTrips.

(** X25: an empty constraint text matches no version: the stage-3
    [install] with the constraint [""] fails for every package and changes
    nothing. *)
Theorem stage3_install_with_empty_constraint_fails
    (depth : nat) (self : Stage3.PackageManager) (name : string) :
  Stage3.install depth self name (Some "") = (Return (false, []), self).
Proof.
  unfold Stage3.install. destruct (Stage3._registry self !! name); [|done].
  by rewrite find_version_empty_text.
Qed.

(** X26: in stage 2, installing a package that is not installed and has no
    registered dependencies, and uninstalling it again when no installed
    package depends on it, gives back the manager as it was. *)
Theorem stage2_install_then_uninstall_restores
    (depth : nat) (self : Stage2.PackageManager) (name version : string) :
  Stage2.is_installed self name = false ->
  Stage2.get_dependencies self name = [] ->
  Stage2.get_dependents self name = [] ->
  exists installed_pm,
    Stage2.install (S depth) self name version = Return ([name], installed_pm)
    /\ Stage2.is_installed installed_pm name = true
    /\ Stage2.uninstall installed_pm name = ((true, None), self).
Proof.
  unfold Stage2.is_installed, Stage2.get_dependencies. intros Hmem Hdeps Hnone.
  unfold Stage2.install. rewrite Hmem. simpl. rewrite Hmem.
  rewrite (bool_decide_eq_false_2 (name ∈ (∅ : gset string))) by set_solver.
  simpl. rewrite Hdeps. simpl. eexists. split; [done|].
  assert (Stage2._packages self ++ [(name, version)]
          = od_set name version (Stage2._packages self)) as Hset.
  { apply od_mem_false, od_get_None in Hmem. clear Hnone Hdeps.
    induction (Stage2._packages self) as [|[k v] d IH]; simpl in *; [done|].
    apply not_elem_of_cons in Hmem as [Hne Hmem].
    apply String.eqb_neq in Hne. rewrite Hne. by rewrite <- IH. }
  rewrite <- Hset. unfold Stage2.is_installed, Stage2.uninstall. simpl.
  assert (od_mem name (Stage2._packages self ++ [(name, version)]) = true) as ->.
  { apply od_mem_true. unfold od_keys. rewrite map_app. set_solver. }
  split; [done|]. simpl.
  apply get_dependents_nil in Hnone.
  assert (find (Stage2.depends_on
                  {| Stage2._packages := Stage2._packages self ++ [(name, version)];
                     Stage2._dependencies := Stage2._dependencies self |} name)
               (od_keys (Stage2._packages self ++ [(name, version)])) = None) as ->.
  { unfold od_keys. rewrite map_app. simpl.
    change (map fst (Stage2._packages self)) with (od_keys (Stage2._packages self)).
    revert Hnone. unfold Stage2.depends_on. simpl.
    induction (od_keys (Stage2._packages self)) as [|k l IH]; simpl.
    - intros _. rewrite Hdeps. by rewrite bool_decide_eq_false_2 by apply not_elem_of_nil.
    - destruct (bool_decide (name ∈ default [] (Stage2._dependencies self !! k))); [done|].
      apply IH. }
  f_equal. destruct self as [packages deps]. simpl in *. f_equal.
  apply od_mem_false, od_get_None in Hmem. clear Hnone Hdeps Hset.
  induction packages as [|[k v] d IH]; simpl in *; [by rewrite String.eqb_refl|].
  apply not_elem_of_cons in Hmem as [Hne Hmem].
  apply String.eqb_neq in Hne. rewrite Hne. by rewrite IH.
Qed.

Lemma stage2_install_then_uninstall_restores_witness :
  exists installed_pm,
    Stage2.install (S 0) Stage2.new "base" "1.0.0" = Return (["base"], installed_pm)
    /\ Stage2.is_installed installed_pm "base" = true
    /\ Stage2.uninstall installed_pm "base" = ((true, None), Stage2.new).
Proof.
  apply (stage2_install_then_uninstall_restores 0 Stage2.new "base" "1.0.0"); reflexivity.
Defined.

Import Stage4.

(** X27: restoring the lock file of a manager into the manager itself
    changes nothing. *)
Theorem restoring_own_lockfile_changes_nothing (self : PackageManager) :
  install_from_lockfile self (generate_lockfile self) = (true, self).
Proof.
  unfold install_from_lockfile. destruct self as [packages registry resolved]. simpl.
  f_equal. f_equal. apply map_eq. intros name.
  rewrite restore_lookup by apply generate_lockfile_NoDup.
  rewrite generate_lockfile_get. simpl.
  destruct (packages !! name); [|done]. by case_bool_decide.
Qed.

(** X28: when [install] succeeds for a package that was not installed, the
    package is the last entry of the list it reports, at the version
    selected for it. *)
Theorem install_reports_requested_package_last
    (depth : nat) (self self' : PackageManager) (name : string)
    (constraint : option string) (resolve_conflicts : bool)
    (inst : list string) (conflicts : list Conflict) :
  _packages self !! name = None ->
  install depth self name constraint resolve_conflicts
    = (Return (true, inst, conflicts), self') ->
  exists version,
    _resolved_versions self' !! name = Some version
    /\ _packages self' !! name = Some version
    /\ last inst = Some (name +:+ "==" +:+ version).
Proof.
  intros Hnone.
  pose proof (install_runs depth self name constraint resolve_conflicts) as Hrun.
  revert Hrun. generalize (install depth self name constraint resolve_conflicts).
  intros run Hrun.
  destruct Hrun as [Hn|e Hsome Hcollect|reqs e Hsome Hcollect Hselect
                    |reqs cs rs Hsome Hcollect Hselect Hconf
                    |reqs rs result st Hsome Hcollect Hselect Hordered]; try done.
  destruct result as [[|]|e]; try done. intros [= <- _ <-]. simpl.
  destruct depth as [|depth]; [done|]. rewrite install_ordered_unfold in Hordered.
  cbn [pkgs visiting] in Hordered. rewrite (not_installed _ _ Hnone) in Hordered.
  rewrite (bool_decide_eq_false_2 (name ∈ (∅ : gset string))) in Hordered by set_solver.
  destruct Hsome as [entry Hreg]. rewrite Hreg in Hordered. cbv zeta in Hordered.
  destruct (rs !! name) as [version|] eqn:Hres; [|done].
  destruct (all_succeed _ _ _) as [r st2]. destruct r as [[|]|e]; [|done|done].
  injection Hordered as <-. exists version. simpl.
  split_and!; [done | apply lookup_insert_eq | apply last_snoc].
Qed.

Lemma install_reports_requested_package_last_witness :
  exists version,
    _resolved_versions Examples.requests_installed !! "requests" = Some version
    /\ _packages Examples.requests_installed !! "requests" = Some version
    /\ last ["urllib3==1.26.0"; "requests==2.28.0"] = Some ("requests" +:+ "==" +:+ version).
Proof.
  refine (install_reports_requested_package_last 10 Examples.requests
            Examples.requests_installed "requests" None true
            ["urllib3==1.26.0"; "requests==2.28.0"] [] _ _); vm_compute; reflexivity.
Defined.

End RoundTrips.
